(** * go-evsrc: Server-Sent-Events encoder and decoder

    A shallow embedding of [ServerConn.Send] (server.go) and of
    [ClientConn.Receive] with its helper [readFieldName] (the client
    connection file), together with the part of Go's [bufio.Reader],
    [strconv] and [fmt] that the two functions call.

    Go strings and byte slices are lists of bytes; a [[]byte] that may be
    [nil] is an [option (list byte)]; Go's [int] is a [Z] (64-bit range
    where it matters); a Go result pair [(v, err)] is a pair whose second
    component is an [option error]. *)

From Stdlib Require Import List ZArith Lia Bool Arith.
From Stdlib Require Import Strings.Byte.
From Stdlib Require Strings.String.
Import ListNotations.
Import String.StringSyntax.
Delimit Scope string_scope with string.
Bind Scope string_scope with String.string.

(** ** Bytes and strings *)

Definition gostring := list byte.

Definition bytes (s : String.string) : list byte := String.list_byte_of_string s.

Definition LF : byte := x0a.
Definition CR : byte := x0d.
Definition SP : byte := x20.
Definition COLON : byte := x3a.

Definition len {A} (l : list A) : Z := Z.of_nat (length l).

(** [bytes.IndexByte]: position of the first [c] in [s], if any. *)
Fixpoint IndexByte (s : list byte) (c : byte) : option nat :=
  match s with
  | [] => None
  | b :: s' =>
      if Byte.eqb b c then Some O
      else match IndexByte s' c with
           | Some i => Some (S i)
           | None => None
           end
  end.

(** [strings.TrimSuffix s "\n"]. *)
Fixpoint TrimSuffixLF (s : gostring) : gostring :=
  match s with
  | [] => []
  | [b] => if Byte.eqb b LF then [] else [b]
  | b :: s' => b :: TrimSuffixLF s'
  end.

(** Go's [append] on a possibly-nil slice: appending nothing to [nil]
    leaves it [nil]. *)
Definition append (s : option (list byte)) (l : list byte) : option (list byte) :=
  match s, l with
  | None, [] => None
  | None, _ => Some l
  | Some d, _ => Some (d ++ l)
  end.

(** [len] of a possibly-nil slice. *)
Definition slen (s : option (list byte)) : Z :=
  match s with
  | None => 0
  | Some d => len d
  end.

(** ** Errors *)

Inductive error : Type :=
| io_EOF                 (* io.EOF: the stream ended *)
| io_Failure             (* any other failure of the underlying stream *)
| bufio_ErrBufferFull    (* bufio.ErrBufferFull, internal to bufio *)
| errEventDataTooBig.    (* "event data too large" *)

(** ** The event record (server.go) *)

Record Event : Type := mkEvent {
  Event_ : gostring;
  Data : option (list byte);
  ID : gostring;
  Retry : Z
}.

Definition zeroEvent : Event := mkEvent [] None [] 0.

Definition is_empty {A} (l : list A) : bool :=
  match l with [] => true | _ => false end.

Definition is_nil {A} (o : option A) : bool :=
  match o with None => true | Some _ => false end.

Definition IsZero (e : Event) : bool :=
  is_empty (Event_ e) && is_nil (Data e) && is_empty (ID e) && (Retry e =? 0)%Z.

(** ** [strconv] and [fmt] for integers *)

Definition IntSize : Z := 64.

Definition digit_byte (d : Z) : byte :=
  match Byte.of_N (Z.to_N (48 + d)) with
  | Some b => b
  | None => x30
  end.

Definition digit_val (b : byte) : option Z :=
  let n := Z.of_N (Byte.to_N b) in
  if ((48 <=? n) && (n <=? 57))%Z then Some (n - 48)%Z else None.

(** The digits of [u], most significant first, pushed in front of [acc];
    [fuel] bounds the number of digits (20 are enough for 64 bits). *)
Fixpoint formatBits (fuel : nat) (u : Z) (acc : list byte) : list byte :=
  match fuel with
  | O => acc
  | S f =>
      let acc' := digit_byte (u mod 10) :: acc in
      if (u / 10 =? 0)%Z then acc' else formatBits f (u / 10) acc'
  end.

(** [fmt.Sprintf("%d", n)] for an [int]. *)
Definition FormatInt (n : Z) : gostring :=
  if (n <? 0)%Z then x2d :: formatBits 20 (- n) [] else formatBits 20 n [].

(** The digit loop of [strconv.ParseUint] in base 10: [None] is a syntax
    error.  The value is not truncated here; the range is checked by
    [ParseInt]. *)
Fixpoint parseDigits (acc : Z) (s : gostring) : option Z :=
  match s with
  | [] => Some acc
  | b :: s' =>
      match digit_val b with
      | Some d => parseDigits (acc * 10 + d) s'
      | None => None
      end
  end.

Definition ParseUint (s : gostring) : option Z :=
  match s with
  | [] => None
  | _ => parseDigits 0 s
  end.

(** [strconv.ParseInt(s, 10, 0)]: [None] stands for any error (syntax or
    range); the caller only tests [err != nil]. *)
Definition ParseInt (s : gostring) : option Z :=
  match s with
  | [] => None
  | b :: s' =>
      let neg := Byte.eqb b x2d in
      let s1 := if Byte.eqb b x2b then s' else if neg then s' else s in
      match ParseUint s1 with
      | None => None
      | Some un =>
          let cutoff := (2 ^ (IntSize - 1))%Z in
          if (negb neg && (cutoff <=? un))%Z then None
          else if (neg && (cutoff <? un))%Z then None
          else Some (if neg then (- un)%Z else un)
      end
  end.

(** ** [bufio.Reader]

    The reader is modelled by what it has not delivered yet: [pending] is
    the rest of the stream (buffered or not), [rd_err] what the underlying
    source reports once [pending] is exhausted, [lastByte] the byte
    [UnreadByte] would restore, and [buf_size] the size of the internal
    buffer, which bounds the slice one [ReadSlice] can return.  What
    [ReadSlice] returns does not depend on how the underlying source cuts
    the stream into reads: it fills until the delimiter is buffered, the
    buffer is full, or the source fails. *)

Record Reader : Type := mkReader {
  buf_size : nat;
  pending : list byte;
  lastByte : option byte;
  rd_err : error
}.

Definition minReadBufferSize : nat := 16.
Definition defaultBufSize : nat := 4096.

Definition NewReaderSize (s : list byte) (e : error) (size : nat) : Reader :=
  mkReader (Nat.max size minReadBufferSize) s None e.

(** [bufio.NewReader] over a finite stream that ends with [io.EOF]. *)
Definition NewReader (s : list byte) : Reader :=
  NewReaderSize s io_EOF defaultBufSize.

Definition set_pending (r : Reader) (s : list byte) (lb : option byte) : Reader :=
  mkReader (buf_size r) s lb (rd_err r).

Arguments set_pending r s lb /.

Definition ReadByte (r : Reader) : byte * option error * Reader :=
  match pending r with
  | [] => (x00, Some (rd_err r), r)
  | c :: s => (c, None, set_pending r s (Some c))
  end.

(** [UnreadByte] puts the last byte read back; its error (nothing to
    unread) is ignored by every caller here. *)
Definition UnreadByte (r : Reader) : Reader :=
  match lastByte r with
  | Some c => set_pending r (c :: pending r) None
  | None => r
  end.

Definition last_of (line : list byte) (old : option byte) : option byte :=
  match line with
  | [] => old
  | _ => Some (last line x00)
  end.

(** [ReadSlice delim]: the bytes up to and including the first [delim]
    when it lies within one buffer; a full buffer with [ErrBufferFull]
    when it does not; everything left with the source's error when the
    stream ends first. *)
Definition ReadSlice (r : Reader) (delim : byte) : list byte * option error * Reader :=
  let window := firstn (buf_size r) (pending r) in
  match IndexByte window delim with
  | Some i =>
      let line := firstn (S i) (pending r) in
      (line, None, set_pending r (skipn (S i) (pending r)) (last_of line (lastByte r)))
  | None =>
      if (buf_size r <=? length window)%nat then
        (window, Some bufio_ErrBufferFull,
         set_pending r (skipn (buf_size r) (pending r)) (last_of window (lastByte r)))
      else
        (window, Some (rd_err r), set_pending r [] (last_of window (lastByte r)))
  end.

(** [ReadLine]: one buffer-full of the current line, without its line end
    (["\n"] or ["\r\n"]); [isPrefix] tells that the line continues. *)
Definition ReadLine (r : Reader) : list byte * bool * option error * Reader :=
  let '(line, err, r1) := ReadSlice r LF in
  match err with
  | Some bufio_ErrBufferFull =>
      match line with
      | _ :: _ =>
          if Byte.eqb (last line x00) CR then
            (* put the '\r' back, so that the next call sees "\r\n" *)
            (removelast line, true, None,
             set_pending r1 (CR :: pending r1) (lastByte r1))
          else (line, true, None, r1)
      | [] => (line, true, None, r1)
      end
  | _ =>
      match line with
      | [] => ([], false, err, r1)
      | _ :: _ =>
          if Byte.eqb (last line x00) LF then
            let l1 := removelast line in
            match l1 with
            | _ :: _ =>
                if Byte.eqb (last l1 x00) CR then (removelast l1, false, None, r1)
                else (l1, false, None, r1)
            | [] => (l1, false, None, r1)
            end
          else (line, false, None, r1)
      end
  end.

(** [ReadString delim]: [ReadSlice] repeated while the buffer fills up,
    the fragments concatenated. *)
Fixpoint collectFragments (fuel : nat) (r : Reader) (delim : byte) (full : list byte)
  : option (list byte * option error * Reader) :=
  match fuel with
  | O => None
  | S f =>
      let '(frag, e, r1) := ReadSlice r delim in
      match e with
      | None => Some (full ++ frag, None, r1)
      | Some bufio_ErrBufferFull => collectFragments f r1 delim (full ++ frag)
      | Some e' => Some (full ++ frag, Some e', r1)
      end
  end.

Definition ReadString (r : Reader) (delim : byte)
  : option (list byte * option error * Reader) :=
  collectFragments (S (length (pending r))) r delim [].

(** ** The decoder: [ClientConn] *)

Definition MaxEventDataSize : Z := 1024 * 1024 * 4.

Record ClientConn : Type := mkClientConn {
  LastEventID : gostring;
  br : Reader
}.

Definition NewClientConn (r : Reader) : ClientConn := mkClientConn [] r.

(** [readFieldName dataLeft r]: the loop over [dataLeft] is the recursion
    on the list; the code after the loop is the [[]] case. *)
Fixpoint readFieldName (dataLeft : gostring) (r : Reader) : bool * option error * Reader :=
  match dataLeft with
  | c :: dataLeft' =>
      let '(b, err, r1) := ReadByte r in
      match err with
      | Some e => (false, Some e, r1)
      | None =>
          if negb (Byte.eqb b c) then (false, None, r1)
          else if Byte.eqb b LF then (false, None, UnreadByte r1)
          else readFieldName dataLeft' r1
      end
  | [] =>
      let '(b, err, r1) := ReadByte r in
      match err with
      | Some e => (false, Some e, r1)
      | None =>
          if negb (Byte.eqb b COLON) then (false, None, UnreadByte r1)
          else
            let '(b2, err2, r2) := ReadByte r1 in
            match err2 with
            | Some e => (false, Some e, r2)
            | None =>
                if negb (Byte.eqb b2 SP) then (true, None, UnreadByte r2)
                else (true, None, r2)
            end
      end
  end.

(** What one pass through the [switch] of [Receive] does next. *)
Inductive flow : Type :=
| Break (c : ClientConn) (event : Event)        (* go on to the line eater *)
| Continue (c : ClientConn) (event : Event)     (* next iteration of the loop *)
| Return (c : ClientConn) (event : Event) (err : option error)
| OutOfFuel.

Definition with_br (c : ClientConn) (r : Reader) : ClientConn :=
  mkClientConn (LastEventID c) r.

Arguments with_br c r /.

Definition set_Event (e : Event) (v : gostring) : Event :=
  mkEvent v (Data e) (ID e) (Retry e).
Definition set_Data (e : Event) (d : option (list byte)) : Event :=
  mkEvent (Event_ e) d (ID e) (Retry e).
Definition set_ID (e : Event) (v : gostring) : Event :=
  mkEvent (Event_ e) (Data e) v (Retry e).
Definition set_Retry (e : Event) (n : Z) : Event :=
  mkEvent (Event_ e) (Data e) (ID e) n.

(** The inner loop of the [data] case: [ReadLine] until the line is
    complete, appending each piece and checking the size. *)
Fixpoint readData (fuel : nat) (r : Reader) (data : option (list byte))
  : option (option (list byte) * option error * Reader) :=
  match fuel with
  | O => None
  | S f =>
      let '(piece, isPrefix, err, r1) := ReadLine r in
      match err with
      | Some e => Some (data, Some e, r1)
      | None =>
          let data1 := append data piece in
          if (MaxEventDataSize <=? slen data1 + len piece)%Z
          then Some (data1, Some errEventDataTooBig, r1)
          else if isPrefix then readData f r1 data1
          else Some (data1, None, r1)
      end
  end.

(** The line eater at the bottom of the loop of [Receive]. *)
Fixpoint eatLine (fuel : nat) (r : Reader) : option (option error * Reader) :=
  match fuel with
  | O => None
  | S f =>
      let '(_, isPrefix, err, r1) := ReadLine r in
      match err with
      | Some e => Some (Some e, r1)
      | None => if isPrefix then eatLine f r1 else Some (None, r1)
      end
  end.

Definition loop_fuel (r : Reader) : nat := S (length (pending r)).

(** A field whose value is the rest of the line as a string: the code
    shared (by repetition) by the [event], [id] and [retry] cases. *)
Definition readValue (c : ClientConn) (event : Event) (name : gostring)
    (k : ClientConn -> Event -> gostring -> flow) : flow :=
  let '(ok, err, r1) := readFieldName name (br c) in
  match err with
  | Some e => Return (with_br c r1) event (Some e)
  | None =>
      if negb ok then Break (with_br c r1) event
      else
        match ReadString r1 LF with
        | None => OutOfFuel
        | Some (s, err2, r2) =>
            match err2 with
            | Some e => Return (with_br c r2) event (Some e)
            | None => k (with_br c (UnreadByte r2)) event (TrimSuffixLF s)
            end
        end
  end.

(** The [switch b] of [Receive], after [b] has been read. *)
Definition dispatch (b : byte) (c : ClientConn) (event : Event) : flow :=
  if Byte.eqb b LF then
    if (slen (Data event) =? 0)%Z then Continue c event
    else
      match Data event with
      | Some d =>
          if Byte.eqb (last d x00) LF
          then Return c (set_Data event (Some (removelast d))) None
          else Return c event None
      | None => Return c event None
      end
  else if Byte.eqb b x65 (* 'e' *) then
    readValue c event (bytes "vent")
      (fun c1 ev v => Break c1 (set_Event ev v))
  else if Byte.eqb b x64 (* 'd' *) then
    let '(ok, err, r1) := readFieldName (bytes "ata") (br c) in
    match err with
    | Some e => Return (with_br c r1) event (Some e)
    | None =>
        if negb ok then Break (with_br c r1) event
        else
          match readData (loop_fuel r1) r1 (Data event) with
          | None => OutOfFuel
          | Some (data, Some e, r2) => Return (with_br c r2) (set_Data event data) (Some e)
          | Some (data, None, r2) =>
              Break (with_br c (UnreadByte r2)) (set_Data event (append data [LF]))
          end
    end
  else if Byte.eqb b x69 (* 'i' *) then
    readValue c event (bytes "d")
      (fun c1 ev id => Break (mkClientConn id (br c1)) (set_ID ev id))
  else if Byte.eqb b x72 (* 'r' *) then
    readValue c event (bytes "etry")
      (fun c1 ev retryStr =>
         match ParseInt retryStr with
         | None => Break c1 ev
         | Some retry64 => Break c1 (set_Retry ev retry64)
         end)
  else if Byte.eqb b xef then
    let '(b1, err, r1) := ReadByte (br c) in
    match err with
    | Some e => Return (with_br c r1) event (Some e)
    | None =>
        if negb (Byte.eqb b1 xbb) then Break (with_br c r1) event
        else
          let '(b2, err2, r2) := ReadByte r1 in
          match err2 with
          | Some e => Return (with_br c r2) event (Some e)
          | None =>
              if negb (Byte.eqb b2 xbf) then Break (with_br c r2) event
              else Continue (with_br c r2) event
          end
    end
  else (* ':' and default: ignore this line *)
    Break c event.

(** One iteration of the [for] loop of [Receive]. *)
Definition iteration (c : ClientConn) (event : Event) : flow :=
  let '(b, err, r1) := ReadByte (br c) in
  match err with
  | Some e => Return (with_br c r1) event (Some e)
  | None =>
      match dispatch b (with_br c r1) event with
      | Break c1 event1 =>
          match eatLine (loop_fuel (br c1)) (br c1) with
          | None => OutOfFuel
          | Some (Some e, r2) => Return (with_br c1 r2) event1 (Some e)
          | Some (None, r2) => Continue (with_br c1 r2) event1
          end
      | other => other
      end
  end.

Fixpoint Receive_loop (fuel : nat) (c : ClientConn) (event : Event)
  : option (Event * option error * ClientConn) :=
  match fuel with
  | O => None
  | S f =>
      match iteration c event with
      | Continue c1 event1 => Receive_loop f c1 event1
      | Return c1 event1 err => Some (event1, err, c1)
      | Break _ _ | OutOfFuel => None
      end
  end.

(** [Receive buf]: the event and error returned, and the connection
    afterwards.  Every iteration reads at least one byte, so as many
    iterations as there are pending bytes, plus one, are enough. *)
Definition Receive (c : ClientConn) (buf : option (list byte))
  : option (Event * option error * ClientConn) :=
  let event := match buf with
               | Some _ => set_Data zeroEvent (Some [])
               | None => zeroEvent
               end in
  Receive_loop (loop_fuel (br c)) c event.

(** ** The encoder: [ServerConn] *)

(** The [http.ResponseWriter] under a [ServerConn]: the bytes written so
    far, whether [Flush] has been called, whether the writer is an
    [http.Flusher], and how many more writes succeed ([None]: all of them,
    as with a recorder). *)
Record ResponseWriter : Type := mkWriter {
  Body : list byte;
  Flushed : bool;
  isFlusher : bool;
  writesLeft : option nat
}.

Definition NewRecorder : ResponseWriter := mkWriter [] false true None.

Record ServerConn : Type := mkServerConn { w : ResponseWriter }.

(** [fmt.Fprintf s.w ...] once the text is formatted: one [Write]. *)
Definition Fprintf (s : ServerConn) (text : list byte) : ServerConn * option error :=
  let w0 := w s in
  match writesLeft w0 with
  | None =>
      (mkServerConn (mkWriter (Body w0 ++ text) (Flushed w0) (isFlusher w0) None), None)
  | Some O => (s, Some io_Failure)
  | Some (S n) =>
      (mkServerConn (mkWriter (Body w0 ++ text) (Flushed w0) (isFlusher w0) (Some n)), None)
  end.

Definition flush (s : ServerConn) : ServerConn :=
  let w0 := w s in
  if isFlusher w0
  then mkServerConn (mkWriter (Body w0) true (isFlusher w0) (writesLeft w0))
  else s.

(** The loop [for len(data) > 0] of [Send]. *)
Fixpoint sendLines (fuel : nat) (s : ServerConn) (data : list byte)
  : option (ServerConn * option error) :=
  match data with
  | [] => Some (s, None)
  | _ :: _ =>
      match fuel with
      | O => None
      | S f =>
          let '(thisLine, data1) :=
            match IndexByte data LF with
            | None => (data, [])
            | Some nextNewline => (firstn nextNewline data, skipn (S nextNewline) data)
            end in
          let '(s1, err) := Fprintf s (bytes "data: " ++ thisLine ++ [LF]) in
          match err with
          | Some e => Some (s1, Some e)
          | None => sendLines f s1 data1
          end
      end
  end.

(** [Send e], before the deferred [flush]. *)
Definition Send_body (s : ServerConn) (e : Event) : option (ServerConn * option error) :=
  if IsZero e then Some (Fprintf s (COLON :: [LF; LF]))
  else
    let '(s1, err1) :=
      if negb (is_empty (Event_ e))
      then Fprintf s (bytes "event: " ++ Event_ e ++ [LF]) else (s, None) in
    match err1 with
    | Some x => Some (s1, Some x)
    | None =>
    let '(s2, err2) :=
      if negb (is_empty (ID e))
      then Fprintf s1 (bytes "id: " ++ ID e ++ [LF]) else (s1, None) in
    match err2 with
    | Some x => Some (s2, Some x)
    | None =>
    let '(s3, err3) :=
      if negb (Retry e =? 0)%Z
      then Fprintf s2 (bytes "retry: " ++ FormatInt (Retry e) ++ [LF]) else (s2, None) in
    match err3 with
    | Some x => Some (s3, Some x)
    | None =>
    let data := match Data e with Some d => d | None => [] end in
    let endsInNewline :=
      negb (is_empty data) && Byte.eqb (last data x00) LF in
    let data := if endsInNewline then removelast data else data in
    match sendLines (length data) s3 data with
    | None => None
    | Some (s4, Some x) => Some (s4, Some x)
    | Some (s4, None) =>
        let '(s5, err5) :=
          if endsInNewline then Fprintf s4 (bytes "data:" ++ [LF]) else (s4, None) in
        match err5 with
        | Some x => Some (s5, Some x)
        | None => Some (Fprintf s5 [LF])
        end
    end end end end.

Definition Send (s : ServerConn) (e : Event) : option (ServerConn * option error) :=
  match Send_body s e with
  | None => None
  | Some (s1, err) => Some (flush s1, err)
  end.

(** What [Send] writes to a fresh recorder. *)
Definition encode (e : Event) : option (list byte) :=
  match Send (mkServerConn NewRecorder) e with
  | Some (s, None) => Some (Body (w s))
  | _ => None
  end.

(** What the first [Receive] on a fresh connection over [s] returns. *)
Definition decode (s : list byte) : option (Event * option error * ClientConn) :=
  Receive (NewClientConn (NewReader s)) None.

Definition dataEvent (d : String.string) : Event := mkEvent [] (Some (bytes d)) [] 0.

(** ** Auxiliary definitions for the statements *)

(** A line as [ReadLine] returns it: without the carriage return that
    stands right before the line feed. *)
Definition dropCR (v : list byte) : list byte :=
  match v with
  | [] => []
  | _ :: _ => if Byte.eqb (last v x00) CR then removelast v else v
  end.

(** The receiving loop of the documentation of [Receive] and of the
    end-to-end test: call [Receive], reusing the buffer, until it fails;
    the events received, the error that ended the loop and the connection
    afterwards. *)
Fixpoint receiveAll (fuel : nat) (c : ClientConn) (buf : option (list byte))
  : option (list Event * error * ClientConn) :=
  match fuel with
  | O => None
  | S f =>
      match Receive c buf with
      | None => None
      | Some (_, Some err, c1) => Some ([], err, c1)
      | Some (event, None, c1) =>
          match receiveAll f c1 (Data event) with
          | None => None
          | Some (events, err, c2) => Some (event :: events, err, c2)
          end
      end
  end.

(** All the events of a finite stream read through a reader of the given
    buffer size. *)
Definition decodeAll (size : nat) (s : list byte) : option (list Event * error) :=
  match receiveAll (S (length s)) (NewClientConn (NewReaderSize s io_EOF size)) None with
  | None => None
  | Some (events, err, _) => Some (events, err)
  end.

(** The sending loop of the server tests: [Send] each event in turn. *)
Fixpoint sendAll (s : ServerConn) (events : list Event) : option (ServerConn * option error) :=
  match events with
  | [] => Some (s, None)
  | ev :: events' =>
      match Send s ev with
      | None => None
      | Some (s1, Some err) => Some (s1, Some err)
      | Some (s1, None) => sendAll s1 events'
      end
  end.

(** What [sendAll] writes to a fresh recorder. *)
Definition encodeAll (events : list Event) : option (list byte) :=
  match sendAll (mkServerConn NewRecorder) events with
  | Some (s, None) => Some (Body (w s))
  | _ => None
  end.

(** The value of a field line: what follows the colon, less one optional
    space. *)
Definition fieldValue (s : list byte) : list byte :=
  match s with
  | b :: s' => if Byte.eqb b SP then s' else s
  | [] => []
  end.

Definition BOM : list byte := [xef; xbb; xbf].

Definition keepalive : list byte := COLON :: [LF; LF].

(** Whether the iteration that starts in [c] reads a blank line: the
    first case of the [switch]. *)
Definition atBlankLine (c : ClientConn) : bool :=
  let '(b, err, _) := ReadByte (br c) in
  is_nil err && Byte.eqb b LF.

(** Whether the iteration that starts in [c] accumulates a data line: it
    takes the ['d'] case, the field name matches and the line is read to
    its end without error. *)
Definition accumulatesData (c : ClientConn) (event : Event) : bool :=
  let '(b, err, r1) := ReadByte (br c) in
  is_nil err && Byte.eqb b x64 &&
  let '(ok, err1, r2) := readFieldName (bytes "ata") r1 in
  is_nil err1 && ok &&
  match readData (loop_fuel r2) r2 (Data event) with
  | Some (_, None, _) => true
  | _ => false
  end.

(** The states at the top of the loop of one call [Receive buf] on the
    connection [c0], each with the number of data lines accumulated
    since the last blank line, that is, in the current field group. *)
Inductive atLoopTop (c0 : ClientConn) (buf : option (list byte))
  : ClientConn -> Event -> nat -> Prop :=
| top_first :
    atLoopTop c0 buf c0
      (match buf with Some _ => set_Data zeroEvent (Some []) | None => zeroEvent end) 0
| top_next (c : ClientConn) (event : Event) (k : nat) (c1 : ClientConn) (event1 : Event) :
    atLoopTop c0 buf c event k ->
    iteration c event = Continue c1 event1 ->
    atLoopTop c0 buf c1 event1
      (if atBlankLine c then 0
       else if accumulatesData c event then S k else k).

(** The connection once the byte at hand has been read by [ReadByte]:
    where the loop stands after the first read of an iteration. *)
Definition afterByte (c : ClientConn) : ClientConn :=
  let '(_, _, r1) := ReadByte (br c) in with_br c r1.

(** The bytes the loop [sendLines] writes for [data]. *)
Fixpoint dataLines (fuel : nat) (data : list byte) : list byte :=
  match data with
  | [] => []
  | _ :: _ =>
      match fuel with
      | O => []
      | S f =>
          match IndexByte data LF with
          | None => bytes "data: " ++ data ++ [LF]
          | Some i =>
              (bytes "data: " ++ firstn i data ++ [LF]) ++ dataLines f (skipn (S i) data)
          end
      end
  end.

(** Whether [Send] finds that the payload ends in a newline, and the
    payload it then cuts into lines. *)
Definition endsInLF (d : list byte) : bool :=
  negb (is_empty d) && Byte.eqb (last d x00) LF.

Definition stripLF (d : list byte) : list byte :=
  if endsInLF d then removelast d else d.

(** The message [Send] writes for a record that is not the zero record. *)
Definition wire (e : Event) : list byte :=
  (if is_empty (Event_ e) then [] else bytes "event: " ++ Event_ e ++ [LF])
  ++ (if is_empty (ID e) then [] else bytes "id: " ++ ID e ++ [LF])
  ++ (if (Retry e =? 0)%Z then [] else bytes "retry: " ++ FormatInt (Retry e) ++ [LF])
  ++ (let d := match Data e with Some d => d | None => [] end in
      dataLines (length (stripLF d)) (stripLF d)
      ++ (if endsInLF d then bytes "data:" ++ [LF] else []))
  ++ [LF].

(** Every carriage return of [d] is followed by a byte that is not a
    line feed (so none is the last byte). *)
Fixpoint crOK (d : list byte) : bool :=
  match d with
  | [] => true
  | c :: d' =>
      (negb (Byte.eqb c CR)
       || match d' with
          | b :: _ => negb (Byte.eqb b LF)
          | [] => false
          end)
      && crOK d'
  end.

(** The records the decoder gives back as they were sent, through a
    reader with a buffer of [size] bytes: the event type and the id hold
    no line feed; the retry value fits an [int]; the payload is present,
    is not empty, is not a lone line feed and does not end in two line
    feeds, holds no carriage return right before a line feed or at its
    end, and passes the size check. *)
Definition roundTrippable (size : nat) (e : Event) : Prop :=
  ~ In LF (Event_ e) /\ ~ In LF (ID e)
  /\ (- 2 ^ 63 <= Retry e < 2 ^ 63)%Z
  /\ exists d,
       Data e = Some d
       /\ stripLF d <> [] /\ last (stripLF d) x00 <> LF
       /\ crOK d = true
       /\ (len d + Z.of_nat (Nat.min size (length d)) < MaxEventDataSize)%Z.

(** [m] iterations of the loop of [Receive] lead from one state at the
    top of the loop to another. *)
Inductive runs : nat -> ClientConn -> Event -> ClientConn -> Event -> Prop :=
| runs_O (c : ClientConn) (ev : Event) : runs 0 c ev c ev
| runs_S (m : nat) (c c1 c2 : ClientConn) (ev ev1 ev2 : Event) :
    iteration c ev = Continue c1 ev1 ->
    runs m c1 ev1 c2 ev2 ->
    runs (S m) c ev c2 ev2.

(** [Send] then the receiving loop give back exactly the record sent. *)
Definition roundTrips (size : nat) (ev : Event) : Prop :=
  exists b, encode ev = Some b /\ decodeAll size b = Some ([ev], io_EOF).

(** The event of the end-to-end test. *)
Definition weirdEvent : Event :=
  mkEvent (bytes " also leading space")
    (Some (bytes "  leading spaces" ++ [LF] ++ bytes "multiline" ++ [LF]
           ++ bytes "and ends with a newline" ++ [LF]))
    (bytes " 4") 1000.

(** What a reader can still deliver, counting the byte [UnreadByte]
    would put back: no operation of the reader makes it grow. *)
Definition potential (r : Reader) : nat :=
  length (pending r) + match lastByte r with Some _ => 1 | None => 0 end.

(** [r1] is a later state of the reader [r]. *)
Definition later (r1 r : Reader) : Prop :=
  buf_size r1 = buf_size r /\ rd_err r1 = rd_err r
  /\ (potential r1 <= potential r)%nat.

(** A reader as [bufio] builds it, over a source whose failure is not
    [bufio]'s own [ErrBufferFull]. *)
Definition sound (r : Reader) : Prop :=
  (2 <= buf_size r)%nat /\ rd_err r <> bufio_ErrBufferFull.

(** What a pass through the [switch] leaves of the reader [r] it started
    with: a later state, with a byte to unread when the loop goes on
    without the line eater; never a lack of fuel. *)
Definition flow_later (r : Reader) (x : flow) : Prop :=
  match x with
  | Break c _ => later (br c) r
  | Continue c _ => later (br c) r /\ lastByte (br c) <> None
  | Return _ _ _ => True
  | OutOfFuel => False
  end.

(** ** Definitions for further properties *)

(** The message [Send] writes for any record. *)
Definition message (ev : Event) : list byte :=
  if IsZero ev then keepalive else wire ev.

(** The records [Send] and [Receive] carry faithfully through a reader
    of the given buffer size: the zero record, as a keepalive, and the
    records that come back as they were sent. *)
Definition sendable (size : nat) (ev : Event) : Prop :=
  IsZero ev = true \/ roundTrippable size ev.

(** Whether the line [t] ends inside the field name [name]: [t] is
    shorter than [name] and agrees with it as far as it goes. *)
Fixpoint cutShort (name t : list byte) : bool :=
  match name, t with
  | [], _ => false
  | _ :: _, [] => true
  | c :: name', b :: t' => Byte.eqb b c && cutShort name' t'
  end.

(** Whether [t] starts with [p]. *)
Fixpoint hasPrefix (p t : list byte) : bool :=
  match p, t with
  | [], _ => true
  | _ :: _, [] => false
  | c :: p', b :: t' => Byte.eqb b c && hasPrefix p' t'
  end.

(** The four fields: the byte the [switch] of [Receive] tests and the
    rest of the name it hands to [readFieldName]. *)
Definition fieldNames : list (byte * gostring) :=
  [(x65, bytes "vent"); (x64, bytes "ata"); (x69, bytes "d"); (x72, bytes "etry")].

(** What one pass through the loop of [Receive] may do to the event in
    progress [ev] and to the connection [c]: when the loop goes on, the
    last event id and the id of the event are either both as before or
    both the value of an [id] line, and the data is either as before or
    has taken one more line, below the size limit; when the call
    returns, the same holds of the ids, a record is returned only from
    data that is not empty, less its last line feed, and the error, if
    any, is that of the source or the size error. *)
Definition shape (c : ClientConn) (ev : Event) (x : flow) : Prop :=
  match x with
  | Break c1 ev1 | Continue c1 ev1 =>
      ((LastEventID c1 = LastEventID c /\ ID ev1 = ID ev) \/ LastEventID c1 = ID ev1)
      /\ (Data ev1 = Data ev
          \/ exists x, Data ev1 = Some (x ++ [LF]) /\ (len x < MaxEventDataSize)%Z)
  | Return c1 ev1 err =>
      ((LastEventID c1 = LastEventID c /\ ID ev1 = ID ev) \/ LastEventID c1 = ID ev1)
      /\ match err with
         | None =>
             slen (Data ev) <> 0%Z
             /\ forall x, Data ev = Some (x ++ [LF]) -> Data ev1 = Some x
         | Some e => e = rd_err (br c) \/ e = errEventDataTooBig
         end
  | OutOfFuel => True
  end.

(** What holds of the event in progress and of the connection at the
    top of the loop of a call of [Receive] that started on [c0]. *)
Definition loopInvariant (c0 c : ClientConn) (ev : Event) : Prop :=
  sound (br c) /\ rd_err (br c) = rd_err (br c0)
  /\ ((LastEventID c = LastEventID c0 /\ ID ev = []) \/ LastEventID c = ID ev)
  /\ (slen (Data ev) = 0%Z
      \/ exists x, Data ev = Some (x ++ [LF]) /\ (len x < MaxEventDataSize)%Z).

(** Writes done in turn, each one a [Fprintf], up to the first that
    fails. *)
Fixpoint writeAll (s : ServerConn) (texts : list (list byte)) : ServerConn * option error :=
  match texts with
  | [] => (s, None)
  | t :: texts' =>
      let '(s1, err) := Fprintf s t in
      match err with
      | Some e => (s1, Some e)
      | None => writeAll s1 texts'
      end
  end.

(** The lines the loop [sendLines] writes for [data], one per write. *)
Fixpoint lineWrites (fuel : nat) (data : list byte) : list (list byte) :=
  match data with
  | [] => []
  | _ :: _ =>
      match fuel with
      | O => []
      | S f =>
          match IndexByte data LF with
          | None => [bytes "data: " ++ data ++ [LF]]
          | Some i =>
              (bytes "data: " ++ firstn i data ++ [LF]) :: lineWrites f (skipn (S i) data)
          end
      end
  end.

(** The writes of [Send] for a record, in order: one per line. *)
Definition writes (ev : Event) : list (list byte) :=
  if IsZero ev then [keepalive]
  else
    (if is_empty (Event_ ev) then [] else [bytes "event: " ++ Event_ ev ++ [LF]])
    ++ (if is_empty (ID ev) then [] else [bytes "id: " ++ ID ev ++ [LF]])
    ++ (if (Retry ev =? 0)%Z then [] else [bytes "retry: " ++ FormatInt (Retry ev) ++ [LF]])
    ++ (let d := match Data ev with Some d => d | None => [] end in
        lineWrites (length (stripLF d)) (stripLF d)
        ++ (if endsInLF d then [bytes "data:" ++ [LF]] else []))
    ++ [[LF]].

(** How many of [k] writes a writer lets through. *)
Definition allowed (budget : option nat) (k : nat) : nat :=
  match budget with
  | None => k
  | Some m => Nat.min m k
  end.

(** Two events that differ at most in that the data of the first is
    absent where the data of the second is present and empty: what a
    call without a buffer and a call with one hold at the same point. *)
Definition sameButNil (ev1 ev2 : Event) : Prop :=
  Event_ ev1 = Event_ ev2 /\ ID ev1 = ID ev2 /\ Retry ev1 = Retry ev2
  /\ (Data ev1 = Data ev2 \/ (Data ev1 = None /\ Data ev2 = Some [])).

Definition sameDataButNil (d1 d2 : option (list byte)) : Prop :=
  d1 = d2 \/ (d1 = None /\ d2 = Some []).

(** Two passes through the loop that do the same to the connection and
    to events that are the same but for an absent or empty data. *)
Definition sameFlow (x y : flow) : Prop :=
  match x, y with
  | Break c1 ev1, Break c2 ev2 => c1 = c2 /\ sameButNil ev1 ev2
  | Continue c1 ev1, Continue c2 ev2 => c1 = c2 /\ sameButNil ev1 ev2
  | Return c1 ev1 err1, Return c2 ev2 err2 =>
      c1 = c2 /\ err1 = err2 /\ sameButNil ev1 ev2 /\ (err1 = None -> ev1 = ev2)
  | OutOfFuel, OutOfFuel => True
  | _, _ => False
  end.

(** [Event.Eq] of the client tests: the data compared with
    [bytes.Equal], for which an absent and an empty slice are equal. *)
Definition bytesEqual (a b : option (list byte)) : bool :=
  let content (x : option (list byte)) := match x with Some d => d | None => [] end in
  if list_eq_dec Byte.byte_eq_dec (content a) (content b) then true else false.

Definition Eq (e1 e2 : Event) : bool :=
  (if list_eq_dec Byte.byte_eq_dec (Event_ e1) (Event_ e2) then true else false)
  && bytesEqual (Data e1) (Data e2)
  && (if list_eq_dec Byte.byte_eq_dec (ID e1) (ID e2) then true else false)
  && (Retry e1 =? Retry e2)%Z.

(** [testClientConnConsumption]: the events of the stream are the wanted
    ones, up to [Eq], and the stream ends with [io.EOF]. *)
Fixpoint allEq (got want : list Event) : bool :=
  match got, want with
  | [], [] => true
  | g :: got', w0 :: want' => Eq g w0 && allEq got' want'
  | _, _ => false
  end.

Definition testClientConnConsumption (buf : list byte) (want : list Event) : bool :=
  match decodeAll defaultBufSize buf with
  | Some (got, io_EOF) => allEq got want
  | _ => false
  end.

(** * Properties *)

(** ** Bytes and lists *)

Lemma eqb_same (b : byte) : Byte.eqb b b = true.
Proof. apply Byte.byte_dec_lb. reflexivity. Qed.

Lemma eqb_diff (b c : byte) : b <> c -> Byte.eqb b c = false.
Proof.
  intros H. destruct (Byte.eqb b c) eqn:E; [|reflexivity].
  apply Byte.byte_dec_bl in E. contradiction.
Qed.

Lemma eqb_true (b c : byte) : Byte.eqb b c = true -> b = c.
Proof. apply Byte.byte_dec_bl. Qed.

Lemma eqb_false (b c : byte) : Byte.eqb b c = false -> b <> c.
Proof. intros E H. subst. rewrite eqb_same in E. discriminate. Qed.

Lemma IndexByte_absent (s : list byte) (c : byte) :
  ~ In c s -> IndexByte s c = None.
Proof.
  induction s as [|b s IH]; simpl; intros H; [reflexivity|].
  rewrite eqb_diff by (intros ->; apply H; now left).
  rewrite IH by (intros Hin; apply H; now right). reflexivity.
Qed.

Lemma IndexByte_first (v rest : list byte) (c : byte) :
  ~ In c v -> IndexByte (v ++ c :: rest) c = Some (length v).
Proof.
  induction v as [|b v IH]; simpl; intros H.
  - now rewrite eqb_same.
  - rewrite eqb_diff by (intros ->; apply H; now left).
    rewrite IH by (intros Hin; apply H; now right). reflexivity.
Qed.

Lemma IndexByte_None_absent (s : list byte) (c : byte) :
  IndexByte s c = None -> ~ In c s.
Proof.
  induction s as [|b s IH]; simpl; intros H; [tauto|].
  destruct (Byte.eqb b c) eqn:E; [discriminate|].
  destruct (IndexByte s c); [discriminate|].
  intros [->|Hin]; [now rewrite eqb_same in E | now apply IH].
Qed.

Lemma IndexByte_Some_split (s : list byte) (c : byte) (i : nat) :
  IndexByte s c = Some i ->
  s = firstn i s ++ c :: skipn (S i) s /\ ~ In c (firstn i s) /\ length (firstn i s) = i.
Proof.
  revert i. induction s as [|b s IH]; simpl; intros i H; [discriminate|].
  destruct (Byte.eqb b c) eqn:E.
  - injection H as <-. apply eqb_true in E. subst. simpl. tauto.
  - destruct (IndexByte s c) as [j|] eqn:Ej; [|discriminate].
    injection H as <-. destruct (IH j eq_refl) as (H1 & H2 & H3).
    simpl. repeat split.
    + f_equal. exact H1.
    + intros [->|Hin]; [now rewrite eqb_same in E | contradiction].
    + now rewrite H3.
Qed.

Lemma firstn_app_short {A} (n : nat) (v t : list A) :
  (n <= length v)%nat -> firstn n (v ++ t) = firstn n v.
Proof.
  intros H. rewrite firstn_app.
  replace (n - length v)%nat with O by lia. simpl. apply app_nil_r.
Qed.

Lemma skipn_app_short {A} (n : nat) (v t : list A) :
  (n <= length v)%nat -> skipn n (v ++ t) = skipn n v ++ t.
Proof.
  intros H. rewrite skipn_app.
  replace (n - length v)%nat with O by lia. reflexivity.
Qed.

Lemma firstn_past {A} (v : list A) (c : A) (rest : list A) :
  firstn (S (length v)) (v ++ c :: rest) = v ++ [c].
Proof.
  induction v as [|a v IH]; [reflexivity|].
  change (a :: firstn (S (length v)) (v ++ c :: rest) = a :: (v ++ [c])).
  now f_equal.
Qed.

Lemma skipn_past {A} (v : list A) (c : A) (rest : list A) :
  skipn (S (length v)) (v ++ c :: rest) = rest.
Proof. induction v as [|a v IH]; simpl; [reflexivity | exact IH]. Qed.

Lemma last_snoc {A} (v : list A) (c d : A) : last (v ++ [c]) d = c.
Proof. apply last_last. Qed.

Lemma removelast_snoc {A} (v : list A) (c : A) : removelast (v ++ [c]) = v.
Proof. apply removelast_last. Qed.

Lemma not_in_firstn {A} (c : A) (n : nat) (v : list A) :
  ~ In c v -> ~ In c (firstn n v).
Proof.
  intros H Hin. apply H. rewrite <- (firstn_skipn n v). apply in_or_app. now left.
Qed.

Lemma not_in_skipn {A} (c : A) (n : nat) (v : list A) :
  ~ In c v -> ~ In c (skipn n v).
Proof.
  intros H Hin. apply H. rewrite <- (firstn_skipn n v). apply in_or_app. now right.
Qed.

Lemma TrimSuffixLF_snoc (v : gostring) : TrimSuffixLF (v ++ [LF]) = v.
Proof.
  induction v as [|b v IH]; [reflexivity|].
  change ((b :: v) ++ [LF]) with (b :: (v ++ [LF])).
  simpl. destruct (v ++ [LF]) eqn:E.
  - destruct v; discriminate.
  - now rewrite IH.
Qed.

Lemma append_assoc (d : option (list byte)) (p q : list byte) :
  append (append d p) q = append d (p ++ q).
Proof. destruct d, p, q; simpl; rewrite <- ?app_assoc, ?app_nil_r; reflexivity. Qed.

Lemma slen_append (d : option (list byte)) (p : list byte) :
  slen (append d p) = (slen d + len p)%Z.
Proof.
  unfold slen, len. destruct d, p; cbn [append]; rewrite ?length_app; cbn [length]; lia.
Qed.

(** ** The reader *)

Lemma firstn_over {A} (n : nat) (v t : list A) :
  (length v <= n)%nat -> firstn n (v ++ t) = v ++ firstn (n - length v) t.
Proof. intros H. rewrite firstn_app, firstn_all2 by exact H. reflexivity. Qed.

Lemma last_of_snoc (v : list byte) (c : byte) (lb : option byte) :
  last_of (v ++ [c]) lb = Some c.
Proof.
  unfold last_of. rewrite last_snoc. destruct v; reflexivity.
Qed.

Lemma ReadSlice_line (n : nat) (v rest : list byte) (lb : option byte) (e : error) :
  ~ In LF v -> (length v < n)%nat ->
  ReadSlice (mkReader n (v ++ LF :: rest) lb e) LF
  = (v ++ [LF], None, mkReader n rest (Some LF) e).
Proof.
  intros Hv Hn. unfold ReadSlice, set_pending. cbn [buf_size pending lastByte rd_err].
  rewrite firstn_over by lia.
  destruct (n - length v)%nat as [|k] eqn:Ek; [lia|].
  change (firstn (S k) (LF :: rest)) with (LF :: firstn k rest).
  rewrite IndexByte_first by exact Hv. cbv beta match zeta.
  rewrite firstn_past, skipn_past, last_of_snoc. reflexivity.
Qed.

Lemma ReadSlice_full (n : nat) (v t : list byte) (lb : option byte) (e : error) :
  ~ In LF v -> (0 < n <= length v)%nat ->
  ReadSlice (mkReader n (v ++ t) lb e) LF
  = (firstn n v, Some bufio_ErrBufferFull,
     mkReader n (skipn n v ++ t) (Some (last (firstn n v) x00)) e).
Proof.
  intros Hv Hn. unfold ReadSlice, set_pending. cbn [buf_size pending lastByte rd_err].
  rewrite firstn_app_short by lia.
  rewrite IndexByte_absent by (now apply not_in_firstn).
  rewrite length_firstn, Nat.min_l by lia. rewrite Nat.leb_refl.
  rewrite skipn_app_short by lia.
  unfold last_of. destruct (firstn n v) eqn:E; [|reflexivity].
  apply (f_equal (@length byte)) in E. rewrite length_firstn in E. simpl in E. lia.
Qed.

Lemma ReadSlice_end (n : nat) (v : list byte) (lb : option byte) (e : error) :
  ~ In LF v -> (length v < n)%nat ->
  ReadSlice (mkReader n v lb e) LF = (v, Some e, mkReader n [] (last_of v lb) e).
Proof.
  intros Hv Hn. unfold ReadSlice, set_pending. cbn [buf_size pending lastByte rd_err].
  rewrite firstn_all2 by lia. rewrite IndexByte_absent by exact Hv.
  destruct (n <=? length v)%nat eqn:E; [apply Nat.leb_le in E; lia | reflexivity].
Qed.

Lemma ReadLine_line (n : nat) (v rest : list byte) (lb : option byte) (e : error) :
  ~ In LF v -> (length v < n)%nat ->
  ReadLine (mkReader n (v ++ LF :: rest) lb e)
  = (dropCR v, false, None, mkReader n rest (Some LF) e).
Proof.
  intros Hv Hn. unfold ReadLine. rewrite ReadSlice_line by assumption.
  destruct (v ++ [LF]) eqn:E; [destruct v; discriminate|]. rewrite <- E.
  rewrite last_snoc, removelast_snoc. change (Byte.eqb LF LF) with true. cbv iota.
  unfold dropCR. destruct v; [reflexivity|].
  destruct (Byte.eqb (last (b0 :: v) x00) CR); reflexivity.
Qed.

Lemma ReadLine_full (n : nat) (v t : list byte) (lb : option byte) (e : error) :
  ~ In LF v -> (0 < n <= length v)%nat ->
  ReadLine (mkReader n (v ++ t) lb e)
  = if Byte.eqb (last (firstn n v) x00) CR
    then (removelast (firstn n v), true, None,
          mkReader n (CR :: skipn n v ++ t) (Some CR) e)
    else (firstn n v, true, None,
          mkReader n (skipn n v ++ t) (Some (last (firstn n v) x00)) e).
Proof.
  intros Hv Hn. unfold ReadLine. rewrite ReadSlice_full by assumption.
  destruct (firstn n v) eqn:E.
  - apply (f_equal (@length byte)) in E. rewrite length_firstn in E. simpl in E. lia.
  - rewrite <- E. destruct (Byte.eqb (last (firstn n v) x00) CR) eqn:EC; [|reflexivity].
    apply eqb_true in EC. unfold set_pending. cbn [buf_size pending lastByte rd_err].
    now rewrite EC.
Qed.

(** A full buffer that ends in ['\r'] is the line up to there: the ['\r']
    goes back in front of the rest. *)
Lemma straddle_split (n : nat) (v : list byte) :
  (0 < n <= length v)%nat -> last (firstn n v) x00 = CR ->
  v = removelast (firstn n v) ++ CR :: skipn n v
  /\ S (length (removelast (firstn n v))) = n.
Proof.
  intros Hn HC.
  assert (Hne : firstn n v <> []).
  { intros E. apply (f_equal (@length byte)) in E.
    rewrite length_firstn in E. simpl in E. lia. }
  pose proof (app_removelast_last x00 Hne) as H. rewrite HC in H.
  split.
  - rewrite <- (firstn_skipn n v) at 1. rewrite H at 1.
    rewrite <- app_assoc. reflexivity.
  - apply (f_equal (@length byte)) in H. rewrite length_app, length_firstn in H.
    simpl in H. lia.
Qed.

Lemma collectFragments_line (n : nat) (e : error) :
  (0 < n)%nat ->
  forall (fuel : nat) (v rest full : list byte) (lb : option byte),
    ~ In LF v -> (length v < fuel)%nat ->
    collectFragments fuel (mkReader n (v ++ LF :: rest) lb e) LF full
    = Some (full ++ v ++ [LF], None, mkReader n rest (Some LF) e).
Proof.
  intros Hn. induction fuel as [|fuel IH]; intros v rest full lb Hv Hf; [lia|].
  cbn [collectFragments].
  destruct (Nat.lt_ge_cases (length v) n) as [Hs|Hl].
  - rewrite ReadSlice_line by assumption. reflexivity.
  - rewrite ReadSlice_full by (try assumption; lia).
    rewrite IH.
    + rewrite <- app_assoc, (app_assoc (firstn n v)), firstn_skipn. reflexivity.
    + now apply not_in_skipn.
    + rewrite length_skipn. lia.
Qed.

Lemma ReadString_line (n : nat) (v rest : list byte) (lb : option byte) (e : error) :
  (0 < n)%nat -> ~ In LF v ->
  ReadString (mkReader n (v ++ LF :: rest) lb e) LF
  = Some (v ++ [LF], None, mkReader n rest (Some LF) e).
Proof.
  intros Hn Hv. unfold ReadString. cbn [pending].
  rewrite collectFragments_line; [reflexivity | assumption | assumption |].
  rewrite length_app. simpl. lia.
Qed.

Lemma CR_not_LF : CR <> LF.
Proof. discriminate. Qed.

Lemma eatLine_line (n : nat) (e : error) :
  (2 <= n)%nat ->
  forall (fuel : nat) (v rest : list byte) (lb : option byte),
    ~ In LF v -> (length v < fuel)%nat ->
    eatLine fuel (mkReader n (v ++ LF :: rest) lb e)
    = Some (None, mkReader n rest (Some LF) e).
Proof.
  intros Hn. induction fuel as [|fuel IH]; intros v rest lb Hv Hf; [lia|].
  cbn [eatLine].
  destruct (Nat.lt_ge_cases (length v) n) as [Hs|Hl].
  - rewrite ReadLine_line by assumption. reflexivity.
  - rewrite ReadLine_full by (try assumption; lia).
    destruct (Byte.eqb (last (firstn n v) x00) CR) eqn:EC.
    + apply eqb_true in EC.
      destruct (straddle_split n v) as [Hsp Hlen]; [lia | exact EC |].
      change (CR :: skipn n v ++ LF :: rest) with ((CR :: skipn n v) ++ LF :: rest).
      apply IH.
      * intros [H|H]; [now apply CR_not_LF | revert H; now apply not_in_skipn].
      * simpl. rewrite length_skipn. lia.
    + apply IH; [now apply not_in_skipn | rewrite length_skipn; lia].
Qed.

Lemma last_app_r {A} (p w : list A) (d : A) : w <> [] -> last (p ++ w) d = last w d.
Proof.
  intros Hw. induction p as [|a p IH]; [reflexivity|].
  change ((a :: p) ++ w) with (a :: (p ++ w)). cbn [last].
  destruct (p ++ w) eqn:E; [|exact IH].
  destruct p; [simpl in E; contradiction | discriminate].
Qed.

Lemma dropCR_app (p w : list byte) :
  w <> [] -> dropCR (p ++ w) = p ++ dropCR w.
Proof.
  intros Hw. destruct w as [|c w]; [contradiction|]. unfold dropCR.
  destruct (p ++ c :: w) eqn:E; [destruct p; discriminate|]. rewrite <- E.
  rewrite last_app_r by discriminate.
  destruct (Byte.eqb (last (c :: w) x00) CR); [|reflexivity].
  rewrite removelast_app by discriminate. reflexivity.
Qed.

Lemma dropCR_length (v : list byte) : (length (dropCR v) <= length v)%nat.
Proof.
  unfold dropCR. destruct v as [|c v]; [simpl; lia|].
  destruct (Byte.eqb (last (c :: v) x00) CR); [|lia].
  destruct (@exists_last _ (c :: v)) as (p & z & E); [discriminate|].
  rewrite E, removelast_snoc, length_app. simpl. lia.
Qed.

(** The inner loop of the [data] case on a line that ends in a line feed,
    when the size check does not fire: the line is appended, without the
    carriage return before the line feed if there is one. *)
Lemma readData_line (n : nat) (e : error) :
  (2 <= n)%nat ->
  forall (fuel : nat) (v rest : list byte) (lb : option byte) (data : option (list byte)),
    ~ In LF v -> (length v < fuel)%nat ->
    (slen data + len v + Z.of_nat (Nat.min n (length v)) < MaxEventDataSize)%Z ->
    readData fuel (mkReader n (v ++ LF :: rest) lb e) data
    = Some (append data (dropCR v), None, mkReader n rest (Some LF) e).
Proof.
  intros Hn. induction fuel as [|fuel IH]; intros v rest lb data Hv Hf Hsz; [lia|].
  cbn [readData].
  destruct (Nat.lt_ge_cases (length v) n) as [Hs|Hl].
  - rewrite ReadLine_line by assumption.
    rewrite slen_append.
    pose proof (dropCR_length v) as Hd. unfold len in *.
    destruct (MaxEventDataSize <=? _)%Z eqn:E; [apply Z.leb_le in E; lia | reflexivity].
  - rewrite ReadLine_full by (try assumption; lia).
    destruct (Byte.eqb (last (firstn n v) x00) CR) eqn:EC.
    + apply eqb_true in EC.
      destruct (straddle_split n v) as [Hsp Hlen]; [lia | exact EC |].
      set (piece := removelast (firstn n v)) in *.
      rewrite slen_append. unfold len in *.
      assert (Hv' : length v = (length piece + S (length (skipn n v)))%nat).
      { rewrite Hsp at 1. rewrite length_app. reflexivity. }
      destruct (MaxEventDataSize <=? _)%Z eqn:E; [apply Z.leb_le in E; lia|].
      change (CR :: skipn n v ++ LF :: rest) with ((CR :: skipn n v) ++ LF :: rest).
      rewrite IH.
      * rewrite append_assoc.
        assert (Hd : dropCR v = piece ++ dropCR (CR :: skipn n v)).
        { rewrite <- dropCR_app by discriminate. f_equal. exact Hsp. }
        now rewrite Hd.
      * intros [H|H]; [now apply CR_not_LF | revert H; now apply not_in_skipn].
      * simpl length. lia.
      * rewrite slen_append. unfold len. simpl length. lia.
    + rewrite slen_append. unfold len in *.
      assert (Hv' : length v = (n + length (skipn n v))%nat).
      { rewrite length_skipn. lia. }
      assert (Hp : length (firstn n v) = n) by (rewrite length_firstn; lia).
      destruct (MaxEventDataSize <=? _)%Z eqn:E; [apply Z.leb_le in E; lia|].
      rewrite IH.
      * rewrite append_assoc. f_equal. f_equal.
        destruct (skipn n v) eqn:Es.
        -- rewrite app_nil_r. rewrite <- (firstn_skipn n v) at 2.
           rewrite Es, app_nil_r. unfold dropCR.
           destruct (firstn n v) eqn:Ef; [reflexivity|]. now rewrite EC.
        -- rewrite <- Es, <- dropCR_app by (rewrite Es; discriminate).
           now rewrite firstn_skipn.
      * now apply not_in_skipn.
      * lia.
      * rewrite slen_append. unfold len. lia.
Qed.

(** ** One iteration of the loop, line by line *)

Section Lines.
Variables (n : nat) (e : error).
Hypothesis Hn : (2 <= n)%nat.

Lemma eatLine_rest (v rest : list byte) (lb : option byte) :
  ~ In LF v ->
  eatLine (loop_fuel (mkReader n (v ++ LF :: rest) lb e)) (mkReader n (v ++ LF :: rest) lb e)
  = Some (None, mkReader n rest (Some LF) e).
Proof.
  intros Hv. apply eatLine_line; [exact Hn | exact Hv |].
  unfold loop_fuel. cbn [pending]. rewrite length_app. simpl. lia.
Qed.

Lemma eatLine_LF (rest : list byte) (lb : option byte) :
  eatLine (loop_fuel (mkReader n (LF :: rest) lb e)) (mkReader n (LF :: rest) lb e)
  = Some (None, mkReader n rest (Some LF) e).
Proof. apply (eatLine_rest [] rest lb). tauto. Qed.

Lemma ReadString_rest (v rest : list byte) (lb : option byte) :
  ~ In LF v ->
  ReadString (mkReader n (v ++ LF :: rest) lb e) LF
  = Some (v ++ [LF], None, mkReader n rest (Some LF) e).
Proof. intros Hv. apply ReadString_line; [lia | exact Hv]. Qed.

Ltac run_line :=
  unfold iteration; cbn -[ReadString eatLine loop_fuel readData ParseInt];
  rewrite ?ReadString_rest by assumption;
  cbn -[ReadString eatLine loop_fuel readData ParseInt];
  rewrite ?TrimSuffixLF_snoc.

Lemma iteration_event (lid v rest : list byte) (lb : option byte) (ev : Event) :
  ~ In LF v ->
  iteration (mkClientConn lid (mkReader n (bytes "event: " ++ v ++ LF :: rest) lb e)) ev
  = Continue (mkClientConn lid (mkReader n rest (Some LF) e)) (set_Event ev v).
Proof. intros Hv. run_line. now rewrite eatLine_LF. Qed.

Lemma iteration_id (lid v rest : list byte) (lb : option byte) (ev : Event) :
  ~ In LF v ->
  iteration (mkClientConn lid (mkReader n (bytes "id: " ++ v ++ LF :: rest) lb e)) ev
  = Continue (mkClientConn v (mkReader n rest (Some LF) e)) (set_ID ev v).
Proof. intros Hv. run_line. now rewrite eatLine_LF. Qed.

Lemma iteration_retry (lid v rest : list byte) (lb : option byte) (ev : Event) :
  ~ In LF v ->
  iteration (mkClientConn lid (mkReader n (bytes "retry: " ++ v ++ LF :: rest) lb e)) ev
  = Continue (mkClientConn lid (mkReader n rest (Some LF) e))
      (match ParseInt v with Some k => set_Retry ev k | None => ev end).
Proof.
  intros Hv. run_line. destruct (ParseInt v); cbn -[eatLine loop_fuel];
    now rewrite eatLine_LF.
Qed.

Lemma iteration_comment (lid v rest : list byte) (lb : option byte) (ev : Event) :
  ~ In LF v ->
  iteration (mkClientConn lid (mkReader n (COLON :: v ++ LF :: rest) lb e)) ev
  = Continue (mkClientConn lid (mkReader n rest (Some LF) e)) ev.
Proof. intros Hv. run_line. now rewrite eatLine_rest. Qed.

Lemma iteration_blank (lid rest : list byte) (lb : option byte) (ev : Event) :
  slen (Data ev) = 0%Z ->
  iteration (mkClientConn lid (mkReader n (LF :: rest) lb e)) ev
  = Continue (mkClientConn lid (mkReader n rest (Some LF) e)) ev.
Proof. intros Hd. run_line. now rewrite Hd. Qed.

Lemma iteration_BOM (lid rest : list byte) (lb : option byte) (ev : Event) :
  iteration (mkClientConn lid (mkReader n (xef :: xbb :: xbf :: rest) lb e)) ev
  = Continue (mkClientConn lid (mkReader n rest (Some xbf) e)) ev.
Proof. reflexivity. Qed.

Lemma readData_rest (v rest : list byte) (lb : option byte) (data : option (list byte)) :
  ~ In LF v ->
  (slen data + len v + Z.of_nat (Nat.min n (length v)) < MaxEventDataSize)%Z ->
  readData (loop_fuel (mkReader n (v ++ LF :: rest) lb e))
    (mkReader n (v ++ LF :: rest) lb e) data
  = Some (append data (dropCR v), None, mkReader n rest (Some LF) e).
Proof.
  intros Hv Hsz. apply readData_line; try assumption.
  unfold loop_fuel. cbn [pending]. rewrite length_app. simpl. lia.
Qed.

Lemma readData_LF (rest : list byte) (lb : option byte) (data : option (list byte)) :
  (slen data < MaxEventDataSize)%Z ->
  readData (loop_fuel (mkReader n (LF :: rest) lb e)) (mkReader n (LF :: rest) lb e) data
  = Some (append data [], None, mkReader n rest (Some LF) e).
Proof.
  intros Hsz. apply (readData_rest [] rest lb data); [tauto|].
  simpl. rewrite Nat.min_0_r. unfold len. simpl. lia.
Qed.

(** A [data: ] line whose value starts after the one optional space. *)
Lemma iteration_data (lid v rest : list byte) (lb : option byte) (ev : Event) :
  ~ In LF v ->
  (slen (Data ev) + len v + Z.of_nat (Nat.min n (length v)) < MaxEventDataSize)%Z ->
  iteration (mkClientConn lid (mkReader n (bytes "data: " ++ v ++ LF :: rest) lb e)) ev
  = Continue (mkClientConn lid (mkReader n rest (Some LF) e))
      (set_Data ev (append (Data ev) (dropCR v ++ [LF]))).
Proof.
  intros Hv Hsz. run_line. rewrite readData_rest by assumption.
  cbn -[eatLine loop_fuel]. rewrite eatLine_LF, append_assoc. reflexivity.
Qed.

(** The line ["data:"] with nothing after the colon. *)
Lemma iteration_data_empty (lid rest : list byte) (lb : option byte) (ev : Event) :
  (slen (Data ev) < MaxEventDataSize)%Z ->
  iteration (mkClientConn lid (mkReader n (bytes "data:" ++ LF :: rest) lb e)) ev
  = Continue (mkClientConn lid (mkReader n rest (Some LF) e))
      (set_Data ev (append (Data ev) [LF])).
Proof.
  intros Hsz. run_line.
  rewrite readData_LF by assumption.
  cbn -[eatLine loop_fuel]. rewrite eatLine_LF, append_assoc. reflexivity.
Qed.
End Lines.

(** ** The loop of [Receive] *)

Lemma Receive_loop_continue (f : nat) (c c1 : ClientConn) (ev ev1 : Event) :
  iteration c ev = Continue c1 ev1 ->
  Receive_loop (S f) c ev = Receive_loop f c1 ev1.
Proof. intros H. cbn [Receive_loop]. now rewrite H. Qed.

Lemma Receive_loop_return (f : nat) (c c1 : ClientConn) (ev ev1 : Event) (err : option error) :
  iteration c ev = Return c1 ev1 err ->
  Receive_loop (S f) c ev = Some (ev1, err, c1).
Proof. intros H. cbn [Receive_loop]. now rewrite H. Qed.

Lemma iteration_end (lid : gostring) (n : nat) (lb : option byte) (e : error) (ev : Event) :
  iteration (mkClientConn lid (mkReader n [] lb e)) ev
  = Return (mkClientConn lid (mkReader n [] lb e)) ev (Some e).
Proof. reflexivity. Qed.

Lemma NewReaderSize_ge (size : nat) : (2 <= Nat.max size minReadBufferSize)%nat.
Proof. unfold minReadBufferSize. lia. Qed.

(** ** Keepalives *)

Lemma keepalives_length (N : nat) : length (concat (repeat keepalive N)) = (3 * N)%nat.
Proof. induction N as [|N IH]; simpl in *; lia. Qed.

Lemma Send_zero (b : list byte) (fl : bool) :
  Send (mkServerConn (mkWriter b fl true None)) zeroEvent
  = Some (mkServerConn (mkWriter (b ++ keepalive) true true None), None).
Proof. reflexivity. Qed.

Lemma sendAll_zero (N : nat) :
  forall (b : list byte) (fl : bool),
  exists fl',
    sendAll (mkServerConn (mkWriter b fl true None)) (repeat zeroEvent N)
    = Some (mkServerConn (mkWriter (b ++ concat (repeat keepalive N)) fl' true None), None).
Proof.
  induction N as [|N IH]; intros b fl.
  - exists fl. simpl. now rewrite app_nil_r.
  - cbn [repeat sendAll]. rewrite Send_zero.
    destruct (IH (b ++ keepalive) true) as [fl' H]. exists fl'. rewrite H.
    cbn [repeat concat]. now rewrite app_assoc.
Qed.

Lemma Receive_loop_keepalives (n : nat) (e : error) (lid rest : list byte) (ev : Event) :
  (2 <= n)%nat -> slen (Data ev) = 0%Z ->
  forall (N : nat) (lb : option byte),
  exists lb',
    forall f,
      Receive_loop (N + N + f) (mkClientConn lid (mkReader n (concat (repeat keepalive N) ++ rest) lb e)) ev
      = Receive_loop f (mkClientConn lid (mkReader n rest lb' e)) ev.
Proof.
  intros Hn Hd. induction N as [|N IH]; intros lb.
  - exists lb. reflexivity.
  - destruct (IH (Some LF)) as [lb' H]. exists lb'. intros f.
    replace (S N + S N + f)%nat with (S (S (N + N + f))) by lia.
    cbn [repeat concat]. unfold keepalive at 1.
    rewrite (Receive_loop_continue _ _ _ _ _
               (iteration_comment n e Hn lid [] (LF :: concat (repeat keepalive N) ++ rest) lb ev
                  (fun H => H))).
    rewrite (Receive_loop_continue _ _ _ _ _
               (iteration_blank n e lid (concat (repeat keepalive N) ++ rest) (Some LF) ev Hd)).
    apply H.
Qed.

(** C7: [Send] writes the zero record as a comment line and the blank
    terminator line, [":\n\n"]; and for every [N], the bytes of [N] zero
    records decode to no record at all: the first [Receive] skips them
    all and reports the end of the stream. *)
Theorem C7_keepalive_idempotence :
  encode zeroEvent = Some (COLON :: [LF; LF])
  /\ forall N size : nat,
       encodeAll (repeat zeroEvent N) = Some (concat (repeat keepalive N))
       /\ decodeAll size (concat (repeat keepalive N)) = Some ([], io_EOF).
Proof.
  split; [reflexivity|]. intros N size. split.
  - unfold encodeAll, NewRecorder.
    destruct (sendAll_zero N [] false) as [fl' H]. rewrite H. reflexivity.
  - unfold decodeAll. cbn [receiveAll]. unfold Receive, NewClientConn, NewReaderSize.
    destruct (Receive_loop_keepalives (Nat.max size minReadBufferSize) io_EOF [] [] zeroEvent
                (NewReaderSize_ge size) eq_refl N None) as [lb' H].
    rewrite app_nil_r in H.
    unfold loop_fuel. cbn [pending br]. rewrite !keepalives_length.
    replace (S (3 * N)) with (N + N + S N)%nat by lia.
    rewrite H. rewrite (Receive_loop_return _ _ _ _ _ _ (iteration_end _ _ _ _ _)). reflexivity.
Qed.

(** ** The byte-order mark *)

(** C6: a byte-order mark at the start of a line (that is, wherever an
    iteration of the loop begins) is dropped, event and last event id
    untouched, and the loop goes on with the byte after it; the stream
    made of the mark and ["data: stuff\n\n"] decodes to exactly one
    record, whose data is ["stuff"]. *)
Theorem C6_bom_discarded :
  (forall (n : nat) (e : error) (lid rest : list byte) (lb : option byte) (ev : Event) (f : nat),
      iteration (mkClientConn lid (mkReader n (BOM ++ rest) lb e)) ev
      = Continue (mkClientConn lid (mkReader n rest (Some xbf) e)) ev
      /\ Receive_loop (S f) (mkClientConn lid (mkReader n (BOM ++ rest) lb e)) ev
         = Receive_loop f (mkClientConn lid (mkReader n rest (Some xbf) e)) ev)
  /\ decodeAll defaultBufSize (BOM ++ bytes "data: stuff" ++ [LF; LF])
     = Some ([dataEvent "stuff"], io_EOF).
Proof.
  split.
  - intros n e lid rest lb ev f. split; [reflexivity|].
    apply Receive_loop_continue. reflexivity.
  - vm_compute. reflexivity.
Qed.

(** ** The [id] field *)

Lemma readFieldName_colon (name : gostring) (n : nat) (e : error) :
  ~ In LF name ->
  forall (s : list byte) (lb : option byte),
    s <> [] ->
    readFieldName name (mkReader n (name ++ COLON :: s) lb e)
    = (true, None,
       match s with
       | b :: s' => if Byte.eqb b SP then mkReader n s' (Some SP) e else mkReader n s None e
       | [] => mkReader n [] None e
       end).
Proof.
  induction name as [|c name IH]; intros Hname s lb Hs.
  - destruct s as [|b s']; [contradiction|]. cbn.
    destruct (Byte.eqb b SP) eqn:E; [|reflexivity].
    apply eqb_true in E. now subst.
  - cbn [app readFieldName ReadByte pending]. cbn match. rewrite eqb_same. cbn [negb].
    rewrite eqb_diff by (intros ->; apply Hname; now left).
    cbn [set_pending buf_size rd_err]. apply IH; [|exact Hs].
    intros H. apply Hname. now right.
Qed.

Lemma fieldValue_not_in (s : list byte) : ~ In LF s -> ~ In LF (fieldValue s).
Proof.
  destruct s as [|b s]; [tauto|]. unfold fieldValue.
  destruct (Byte.eqb b SP); [|tauto]. intros H Hin. apply H. now right.
Qed.

Lemma ReadString_LF (n : nat) (e : error) (rest : list byte) (lb : option byte) :
  (2 <= n)%nat ->
  ReadString (mkReader n (LF :: rest) lb e) LF = Some ([LF], None, mkReader n rest (Some LF) e).
Proof. intros Hn. apply (ReadString_rest n e Hn [] rest lb). tauto. Qed.

(** An [id] line, with or without the optional space after the colon. *)
Lemma iteration_id_line (n : nat) (e : error) (lid s rest : list byte)
    (lb : option byte) (ev : Event) :
  (2 <= n)%nat -> ~ In LF s ->
  iteration (mkClientConn lid (mkReader n (bytes "id:" ++ s ++ LF :: rest) lb e)) ev
  = Continue (mkClientConn (fieldValue s) (mkReader n rest (Some LF) e))
      (set_ID ev (fieldValue s)).
Proof.
  intros Hn Hs. unfold iteration.
  change (bytes "id:" ++ s ++ LF :: rest) with (x69 :: [x64] ++ COLON :: (s ++ LF :: rest)).
  cbn [ReadByte pending br set_pending buf_size rd_err with_br LastEventID].
  cbn match. unfold dispatch. cbn [Byte.eqb]. 
  change (Byte.eqb x69 LF) with false. change (Byte.eqb x69 x65) with false.
  change (Byte.eqb x69 x64) with false. change (Byte.eqb x69 x69) with true.
  cbn match. unfold readValue. cbn [br]. change (bytes "d") with [x64].
  rewrite readFieldName_colon;
    [| intros [H|[]]; discriminate | destruct s; discriminate].
  destruct s as [|b s'].
  - cbn -[ReadString eatLine loop_fuel].
    rewrite ReadString_LF by exact Hn.
    cbn -[eatLine loop_fuel]. now rewrite eatLine_LF.
  - cbn [app fieldValue]. destruct (Byte.eqb b SP) eqn:E.
    + cbn -[ReadString eatLine loop_fuel].
      rewrite (ReadString_rest n e Hn s' rest (Some SP)) by (intros H; apply Hs; now right).
      cbn -[eatLine loop_fuel]. rewrite TrimSuffixLF_snoc. now rewrite eatLine_LF.
    + cbn -[ReadString eatLine loop_fuel].
      change (b :: s' ++ LF :: rest) with ((b :: s') ++ LF :: rest).
      rewrite (ReadString_rest n e Hn (b :: s') rest None) by exact Hs.
      cbn -[eatLine loop_fuel TrimSuffixLF app]. rewrite TrimSuffixLF_snoc.
      now rewrite eatLine_LF.
Qed.

Lemma Receive_id_only (n : nat) (e : error) (lid s : list byte) (lb : option byte) (ev : Event) :
  (2 <= n)%nat -> ~ In LF s -> slen (Data ev) = 0%Z ->
  forall f, (3 <= f)%nat ->
    Receive_loop f (mkClientConn lid (mkReader n (bytes "id:" ++ s ++ [LF; LF]) lb e)) ev
    = Some (set_ID ev (fieldValue s), Some e,
            mkClientConn (fieldValue s) (mkReader n [] (Some LF) e)).
Proof.
  intros Hn Hs Hd f Hf.
  destruct f as [|[|[|f]]]; try lia.
  rewrite (Receive_loop_continue _ _ _ _ _ (iteration_id_line n e lid s [LF] lb ev Hn Hs)).
  rewrite (Receive_loop_continue _ _ _ _ _
             (iteration_blank n e (fieldValue s) [] (Some LF) (set_ID ev (fieldValue s)) Hd)).
  apply Receive_loop_return. reflexivity.
Qed.

(** C8: an [id] line sets both the id of the event in progress and the
    connection's [LastEventID] to the rest of the line, whatever the
    event holds; and when the group has no data and the stream ends, the
    call returns the end-of-stream error, no record, with [LastEventID]
    updated all the same. *)
Theorem C8_id_sets_LastEventID
    (n : nat) (e : error) (lid s rest : list byte) (lb : option byte) (ev : Event)
    (buf : option (list byte)) :
  (2 <= n)%nat -> ~ In LF s ->
  iteration (mkClientConn lid (mkReader n (bytes "id:" ++ s ++ LF :: rest) lb e)) ev
  = Continue (mkClientConn (fieldValue s) (mkReader n rest (Some LF) e))
      (set_ID ev (fieldValue s))
  /\ exists ev',
       Receive (mkClientConn lid (mkReader n (bytes "id:" ++ s ++ [LF; LF]) lb e)) buf
       = Some (ev', Some e, mkClientConn (fieldValue s) (mkReader n [] (Some LF) e))
       /\ ID ev' = fieldValue s /\ slen (Data ev') = 0%Z.
Proof.
  intros Hn Hs. split; [now apply iteration_id_line|].
  unfold Receive.
  set (ev0 := match buf with Some _ => set_Data zeroEvent (Some []) | None => zeroEvent end).
  assert (Hd : slen (Data ev0) = 0%Z) by (destruct buf; reflexivity).
  exists (set_ID ev0 (fieldValue s)). split; [|split; [reflexivity | exact Hd]].
  apply Receive_id_only; try assumption.
  unfold loop_fuel. cbn [br pending]. rewrite !length_app. simpl. lia.
Qed.

Lemma C8_id_sets_LastEventID_witness :
  iteration (mkClientConn [] (mkReader 4096 (bytes "id:" ++ bytes " 42" ++ LF :: bytes "x") None io_EOF))
    zeroEvent
  = Continue (mkClientConn (bytes "42") (mkReader 4096 (bytes "x") (Some LF) io_EOF))
      (set_ID zeroEvent (bytes "42"))
  /\ exists ev',
       Receive (mkClientConn [] (mkReader 4096 (bytes "id:" ++ bytes " 42" ++ [LF; LF]) None io_EOF)) None
       = Some (ev', Some io_EOF, mkClientConn (bytes "42") (mkReader 4096 [] (Some LF) io_EOF))
       /\ ID ev' = bytes "42" /\ slen (Data ev') = 0%Z.
Proof.
  apply (C8_id_sets_LastEventID 4096 io_EOF [] (bytes " 42") (bytes "x") None zeroEvent None).
  - lia.
  - simpl. intuition discriminate.
Defined.

(** ** Fields of a group without data *)

(** C9: a blank line that ends a group without data leaves the event in
    progress as it is, so the event type, id and retry of that group are
    still there when a later group of the same call is dispatched. *)
Theorem C9_dataless_fields_persist :
  (forall (n : nat) (e : error) (lid rest : list byte) (lb : option byte) (ev : Event) (f : nat),
      slen (Data ev) = 0%Z ->
      iteration (mkClientConn lid (mkReader n (LF :: rest) lb e)) ev
      = Continue (mkClientConn lid (mkReader n rest (Some LF) e)) ev
      /\ Receive_loop (S f) (mkClientConn lid (mkReader n (LF :: rest) lb e)) ev
         = Receive_loop f (mkClientConn lid (mkReader n rest (Some LF) e)) ev)
  /\ decodeAll defaultBufSize
       (bytes "event: a" ++ [LF] ++ bytes "id: b" ++ [LF] ++ bytes "retry: 7" ++ [LF; LF]
        ++ bytes "data: x" ++ [LF; LF])
     = Some ([mkEvent (bytes "a") (Some (bytes "x")) (bytes "b") 7], io_EOF).
Proof.
  split.
  - intros n e lid rest lb ev f Hd.
    assert (H : iteration (mkClientConn lid (mkReader n (LF :: rest) lb e)) ev
                = Continue (mkClientConn lid (mkReader n rest (Some LF) e)) ev).
    { unfold iteration. cbn. now rewrite Hd. }
    split; [exact H | now apply Receive_loop_continue].
  - vm_compute. reflexivity.
Qed.

Lemma C9_dataless_fields_persist_witness :
  iteration (mkClientConn [] (mkReader 16 (LF :: bytes "data: x") None io_EOF))
    (mkEvent (bytes "a") None (bytes "b") 7)
  = Continue (mkClientConn [] (mkReader 16 (bytes "data: x") (Some LF) io_EOF))
      (mkEvent (bytes "a") None (bytes "b") 7).
Proof.
  apply (proj1 C9_dataless_fields_persist 16 io_EOF [] (bytes "data: x") None
           (mkEvent (bytes "a") None (bytes "b") 7) O eq_refl).
Defined.

(** ** A present but empty payload *)

(** C10: a record whose only non-default field is a present, empty data
    payload is not the zero record, yet [Send] writes no [data:] line for
    it, only the blank terminator line; a decoder reading that byte sees
    a group without data and returns no record. *)
Theorem C10_empty_payload_sent_as_blank_line :
  IsZero (mkEvent [] (Some []) [] 0) = false
  /\ encode (mkEvent [] (Some []) [] 0) = Some [LF]
  /\ forall size, decodeAll size [LF] = Some ([], io_EOF).
Proof. repeat split. Qed.

(** ** The size check *)

Lemma last_repeat (a d : byte) (n : nat) : (0 < n)%nat -> last (repeat a n) d = a.
Proof.
  intros Hn. destruct n as [|n]; [lia|]. clear Hn.
  induction n as [|n IH]; [reflexivity|].
  change (repeat a (S (S n))) with (a :: repeat a (S n)).
  change (last (a :: repeat a (S n)) d) with (last (repeat a (S n)) d). exact IH.
Qed.

Lemma not_in_repeat (a c : byte) (n : nat) : a <> c -> ~ In c (repeat a n).
Proof. intros H Hin. apply repeat_spec in Hin. congruence. Qed.

(** A run of [k] full buffers of a byte that is no line end, when the
    size check fires on the [k]-th of them: the pieces read so far are
    in the data, and the error is the size error. *)
Lemma readData_run (n : nat) (e : error) (a : byte) :
  (0 < n)%nat -> a <> LF -> a <> CR ->
  forall (k fuel j : nat) (data : option (list byte)) (t : list byte) (lb : option byte),
    (1 <= k <= fuel)%nat ->
    slen data = (Z.of_nat j * Z.of_nat n)%Z ->
    (Z.of_nat (j + k + 1) * Z.of_nat n = MaxEventDataSize)%Z ->
    readData fuel (mkReader n (repeat a (k * n) ++ t) lb e) data
    = Some (append data (repeat a (k * n)), Some errEventDataTooBig,
            mkReader n t (Some a) e).
Proof.
  intros Hn HLF HCR. induction k as [|k IH]; intros fuel j data t lb Hk Hd HM; [lia|].
  destruct fuel as [|fuel]; [lia|]. cbn [readData].
  change (S k * n)%nat with (n + k * n)%nat. rewrite repeat_app, <- app_assoc.
  rewrite ReadLine_full;
    [| now apply not_in_repeat | rewrite repeat_length; lia].
  rewrite firstn_all2, skipn_all2 by (rewrite repeat_length; lia).
  rewrite last_repeat by exact Hn. rewrite (eqb_diff _ _ HCR).
  cbn [app]. rewrite slen_append. unfold len. rewrite repeat_length.
  destruct k as [|k].
  - cbn [Nat.mul repeat app].
    destruct (MaxEventDataSize <=? _)%Z eqn:E; [|apply Z.leb_gt in E; nia].
    now rewrite app_nil_r.
  - destruct (MaxEventDataSize <=? _)%Z eqn:E; [apply Z.leb_le in E; nia|].
    rewrite (IH fuel (S j)); [now rewrite append_assoc | lia | | rewrite <- HM; f_equal; lia].
    rewrite slen_append. unfold len. rewrite repeat_length. lia.
Qed.

Lemma Receive_too_big (n : nat) (e : error) (a : byte) (k : nat)
    (lid t : list byte) (lb : option byte) :
  (0 < n)%nat -> a <> LF -> a <> CR -> (1 <= k)%nat ->
  (Z.of_nat (k + 1) * Z.of_nat n = MaxEventDataSize)%Z ->
  Receive (mkClientConn lid (mkReader n (bytes "data: " ++ repeat a (k * n) ++ t) lb e)) None
  = Some (set_Data zeroEvent (Some (repeat a (k * n))), Some errEventDataTooBig,
          mkClientConn lid (mkReader n t (Some a) e)).
Proof.
  intros Hn HLF HCR Hk HM. unfold Receive.
  unfold loop_fuel at 1. apply Receive_loop_return.
  remember (repeat a (k * n)) as payload eqn:Ep.
  unfold iteration. cbn -[readData loop_fuel]. subst payload.
  rewrite (readData_run n e a Hn HLF HCR k _ O None t (Some SP)).
  - destruct (repeat a (k * n)) eqn:E; [|reflexivity].
    apply (f_equal (@length byte)) in E. rewrite repeat_length in E. simpl in E. nia.
  - unfold loop_fuel. cbn [pending]. rewrite length_app, repeat_length. nia.
  - reflexivity.
  - exact HM.
Qed.

(** C2: the size check adds the piece just read twice.  With the default
    reader, a single [data] line of 1023 full buffers (4190208 bytes, less
    than the 4194304 of [MaxEventDataSize]) already makes [Receive] fail
    with the size error; the event it returns with the error holds the
    data read so far. *)
Theorem C2_size_check_fires_below_limit :
  (len (repeat x61 (1023 * 4096)) < MaxEventDataSize)%Z
  /\ Receive (NewClientConn (NewReader (bytes "data: " ++ repeat x61 (1023 * 4096) ++ [LF; LF]))) None
     = Some (mkEvent [] (Some (repeat x61 (1023 * 4096))) [] 0, Some errEventDataTooBig,
             mkClientConn [] (mkReader 4096 [LF; LF] (Some x61) io_EOF))
  /\ errEventDataTooBig <> io_EOF /\ errEventDataTooBig <> io_Failure.
Proof.
  split; [|split; [|split; discriminate]].
  - unfold len. rewrite repeat_length, Nat2Z.inj_mul. reflexivity.
  - apply (Receive_too_big 4096 io_EOF x61 1023 [] [LF; LF] None);
      try discriminate; try lia. reflexivity.
Qed.

(** ** A field name cut short by the end of the line *)

(** When the line ends inside a field name, [readFieldName] has read the
    line feed and does not put it back (the comparison with the expected
    letter fails first), so the line eater discards the whole next line. *)
Lemma iteration_short_name_eats_next_line (n : nat) (e : error)
    (lid v rest : list byte) (lb : option byte) (ev : Event) :
  (2 <= n)%nat -> ~ In LF v ->
  iteration (mkClientConn lid (mkReader n (x65 :: LF :: v ++ LF :: rest) lb e)) ev
  = Continue (mkClientConn lid (mkReader n rest (Some LF) e)) ev.
Proof.
  intros Hn Hv. unfold iteration. cbn -[eatLine loop_fuel].
  now rewrite eatLine_rest.
Qed.

(** C3: the line ["e"] followed by a [data] line and a blank line: the
    line feed that ends ["e"] is consumed by the field-name match, the
    line eater then discards the [data] line, and no record is decoded;
    with the unknown line ["x"] in place of ["e"] the record is decoded. *)
Theorem C3_short_field_name_skips_next_line :
  decodeAll defaultBufSize (bytes "e" ++ [LF] ++ bytes "data: x" ++ [LF; LF])
  = Some ([], io_EOF)
  /\ decodeAll defaultBufSize (bytes "x" ++ [LF] ++ bytes "data: x" ++ [LF; LF])
     = Some ([dataEvent "x"], io_EOF)
  /\ iteration (mkClientConn [] (mkReader 4096 (bytes "e" ++ [LF] ++ bytes "data: x" ++ [LF; LF]) None io_EOF))
       zeroEvent
     = Continue (mkClientConn [] (mkReader 4096 [LF] (Some LF) io_EOF)) zeroEvent.
Proof. vm_compute. repeat split. Qed.

(** ** A payload that ends in a newline *)

Lemma trailing_newline_scenario :
  encode (mkEvent [] (Some (bytes "ends in newline" ++ [LF])) [] 0)
  = Some (bytes "data: ends in newline" ++ [LF] ++ bytes "data:" ++ [LF; LF])
  /\ decodeAll defaultBufSize (bytes "data: ends in newline" ++ [LF] ++ bytes "data:" ++ [LF; LF])
     = Some ([mkEvent [] (Some (bytes "ends in newline" ++ [LF])) [] 0], io_EOF).
Proof. vm_compute. split; reflexivity. Qed.

(** C5: the payload of the trailing-newline test comes back, but not every payload
    that ends in a newline comes back: for the payload ["\n"] [Send]
    writes the single line ["data:"], which decodes to the empty payload,
    and for ["a\n\n"] it writes ["data: a"] and ["data:"], which decode
    to ["a\n"]. *)
Theorem C5_trailing_newline_lost :
  encode (mkEvent [] (Some [LF]) [] 0) = Some (bytes "data:" ++ [LF; LF])
  /\ decodeAll defaultBufSize (bytes "data:" ++ [LF; LF])
     = Some ([mkEvent [] (Some []) [] 0], io_EOF)
  /\ encode (mkEvent [] (Some (bytes "a" ++ [LF; LF])) [] 0)
     = Some (bytes "data: a" ++ [LF] ++ bytes "data:" ++ [LF; LF])
  /\ decodeAll defaultBufSize (bytes "data: a" ++ [LF] ++ bytes "data:" ++ [LF; LF])
     = Some ([mkEvent [] (Some (bytes "a" ++ [LF])) [] 0], io_EOF).
Proof. vm_compute. repeat split. Qed.

(** ** Integers: [ParseInt] reads back what [FormatInt] prints *)

Lemma digit_cases (d : Z) :
  (0 <= d < 10)%Z ->
  d = 0%Z \/ d = 1%Z \/ d = 2%Z \/ d = 3%Z \/ d = 4%Z \/ d = 5%Z \/ d = 6%Z
  \/ d = 7%Z \/ d = 8%Z \/ d = 9%Z.
Proof. lia. Qed.

Ltac each_digit d H :=
  destruct (digit_cases d H) as [->|[->|[->|[->|[->|[->|[->|[->|[->| ->]]]]]]]]].

Lemma digit_val_byte (d : Z) : (0 <= d < 10)%Z -> digit_val (digit_byte d) = Some d.
Proof. intros H. each_digit d H; reflexivity. Qed.

Lemma digit_byte_plain (d : Z) :
  (0 <= d < 10)%Z ->
  digit_byte d <> LF /\ Byte.eqb (digit_byte d) x2d = false
  /\ Byte.eqb (digit_byte d) x2b = false.
Proof. intros H. each_digit d H; repeat split; discriminate. Qed.

Lemma mod10_digit (u : Z) : (0 <= u mod 10 < 10)%Z.
Proof. apply Z.mod_pos_bound. lia. Qed.

Lemma parseDigits_formatBits (f : nat) :
  forall (u : Z) (acc : list byte),
    (0 <= u < 10 ^ Z.of_nat f)%Z ->
    parseDigits 0 (formatBits f u acc) = parseDigits u acc.
Proof.
  induction f as [|f IH]; intros u acc Hu.
  - simpl in Hu. assert (u = 0%Z) by lia. now subst.
  - cbn [formatBits]. destruct (u / 10 =? 0)%Z eqn:E.
    + apply Z.eqb_eq in E. cbn [parseDigits].
      rewrite digit_val_byte by apply mod10_digit.
      f_equal. pose proof (Z.div_mod u 10). lia.
    + apply Z.eqb_neq in E. rewrite IH.
      * cbn [parseDigits]. rewrite digit_val_byte by apply mod10_digit.
        f_equal. pose proof (Z.div_mod u 10). lia.
      * rewrite Nat2Z.inj_succ, Z.pow_succ_r in Hu by lia.
        split; [apply Z.div_pos; lia | apply Z.div_lt_upper_bound; lia].
Qed.

Lemma formatBits_head (f : nat) :
  forall (u : Z) (acc : list byte),
  exists d rest, (0 <= d < 10)%Z /\ formatBits (S f) u acc = digit_byte d :: rest.
Proof.
  induction f as [|f IH]; intros u acc.
  - exists (u mod 10)%Z, acc. split; [apply mod10_digit|].
    cbn [formatBits]. now destruct (u / 10 =? 0)%Z.
  - change (formatBits (S (S f)) u acc)
      with (if (u / 10 =? 0)%Z then digit_byte (u mod 10) :: acc
            else formatBits (S f) (u / 10) (digit_byte (u mod 10) :: acc)).
    destruct (u / 10 =? 0)%Z; [|apply IH].
    exists (u mod 10)%Z, acc. split; [apply mod10_digit | reflexivity].
Qed.

Lemma formatBits_bytes (f : nat) :
  forall (u : Z) (acc : list byte) (b : byte),
    In b (formatBits f u acc) ->
    In b acc \/ exists d, (0 <= d < 10)%Z /\ b = digit_byte d.
Proof.
  induction f as [|f IH]; intros u acc b Hin; [now left|].
  cbn [formatBits] in Hin.
  assert (Hacc : In b (digit_byte (u mod 10) :: acc) ->
                 In b acc \/ exists d, (0 <= d < 10)%Z /\ b = digit_byte d).
  { intros [<-|H]; [right; exists (u mod 10)%Z; split; [apply mod10_digit | reflexivity] | now left]. }
  destruct (u / 10 =? 0)%Z; [now apply Hacc|].
  destruct (IH _ _ _ Hin) as [H|H]; [now apply Hacc | now right].
Qed.

Lemma FormatInt_no_LF (n : Z) : ~ In LF (FormatInt n).
Proof.
  assert (H : forall u, ~ In LF (formatBits 20 u [])).
  { intros u Hin. destruct (formatBits_bytes 20 u [] LF Hin) as [[]|(d & Hd & E)].
    destruct (digit_byte_plain d Hd) as [Hne _]. congruence. }
  unfold FormatInt. destruct (n <? 0)%Z; [|apply H].
  intros [E|Hin]; [discriminate | exact (H _ Hin)].
Qed.

Lemma ParseUint_formatBits (u : Z) :
  (0 <= u < 10 ^ 20)%Z -> ParseUint (formatBits 20 u []) = Some u.
Proof.
  intros Hu. unfold ParseUint.
  destruct (formatBits_head 19 u []) as (d & rest & Hd & E). rewrite E, <- E.
  now rewrite parseDigits_formatBits.
Qed.

Lemma ParseInt_FormatInt (n : Z) :
  (- 2 ^ 63 <= n < 2 ^ 63)%Z -> ParseInt (FormatInt n) = Some n.
Proof.
  intros Hn. unfold FormatInt. destruct (n <? 0)%Z eqn:E.
  - apply Z.ltb_lt in E. unfold ParseInt.
    change (Byte.eqb x2d x2d) with true. change (Byte.eqb x2d x2b) with false.
    cbv beta iota zeta. rewrite ParseUint_formatBits by lia.
    change (2 ^ (IntSize - 1))%Z with (2 ^ 63)%Z. cbn [negb andb].
    destruct (2 ^ 63 <? - n)%Z eqn:E2; [apply Z.ltb_lt in E2; lia|].
    f_equal. lia.
  - apply Z.ltb_ge in E.
    destruct (formatBits_head 19 n []) as (d & rest & Hd & Ef).
    destruct (digit_byte_plain d Hd) as (_ & Hm & Hp).
    unfold ParseInt. rewrite Ef. rewrite Hm, Hp. cbv beta iota zeta. rewrite <- Ef.
    rewrite ParseUint_formatBits by lia.
    change (2 ^ (IntSize - 1))%Z with (2 ^ 63)%Z. cbn [negb andb].
    destruct (2 ^ 63 <=? n)%Z eqn:E2; [apply Z.leb_le in E2; lia | reflexivity].
Qed.

(** ** What [Send] writes *)

Lemma Fprintf_recorder (b : list byte) (fl : bool) (t : list byte) :
  Fprintf (mkServerConn (mkWriter b fl true None)) t
  = (mkServerConn (mkWriter (b ++ t) fl true None), None).
Proof. reflexivity. Qed.

Lemma sendLines_recorder (fuel : nat) :
  forall (data b : list byte) (fl : bool),
    sendLines fuel (mkServerConn (mkWriter b fl true None)) data
    = match data, fuel with
      | _ :: _, O => None
      | _, _ => Some (mkServerConn (mkWriter (b ++ dataLines fuel data) fl true None), None)
      end
      \/ (length data > fuel)%nat.
Proof.
  induction fuel as [|fuel IH]; intros data b fl.
  - destruct data; [left; simpl; now rewrite app_nil_r | right; simpl; lia].
  - destruct data as [|c data]; [left; simpl; now rewrite app_nil_r|].
    cbn [sendLines dataLines].
    destruct (IndexByte (c :: data) LF) as [i|] eqn:Ei.
    + rewrite Fprintf_recorder.
      destruct (IH (skipn (S i) (c :: data)) (b ++ bytes "data: " ++ firstn i (c :: data) ++ [LF]) fl)
        as [H|H].
      * rewrite H. destruct (skipn (S i) (c :: data)) eqn:Es.
        -- left. destruct fuel; simpl; now rewrite !app_nil_r.
        -- destruct fuel.
           ++ right. apply (f_equal (@length byte)) in Es. rewrite length_skipn in Es.
              simpl in *. lia.
           ++ left. f_equal. f_equal. f_equal. now rewrite <- !app_assoc.
      * right. rewrite length_skipn in H. simpl in *. lia.
    + rewrite Fprintf_recorder. left. destruct fuel; reflexivity.
Qed.

Lemma sendLines_enough (data b : list byte) (fl : bool) :
  sendLines (length data) (mkServerConn (mkWriter b fl true None)) data
  = Some (mkServerConn (mkWriter (b ++ dataLines (length data) data) fl true None), None).
Proof.
  destruct (sendLines_recorder (length data) data b fl) as [H|H]; [|lia].
  rewrite H. destruct data; reflexivity.
Qed.

Lemma encode_wire (e : Event) : IsZero e = false -> encode e = Some (wire e).
Proof.
  intros Hz. unfold encode, Send, Send_body. rewrite Hz.
  unfold NewRecorder, wire.
  destruct (is_empty (Event_ e)); cbn [negb]; rewrite ?Fprintf_recorder;
  destruct (is_empty (ID e)); cbn [negb]; rewrite ?Fprintf_recorder;
  destruct (Retry e =? 0)%Z; cbn [negb]; rewrite ?Fprintf_recorder;
  fold (endsInLF (match Data e with Some d => d | None => [] end));
  fold (stripLF (match Data e with Some d => d | None => [] end));
  rewrite sendLines_enough;
  destruct (endsInLF _); rewrite ?Fprintf_recorder; cbn [flush w isFlusher Body];
  rewrite <- ?app_assoc; reflexivity.
Qed.

(** ** Several iterations *)

Lemma runs_loop (m : nat) (c c2 : ClientConn) (ev ev2 : Event) :
  runs m c ev c2 ev2 ->
  forall f, Receive_loop (m + f) c ev = Receive_loop f c2 ev2.
Proof.
  induction 1 as [|m c c1 c2 ev ev1 ev2 Hit _ IH]; intros f; [reflexivity|].
  change (S m + f)%nat with (S (m + f)).
  rewrite (Receive_loop_continue _ _ _ _ _ Hit). apply IH.
Qed.

Lemma runs_trans (m1 m2 : nat) (c c1 c2 : ClientConn) (ev ev1 ev2 : Event) :
  runs m1 c ev c1 ev1 -> runs m2 c1 ev1 c2 ev2 -> runs (m1 + m2) c ev c2 ev2.
Proof.
  induction 1 as [|m c c' c1 ev ev' ev1 Hit _ IH]; intros H2; [exact H2|].
  change (S m + m2)%nat with (S (m + m2)). eapply runs_S; [exact Hit | now apply IH].
Qed.

Lemma runs_one (c c1 : ClientConn) (ev ev1 : Event) :
  iteration c ev = Continue c1 ev1 -> runs 1 c ev c1 ev1.
Proof. intros H. eapply runs_S; [exact H | apply runs_O]. Qed.

(** ** Carriage returns *)

Lemma crOK_suffix (p t : list byte) : crOK (p ++ t) = true -> crOK t = true.
Proof.
  induction p as [|c p IH]; [trivial|].
  change ((c :: p) ++ t) with (c :: (p ++ t)). cbn [crOK].
  intros H. apply andb_prop in H. now apply IH.
Qed.

Lemma crOK_last (v t : list byte) :
  crOK (v ++ LF :: t) = true -> v <> [] -> last v x00 <> CR.
Proof.
  induction v as [|c v IH]; [congruence|]. intros H _.
  change ((c :: v) ++ LF :: t) with (c :: (v ++ LF :: t)) in H.
  cbn [crOK] in H. apply andb_prop in H. destruct H as [H1 H2].
  destruct v as [|c2 v].
  - cbn in H1. rewrite orb_false_r in H1. cbn [last].
    intros ->. discriminate.
  - change (last (c :: c2 :: v) x00) with (last (c2 :: v) x00).
    apply IH; [exact H2 | discriminate].
Qed.

Lemma crOK_dropCR (v t : list byte) : crOK (v ++ LF :: t) = true -> dropCR v = v.
Proof.
  intros H. destruct v as [|c v]; [reflexivity|]. unfold dropCR.
  rewrite eqb_diff; [reflexivity|]. apply (crOK_last _ _ H). discriminate.
Qed.

Lemma crOK_snoc (d : list byte) : crOK d = true -> crOK (d ++ [LF]) = true.
Proof.
  induction d as [|c0 d IH]; intros H; [reflexivity|].
  - change ((c0 :: d) ++ [LF]) with (c0 :: (d ++ [LF])). cbn [crOK] in *.
    apply andb_prop in H. destruct H as [H1 H2]. rewrite (IH H2), andb_true_r.
    destruct d as [|b d]; [|exact H1].
    rewrite orb_false_r in H1. now rewrite H1.
Qed.

(** ** The data lines of a message *)

Lemma min_le_min (n a b : nat) : (a <= b)%nat -> (Nat.min n a <= Nat.min n b)%nat.
Proof. lia. Qed.

Lemma runs_dataLines (n : nat) (e : error) (lid rest : list byte) :
  (2 <= n)%nat ->
  forall (fuel : nat) (data : list byte) (lb : option byte) (ev : Event),
    data <> [] -> last data x00 <> LF -> crOK (data ++ [LF]) = true ->
    (length data <= fuel)%nat ->
    (slen (Data ev) + len data + Z.of_nat (Nat.min n (length data)) < MaxEventDataSize)%Z ->
    exists m,
      (m <= length (dataLines fuel data))%nat
      /\ runs m (mkClientConn lid (mkReader n (dataLines fuel data ++ rest) lb e)) ev
           (mkClientConn lid (mkReader n rest (Some LF) e))
           (set_Data ev (append (Data ev) (data ++ [LF]))).
Proof.
  intros Hn. induction fuel as [|fuel IH]; intros data lb ev Hne Hlast Hcr Hfuel Hsz.
  - destruct data; [contradiction | simpl in Hfuel; lia].
  - destruct data as [|c0 data0]; [contradiction|].
    remember (c0 :: data0) as data eqn:Edata.
    assert (Hdl : dataLines (S fuel) data
                  = match IndexByte data LF with
                    | None => bytes "data: " ++ data ++ [LF]
                    | Some i => (bytes "data: " ++ firstn i data ++ [LF])
                                  ++ dataLines fuel (skipn (S i) data)
                    end) by (subst data; reflexivity).
    rewrite Hdl. clear Hdl.
    destruct (IndexByte data LF) as [i|] eqn:Ei.
    + destruct (IndexByte_Some_split data LF i Ei) as (Hsplit & Hseg & Hlen).
      set (seg := firstn i data) in *. set (data1 := skipn (S i) data) in *.
      assert (Hne1 : data1 <> []).
      { intros E1. apply Hlast. rewrite Hsplit, E1. apply last_snoc. }
      assert (Hlast1 : last data1 x00 <> LF).
      { intros E1. apply Hlast. rewrite Hsplit.
        change (seg ++ LF :: data1) with (seg ++ [LF] ++ data1).
        rewrite app_assoc, last_app_r by exact Hne1. exact E1. }
      assert (Hcr' : crOK (seg ++ LF :: (data1 ++ [LF])) = true).
      { rewrite Hsplit in Hcr. now rewrite <- app_assoc in Hcr. }
      assert (Hcr1 : crOK (data1 ++ [LF]) = true).
      { apply (crOK_suffix (seg ++ [LF])). now rewrite <- app_assoc. }
      assert (Hlen1 : length data = (length seg + S (length data1))%nat).
      { rewrite Hsplit at 1. rewrite length_app. reflexivity. }
      pose proof (min_le_min n (length seg) (length data) ltac:(lia)) as Hm0.
      pose proof (min_le_min n (length data1) (length data) ltac:(lia)) as Hm1.
      unfold len in Hsz.
      pose proof (iteration_data n e Hn lid seg (dataLines fuel data1 ++ rest) lb ev Hseg) as Hit.
      rewrite (crOK_dropCR _ _ Hcr') in Hit.
      specialize (Hit ltac:(unfold len; lia)).
      destruct (IH data1 (Some LF) (set_Data ev (append (Data ev) (seg ++ [LF]))))
        as (m & Hm & Hruns); try assumption; [lia | |].
      { cbn [Data set_Data]. rewrite slen_append. unfold len. rewrite length_app.
        simpl length. lia. }
      exists (S m). split.
      * rewrite !length_app. simpl. lia.
      * eapply runs_S.
        -- rewrite <- !app_assoc. exact Hit.
        -- cbn [Data set_Data] in Hruns. rewrite append_assoc in Hruns.
           replace (data ++ [LF]) with ((seg ++ [LF]) ++ data1 ++ [LF]); [exact Hruns|].
           rewrite Hsplit at 1. now rewrite <- !app_assoc.
    + exists 1%nat. split; [rewrite !length_app; simpl; lia|].
      apply runs_one. rewrite <- !app_assoc.
      pose proof (iteration_data n e Hn lid data rest lb ev
                    (IndexByte_None_absent data LF Ei) Hsz) as Hit.
      rewrite (crOK_dropCR data []) in Hit by exact Hcr.
      exact Hit.
Qed.

(** ** The field lines of a message *)

Section Message.
Variables (n : nat) (e : error).
Hypothesis Hn : (2 <= n)%nat.

Lemma runs_event_line (E lid rest : list byte) (lb : option byte) (ev : Event) :
  ~ In LF E ->
  exists m lb',
    (m <= length (if is_empty E then [] else bytes "event: " ++ E ++ [LF]))%nat
    /\ runs m
         (mkClientConn lid
            (mkReader n ((if is_empty E then [] else bytes "event: " ++ E ++ [LF]) ++ rest) lb e))
         ev
         (mkClientConn lid (mkReader n rest lb' e))
         (if is_empty E then ev else set_Event ev E).
Proof.
  intros HE. destruct E as [|c E]; cbn [is_empty].
  - exists 0%nat, lb. split; [lia | apply runs_O].
  - exists 1%nat, (Some LF). split; [rewrite !length_app; simpl; lia|].
    apply runs_one. rewrite <- !app_assoc. now apply iteration_event.
Qed.

Lemma runs_id_line (I lid rest : list byte) (lb : option byte) (ev : Event) :
  ~ In LF I ->
  exists m lb',
    (m <= length (if is_empty I then [] else bytes "id: " ++ I ++ [LF]))%nat
    /\ runs m
         (mkClientConn lid
            (mkReader n ((if is_empty I then [] else bytes "id: " ++ I ++ [LF]) ++ rest) lb e))
         ev
         (mkClientConn (if is_empty I then lid else I) (mkReader n rest lb' e))
         (if is_empty I then ev else set_ID ev I).
Proof.
  intros HI. destruct I as [|c I]; cbn [is_empty].
  - exists 0%nat, lb. split; [lia | apply runs_O].
  - exists 1%nat, (Some LF). split; [rewrite !length_app; simpl; lia|].
    apply runs_one. rewrite <- !app_assoc. now apply iteration_id.
Qed.

Lemma runs_retry_line (R : Z) (lid rest : list byte) (lb : option byte) (ev : Event) :
  (- 2 ^ 63 <= R < 2 ^ 63)%Z ->
  exists m lb',
    (m <= length (if (R =? 0)%Z then [] else bytes "retry: " ++ FormatInt R ++ [LF]))%nat
    /\ runs m
         (mkClientConn lid
            (mkReader n ((if (R =? 0)%Z then [] else bytes "retry: " ++ FormatInt R ++ [LF]) ++ rest)
               lb e))
         ev
         (mkClientConn lid (mkReader n rest lb' e))
         (if (R =? 0)%Z then ev else set_Retry ev R).
Proof.
  intros HR. destruct (R =? 0)%Z.
  - exists 0%nat, lb. split; [lia | apply runs_O].
  - exists 1%nat, (Some LF). split; [rewrite !length_app; simpl; lia|].
    apply runs_one. rewrite <- !app_assoc.
    pose proof (iteration_retry n e Hn lid (FormatInt R) rest lb ev (FormatInt_no_LF R)) as H.
    now rewrite ParseInt_FormatInt in H.
Qed.

(** The line ["data:"] that stands for a trailing newline, if any. *)
Lemma runs_last_data_line (b : bool) (lid rest : list byte) (lb : option byte) (ev : Event) :
  (slen (Data ev) < MaxEventDataSize)%Z ->
  exists m lb',
    (m <= length (if b then bytes "data:" ++ [LF] else []))%nat
    /\ runs m
         (mkClientConn lid (mkReader n ((if b then bytes "data:" ++ [LF] else []) ++ rest) lb e))
         ev
         (mkClientConn lid (mkReader n rest lb' e))
         (if b then set_Data ev (append (Data ev) [LF]) else ev).
Proof.
  intros Hsz. destruct b.
  - exists 1%nat, (Some LF). split; [simpl; lia|].
    apply runs_one. rewrite <- !app_assoc. now apply iteration_data_empty.
  - exists 0%nat, lb. split; [lia | apply runs_O].
Qed.

Lemma iteration_dispatch (lid rest x : list byte) (lb : option byte) (ev : Event) :
  Data ev = Some (x ++ [LF]) ->
  iteration (mkClientConn lid (mkReader n (LF :: rest) lb e)) ev
  = Return (mkClientConn lid (mkReader n rest (Some LF) e)) (set_Data ev (Some x)) None.
Proof.
  intros Hd. unfold iteration. cbn. rewrite Hd. cbn [slen].
  assert (Hl : (len (x ++ [LF]) =? 0)%Z = false).
  { apply Z.eqb_neq. unfold len. rewrite length_app. simpl. lia. }
  rewrite Hl, last_snoc, removelast_snoc. reflexivity.
Qed.
End Message.

(** ** The round trip *)

Lemma endsInLF_split (d : list byte) : endsInLF d = true -> d = stripLF d ++ [LF].
Proof.
  intros H. unfold stripLF. rewrite H. unfold endsInLF in H.
  apply andb_prop in H. destruct H as [H1 H2]. apply eqb_true in H2.
  destruct d as [|c d]; [discriminate|].
  rewrite <- H2. apply app_removelast_last. discriminate.
Qed.

Lemma endsInLF_not (d : list byte) : endsInLF d = false -> stripLF d = d.
Proof. intros H. unfold stripLF. now rewrite H. Qed.

Lemma stripLF_length (d : list byte) :
  length d = (length (stripLF d) + if endsInLF d then 1 else 0)%nat.
Proof.
  destruct (endsInLF d) eqn:E.
  - rewrite (endsInLF_split d E) at 1. now rewrite length_app.
  - rewrite (endsInLF_not d E). lia.
Qed.

Lemma stripLF_crOK (d : list byte) : crOK d = true -> crOK (stripLF d ++ [LF]) = true.
Proof.
  intros H. destruct (endsInLF d) eqn:E.
  - now rewrite <- (endsInLF_split d E).
  - rewrite (endsInLF_not d E). now apply crOK_snoc.
Qed.

Lemma append_fresh (buf : option (list byte)) (x : list byte) :
  x <> [] ->
  append (Data (match buf with
                | Some _ => set_Data zeroEvent (Some [])
                | None => zeroEvent
                end)) x = Some x.
Proof. intros Hx. destruct buf, x; try contradiction; reflexivity. Qed.

Lemma Receive_wire (n : nat) (err : error) (ev : Event) (lid rest : list byte)
    (lb : option byte) (buf : option (list byte)) :
  (2 <= n)%nat -> roundTrippable n ev ->
  Receive (mkClientConn lid (mkReader n (wire ev ++ rest) lb err)) buf
  = Some (ev, None,
          mkClientConn (if is_empty (ID ev) then lid else ID ev)
            (mkReader n rest (Some LF) err)).
Proof.
  intros Hn (HE & HI & HR & d & HD & Hne & Hlast & Hcr & Hsz).
  destruct ev as [E D I R]. cbn [Event_ Data ID Retry] in *. subst D.
  unfold Receive, wire, loop_fuel. cbn [Event_ Data ID Retry br pending].
  set (ev0 := match buf with Some _ => set_Data zeroEvent (Some []) | None => zeroEvent end).
  set (hE := if is_empty E then [] else bytes "event: " ++ E ++ [LF]).
  set (hI := if is_empty I then [] else bytes "id: " ++ I ++ [LF]).
  set (hR := if (R =? 0)%Z then [] else bytes "retry: " ++ FormatInt R ++ [LF]).
  set (dl := dataLines (length (stripLF d)) (stripLF d)).
  set (tl := if endsInLF d then bytes "data:" ++ [LF] else []).
  replace ((hE ++ hI ++ hR ++ (dl ++ tl) ++ [LF]) ++ rest)
    with (hE ++ hI ++ hR ++ dl ++ tl ++ LF :: rest)
    by (rewrite <- !app_assoc; reflexivity).
  pose proof (stripLF_length d) as Hlen. unfold len in Hsz.
  destruct (runs_event_line n err Hn E lid (hI ++ hR ++ dl ++ tl ++ LF :: rest) lb ev0 HE)
    as (m1 & lb1 & Hm1 & H1).
  fold hE in Hm1, H1. set (ev1 := if is_empty E then ev0 else set_Event ev0 E) in *.
  destruct (runs_id_line n err Hn I lid (hR ++ dl ++ tl ++ LF :: rest) lb1 ev1 HI)
    as (m2 & lb2 & Hm2 & H2).
  fold hI in Hm2, H2. set (ev2 := if is_empty I then ev1 else set_ID ev1 I) in *.
  set (lid2 := if is_empty I then lid else I) in *.
  destruct (runs_retry_line n err Hn R lid2 (dl ++ tl ++ LF :: rest) lb2 ev2 HR)
    as (m3 & lb3 & Hm3 & H3).
  fold hR in Hm3, H3. set (ev3 := if (R =? 0)%Z then ev2 else set_Retry ev2 R) in *.
  assert (Hd3 : Data ev3 = Data ev0).
  { subst ev3 ev2 ev1. destruct (R =? 0)%Z, (is_empty I), (is_empty E); reflexivity. }
  assert (Hd0 : slen (Data ev0) = 0%Z) by (subst ev0; destruct buf; reflexivity).
  destruct (runs_dataLines n err lid2 (tl ++ LF :: rest) Hn (length (stripLF d)) (stripLF d)
              lb3 ev3 Hne Hlast (stripLF_crOK d Hcr) (le_n _))
    as (m4 & Hm4 & H4).
  { rewrite Hd3, Hd0. unfold len.
    pose proof (min_le_min n (length (stripLF d)) (length d) ltac:(lia)). lia. }
  fold dl in Hm4, H4. rewrite Hd3 in H4.
  assert (Hap : append (Data ev0) (stripLF d ++ [LF]) = Some (stripLF d ++ [LF])).
  { unfold ev0. apply append_fresh. destruct (stripLF d); discriminate. }
  rewrite Hap in H4.
  set (ev4 := set_Data ev3 (Some (stripLF d ++ [LF]))) in *.
  destruct (runs_last_data_line n err Hn (endsInLF d) lid2 (LF :: rest) (Some LF) ev4)
    as (m5 & lb5 & Hm5 & H5).
  { subst ev4. cbn [Data set_Data slen]. unfold len. rewrite length_app. simpl length.
    assert (1 <= length (stripLF d))%nat by (destruct (stripLF d); [contradiction | simpl; lia]).
    assert (1 <= Nat.min n (length d))%nat by lia. destruct (endsInLF d); lia. }
  fold tl in Hm5, H5.
  set (ev5 := if endsInLF d then set_Data ev4 (append (Data ev4) [LF]) else ev4) in *.
  assert (Hd5 : Data ev5 = Some (d ++ [LF])).
  { subst ev5 ev4. destruct (endsInLF d) eqn:Ed; cbn [Data set_Data append].
    - now rewrite <- (endsInLF_split d Ed).
    - now rewrite (endsInLF_not d Ed). }
  pose proof (runs_trans _ _ _ _ _ _ _ _ H1
                (runs_trans _ _ _ _ _ _ _ _ H2
                   (runs_trans _ _ _ _ _ _ _ _ H3
                      (runs_trans _ _ _ _ _ _ _ _ H4 H5)))) as Hruns.
  set (m := (m1 + (m2 + (m3 + (m4 + m5))))%nat) in *.
  replace (S (length (hE ++ hI ++ hR ++ dl ++ tl ++ LF :: rest)))
    with (m + S (length (hE ++ hI ++ hR ++ dl ++ tl ++ LF :: rest) - m))%nat
    by (rewrite !length_app; subst m; simpl length; lia).
  rewrite (runs_loop _ _ _ _ _ Hruns).
  rewrite (Receive_loop_return _ _ _ _ _ _ (iteration_dispatch n err Hn lid2 rest d lb5 ev5 Hd5)).
  f_equal. f_equal. f_equal.
  subst ev5 ev4 ev3 ev2 ev1 ev0.
  destruct (R =? 0)%Z eqn:ER; [apply Z.eqb_eq in ER; subst R|];
    destruct (endsInLF d), (is_empty I) eqn:EI, (is_empty E) eqn:EE, buf;
    destruct I; try discriminate; destruct E; try discriminate; reflexivity.
Qed.

Lemma roundTrippable_not_zero (size : nat) (ev : Event) :
  roundTrippable size ev -> IsZero ev = false.
Proof.
  intros (_ & _ & _ & d & HD & _). unfold IsZero. rewrite HD. cbn [is_nil].
  now rewrite andb_false_r.
Qed.

Lemma decodeAll_wire (size : nat) (ev : Event) :
  roundTrippable (Nat.max size minReadBufferSize) ev ->
  decodeAll size (wire ev) = Some ([ev], io_EOF).
Proof.
  intros H. unfold decodeAll. cbn [receiveAll]. unfold NewClientConn, NewReaderSize.
  pose proof (Receive_wire (Nat.max size minReadBufferSize) io_EOF ev [] [] None None
                (NewReaderSize_ge size) H) as HR.
  rewrite app_nil_r in HR. rewrite HR.
  assert (Hw : exists k, length (wire ev) = S k).
  { unfold wire. rewrite !length_app. simpl length. exists (length (wire ev) - 1)%nat.
    unfold wire. rewrite !length_app. simpl length. lia. }
  destruct Hw as [k ->]. cbn [receiveAll]. unfold Receive, loop_fuel. cbn [br pending length].
  rewrite (Receive_loop_return _ _ _ _ _ _ (iteration_end _ _ _ _ _)). reflexivity.
Qed.

(** C1 (as amended): a record whose event type and id hold no line feed,
    whose retry value fits an [int], and whose payload is present, not
    empty, not a lone line feed, does not end in two line feeds, holds no
    carriage return right before a line feed or at its end, and passes
    the size check of the reader in use, is not the zero record; [Send]
    writes it, and decoding the bytes written gives exactly that record,
    equal in all four fields: as the result of the first [Receive],
    whatever buffer is passed, and as the only event of the receiving
    loop. *)
Theorem C1_round_trip (size : nat) (ev : Event) (buf : option (list byte)) :
  roundTrippable (Nat.max size minReadBufferSize) ev ->
  IsZero ev = false
  /\ roundTrips size ev
  /\ exists b c,
       encode ev = Some b
       /\ Receive (NewClientConn (NewReaderSize b io_EOF size)) buf = Some (ev, None, c).
Proof.
  intros H. pose proof (roundTrippable_not_zero _ _ H) as Hz.
  split; [exact Hz|]. split.
  - exists (wire ev). split; [now apply encode_wire | now apply decodeAll_wire].
  - exists (wire ev). eexists. split; [now apply encode_wire|].
    unfold NewClientConn, NewReaderSize.
    pose proof (Receive_wire (Nat.max size minReadBufferSize) io_EOF ev [] [] None buf
                  (NewReaderSize_ge size) H) as HR.
    rewrite app_nil_r in HR. exact HR.
Qed.

Lemma weirdEvent_roundTrippable : roundTrippable (Nat.max defaultBufSize minReadBufferSize) weirdEvent.
Proof.
  unfold roundTrippable, weirdEvent. cbn [Event_ ID Retry Data].
  split; [vm_compute; intuition discriminate|].
  split; [vm_compute; intuition discriminate|].
  split; [lia|].
  eexists. split; [reflexivity|].
  split; [vm_compute; discriminate|].
  split; [vm_compute; discriminate|].
  split; reflexivity.
Defined.

Lemma C1_round_trip_witness :
  roundTrippable (Nat.max defaultBufSize minReadBufferSize) weirdEvent
  /\ IsZero weirdEvent = false
  /\ roundTrips defaultBufSize weirdEvent
  /\ exists b c,
       encode weirdEvent = Some b
       /\ Receive (NewClientConn (NewReaderSize b io_EOF defaultBufSize)) None
          = Some (weirdEvent, None, c).
Proof.
  split; [exact weirdEvent_roundTrippable|].
  apply (C1_round_trip defaultBufSize weirdEvent None). exact weirdEvent_roundTrippable.
Defined.

(** A record that is not the zero record and does not come back: one
    with an id and no data.  [Send] writes ["id: a\n\n"], a group
    without data, for which [Receive] returns no record. *)
Lemma C1_round_trip_counterexample :
  IsZero (mkEvent [] None (bytes "a") 0) = false
  /\ encode (mkEvent [] None (bytes "a") 0) = Some (bytes "id: a" ++ [LF; LF])
  /\ decodeAll defaultBufSize (bytes "id: a" ++ [LF; LF]) = Some ([], io_EOF)
  /\ ~ (forall ev, IsZero ev = false -> roundTrips defaultBufSize ev).
Proof.
  split; [reflexivity|]. split; [reflexivity|]. split; [reflexivity|].
  intros H. destruct (H (mkEvent [] None (bytes "a") 0) eq_refl) as (b & Hb & Hd).
  vm_compute in Hb. injection Hb as <-. vm_compute in Hd. discriminate.
Qed.

(** Why the round trip needs its conditions: a carriage return before a
    line feed is taken by [ReadLine] as part of the line end; a line feed
    in an id ends the [id] line; a payload at the size limit is refused. *)
Example round_trip_loses_CR :
  encode (mkEvent [] (Some (bytes "a" ++ [CR; LF] ++ bytes "b")) [] 0)
  = Some (bytes "data: a" ++ [CR; LF] ++ bytes "data: b" ++ [LF; LF])
  /\ decodeAll defaultBufSize (bytes "data: a" ++ [CR; LF] ++ bytes "data: b" ++ [LF; LF])
     = Some ([mkEvent [] (Some (bytes "a" ++ [LF] ++ bytes "b")) [] 0], io_EOF).
Proof. vm_compute. split; reflexivity. Qed.

Example round_trip_cuts_id :
  encode (mkEvent [] (Some (bytes "x")) (bytes "a" ++ [LF] ++ bytes "b") 0)
  = Some (bytes "id: a" ++ [LF] ++ bytes "b" ++ [LF] ++ bytes "data: x" ++ [LF; LF])
  /\ decodeAll defaultBufSize
       (bytes "id: a" ++ [LF] ++ bytes "b" ++ [LF] ++ bytes "data: x" ++ [LF; LF])
     = Some ([mkEvent [] (Some (bytes "x")) (bytes "a") 0], io_EOF).
Proof. vm_compute. split; reflexivity. Qed.

(** ** The tests of the repository *)

Example TestServerConnKeepalive :
  encodeAll [zeroEvent; zeroEvent] = Some (bytes ":" ++ [LF; LF] ++ bytes ":" ++ [LF; LF]).
Proof. reflexivity. Qed.

Example TestServerConnID :
  encodeAll [mkEvent [] None (bytes "a") 0] = Some (bytes "id: a" ++ [LF; LF]).
Proof. reflexivity. Qed.

Example TestServerConnEvent :
  encodeAll [mkEvent (bytes "a") None [] 0] = Some (bytes "event: a" ++ [LF; LF]).
Proof. reflexivity. Qed.

Example TestServerConnRetry :
  encodeAll [mkEvent [] None [] 1000] = Some (bytes "retry: 1000" ++ [LF; LF]).
Proof. reflexivity. Qed.

Example TestServerConnData :
  encodeAll [dataEvent "message here"] = Some (bytes "data: message here" ++ [LF; LF]).
Proof. reflexivity. Qed.

Example TestServerDataLeadingSpace :
  encodeAll [mkEvent [] (Some (bytes " leading space" ++ [LF] ++ bytes " second")) [] 0]
  = Some (bytes "data:  leading space" ++ [LF] ++ bytes "data:  second" ++ [LF; LF]).
Proof. reflexivity. Qed.

Example TestServerDataMultiline :
  encodeAll [mkEvent [] (Some (bytes "multi" ++ [LF] ++ bytes "line" ++ [LF] ++ bytes "message")) [] 0]
  = Some (bytes "data: multi" ++ [LF] ++ bytes "data: line" ++ [LF]
          ++ bytes "data: message" ++ [LF; LF]).
Proof. reflexivity. Qed.

Example TestServerWeirdEvent :
  encodeAll [weirdEvent]
  = Some (bytes "event:  also leading space" ++ [LF] ++ bytes "id:  4" ++ [LF]
          ++ bytes "retry: 1000" ++ [LF] ++ bytes "data:   leading spaces" ++ [LF]
          ++ bytes "data: multiline" ++ [LF] ++ bytes "data: and ends with a newline" ++ [LF]
          ++ bytes "data:" ++ [LF; LF]).
Proof. reflexivity. Qed.

Example TestServerFlushes :
  option_map (fun r => Flushed (w (fst r)))
    (Send (mkServerConn (mkWriter [] false true None)) zeroEvent) = Some true.
Proof. reflexivity. Qed.

(** The end-to-end test: ["hello"], ten keepalives, then [weirdEvent]. *)
Example TestServerClientEndToEnd :
  match encodeAll ([dataEvent "hello"] ++ repeat zeroEvent 10 ++ [weirdEvent]) with
  | Some b => decodeAll defaultBufSize b
  | None => None
  end = Some ([dataEvent "hello"; weirdEvent], io_EOF).
Proof. vm_compute. reflexivity. Qed.

(** ** Termination: the fuel is never used up *)

Lemma later_refl (r : Reader) : later r r.
Proof. unfold later. auto. Qed.

Lemma later_trans (r2 r1 r : Reader) : later r2 r1 -> later r1 r -> later r2 r.
Proof. unfold later. intros (A1 & B1 & C1) (A2 & B2 & C2). repeat split; try congruence; lia. Qed.

Lemma later_sound (r1 r : Reader) : later r1 r -> sound r -> sound r1.
Proof. unfold later, sound. intros (A & B & _) (H1 & H2). rewrite A, B. auto. Qed.

Lemma ReadByte_later (r : Reader) :
  forall b err r1, ReadByte r = (b, err, r1) ->
    later r1 r
    /\ (err = None -> potential r1 = length (pending r) /\ lastByte r1 <> None).
Proof.
  intros b err r1. unfold ReadByte, later, potential.
  destruct (pending r) as [|c s] eqn:E; intros H; injection H as <- <- <-.
  - rewrite E. split; [repeat split; lia | discriminate].
  - cbn. split; [repeat split; lia|]. intros _. split; [lia | discriminate].
Qed.

Lemma UnreadByte_later (r : Reader) : later (UnreadByte r) r.
Proof.
  unfold UnreadByte, later, potential.
  destruct (lastByte r) eqn:E; cbn; rewrite ?E; repeat split; lia.
Qed.

Lemma last_of_some (line : list byte) (old : option byte) :
  line <> [] -> last_of line old <> None.
Proof. destruct line; [contradiction | discriminate]. Qed.

Lemma potential_set (r : Reader) (s : list byte) (lb : option byte) :
  potential (set_pending r s lb) = (length s + match lb with Some _ => 1 | None => 0 end)%nat.
Proof. reflexivity. Qed.

Lemma last_of_weight (line : list byte) (old : option byte) :
  (match last_of line old with Some _ => 1 | None => 0 end
   <= length line + match old with Some _ => 1 | None => 0 end)%nat.
Proof. destruct line, old; simpl; lia. Qed.

(** What [ReadSlice] returns, case by case. *)
Lemma ReadSlice_cases (r : Reader) (delim : byte) :
  sound r ->
  forall line err r1, ReadSlice r delim = (line, err, r1) ->
    later r1 r
    /\ (length (pending r1) + length line = length (pending r))%nat
    /\ lastByte r1 = last_of line (lastByte r)
    /\ (err = None -> line <> [])
    /\ (err = Some bufio_ErrBufferFull -> length line = buf_size r).
Proof.
  intros [Hsz He] line err r1. unfold ReadSlice.
  set (window := firstn (buf_size r) (pending r)).
  assert (Hw : length window = Nat.min (buf_size r) (length (pending r)))
    by apply length_firstn.
  destruct (IndexByte window delim) as [i|] eqn:Ei.
  - cbv zeta.
    destruct (IndexByte_Some_split _ _ _ Ei) as (Hs & _ & Hl).
    assert (Hi : (i < length window)%nat).
    { rewrite Hs, length_app. simpl. lia. }
    assert (Hfl : length (firstn (S i) (pending r)) = S i) by (rewrite length_firstn; lia).
    assert (Hsl : length (skipn (S i) (pending r)) = (length (pending r) - S i)%nat)
      by apply length_skipn.
    remember (firstn (S i) (pending r)) as ln eqn:Eln.
    remember (skipn (S i) (pending r)) as rs eqn:Ers.
    intros H. injection H as <- <- <-.
    pose proof (last_of_weight ln (lastByte r)) as Hlw.
    unfold later, potential. cbn [set_pending buf_size rd_err pending lastByte].
    repeat split; try lia; try discriminate.
    intros _ E. rewrite E in Hfl. discriminate.
  - assert (Hsl : length (skipn (buf_size r) (pending r))
                  = (length (pending r) - buf_size r)%nat) by apply length_skipn.
    remember (skipn (buf_size r) (pending r)) as rs eqn:Ers.
    clearbody window.
    destruct (buf_size r <=? length window)%nat eqn:El.
    + apply Nat.leb_le in El. intros H. injection H as <- <- <-.
      pose proof (last_of_weight window (lastByte r)) as Hlw.
      unfold later, potential. cbn [set_pending buf_size rd_err pending lastByte].
      repeat split; try lia; try discriminate.
    + apply Nat.leb_gt in El. intros H. injection H as <- <- <-.
      pose proof (last_of_weight window (lastByte r)) as Hlw.
      unfold later, potential. cbn [set_pending buf_size rd_err pending lastByte length].
      repeat split; try lia; try discriminate.
      intros E. injection E as E. contradiction.
Qed.


(** What [ReadLine] returns: a later state; a shorter stream when the
    line goes on; a byte to unread when it did not fail. *)
Lemma ReadLine_later (r : Reader) :
  sound r ->
  forall line isPrefix err r1, ReadLine r = (line, isPrefix, err, r1) ->
    later r1 r
    /\ (isPrefix = true -> (length (pending r1) < length (pending r))%nat)
    /\ (err = None -> lastByte r1 <> None).
Proof.
  intros Hs line isPrefix err r1. unfold ReadLine.
  destruct (ReadSlice r LF) as [[l e0] r0] eqn:E.
  destruct (ReadSlice_cases r LF Hs l e0 r0 E) as (Hl & Hlen & Hlb & Hnil & Hfull).
  destruct Hs as [Hsz He].
  assert (Hsome : l <> [] -> lastByte r0 <> None).
  { intros Hne. rewrite Hlb. now apply last_of_some. }
  assert (Hfull' : e0 = Some bufio_ErrBufferFull ->
                   l <> [] /\ (length (pending r0) + 2 <= length (pending r))%nat).
  { intros Ef. specialize (Hfull Ef). split; [intros ->; simpl in Hfull; lia | lia]. }
  clear E Hlb Hfull.
  assert (Hplain : forall line', (e0 = None -> l <> []) ->
            (line', false, match l with [] => e0 | _ :: _ => None end, r0)
            = (line, isPrefix, err, r1) ->
            later r1 r
            /\ (isPrefix = true -> (length (pending r1) < length (pending r))%nat)
            /\ (err = None -> lastByte r1 <> None)).
  { intros line' Hor H. injection H as <- <- <- <-.
    split; [exact Hl|]. split; [discriminate|].
    destruct l as [|c l]; [intros E0; now destruct (Hor E0) | intros _; apply Hsome; discriminate]. }
  assert (Hother : e0 <> Some bufio_ErrBufferFull ->
            match l with
            | [] => ([], false, e0, r0)
            | _ :: _ =>
                if Byte.eqb (last l x00) LF
                then
                  let l1 := removelast l in
                  match l1 with
                  | _ :: _ =>
                      if Byte.eqb (last l1 x00) CR
                      then (removelast l1, false, None, r0)
                      else (l1, false, None, r0)
                  | [] => (l1, false, None, r0)
                  end
                else (l, false, None, r0)
            end = (line, isPrefix, err, r1) ->
            later r1 r
            /\ (isPrefix = true -> (length (pending r1) < length (pending r))%nat)
            /\ (err = None -> lastByte r1 <> None)).
  { intros _. destruct l as [|c l]; [apply (Hplain [] Hnil)|].
    destruct (Byte.eqb (last (c :: l) x00) LF); cbv zeta;
      [destruct (removelast (c :: l)) as [|c' l'];
       [|destruct (Byte.eqb (last (c' :: l') x00) CR)]|];
      apply (Hplain _ Hnil). }
  destruct e0 as [e1|]; [|apply Hother; discriminate].
  destruct e1; try (apply Hother; discriminate).
  destruct (Hfull' eq_refl) as [Hne Hshort].
  destruct l as [|c l]; [contradiction|].
  destruct (Byte.eqb (last (c :: l) x00) CR).
  - intros H. injection H as <- <- <- <-.
    destruct Hl as (A & B & C). unfold later, potential in *.
    cbn [set_pending buf_size rd_err pending lastByte length].
    specialize (Hsome Hne). destruct (lastByte r0); [|contradiction].
    repeat split; try assumption; try lia; try discriminate.
  - intros H. injection H as <- <- <- <-.
    split; [exact Hl|]. split; [intros _; lia | intros _; now apply Hsome].
Qed.

Lemma eatLine_returns (fuel : nat) :
  forall r, sound r -> (length (pending r) < fuel)%nat ->
    exists err r1,
      eatLine fuel r = Some (err, r1)
      /\ later r1 r /\ (err = None -> lastByte r1 <> None).
Proof.
  induction fuel as [|fuel IH]; intros r Hs Hf; [lia|].
  cbn [eatLine]. destruct (ReadLine r) as [[[line isPrefix] err] r1] eqn:E.
  destruct (ReadLine_later r Hs _ _ _ _ E) as (Hl & Hp & Hb).
  destruct err as [e|];
    [exists (Some e), r1; split; [reflexivity|]; split; [exact Hl | discriminate]|].
  destruct isPrefix.
  - destruct (IH r1 (later_sound _ _ Hl Hs)) as (err & r2 & H2 & Hl2 & Hb2).
    { specialize (Hp eq_refl). lia. }
    exists err, r2. split; [exact H2|]. split; [eapply later_trans; eassumption | exact Hb2].
  - exists None, r1. split; [reflexivity|]. split; [exact Hl | exact Hb].
Qed.

Lemma readData_returns (fuel : nat) :
  forall r data, sound r -> (length (pending r) < fuel)%nat ->
    exists data1 err r1,
      readData fuel r data = Some (data1, err, r1) /\ later r1 r.
Proof.
  induction fuel as [|fuel IH]; intros r data Hs Hf; [lia|].
  cbn [readData]. destruct (ReadLine r) as [[[piece isPrefix] err] r1] eqn:E.
  destruct (ReadLine_later r Hs _ _ _ _ E) as (Hl & Hp & Hb).
  destruct err as [e|]; [exists data, (Some e), r1; split; [reflexivity | exact Hl]|].
  destruct (MaxEventDataSize <=? _)%Z; [eexists _, _, r1; split; [reflexivity | exact Hl]|].
  destruct isPrefix.
  - destruct (IH r1 (append data piece) (later_sound _ _ Hl Hs)) as (d2 & err & r2 & H2 & Hl2).
    { specialize (Hp eq_refl). lia. }
    exists d2, err, r2. split; [exact H2 | eapply later_trans; eassumption].
  - eexists _, _, r1. split; [reflexivity | exact Hl].
Qed.

Lemma collectFragments_returns (fuel : nat) :
  forall r full, sound r -> (length (pending r) < fuel)%nat ->
    exists s err r1,
      collectFragments fuel r LF full = Some (s, err, r1)
      /\ later r1 r /\ (err = None -> lastByte r1 <> None).
Proof.
  induction fuel as [|fuel IH]; intros r full Hs Hf; [lia|].
  cbn [collectFragments]. destruct (ReadSlice r LF) as [[frag e0] r1] eqn:E.
  destruct (ReadSlice_cases r LF Hs _ _ _ E) as (Hl & Hlen & Hlb & Hnil & Hfull).
  destruct e0 as [e1|].
  - destruct e1;
      try (eexists _, _, r1; split; [reflexivity|]; split; [exact Hl | discriminate]).
    specialize (Hfull eq_refl). destruct Hs as [Hsz He].
    destruct (IH r1 (full ++ frag) (later_sound _ _ Hl (conj Hsz He)))
      as (s & err & r2 & H2 & Hl2 & Hb2); [lia|].
    exists s, err, r2. split; [exact H2|]. split; [eapply later_trans; eassumption | exact Hb2].
  - eexists _, _, r1. split; [reflexivity|]. split; [exact Hl|].
    intros _. rewrite Hlb. apply last_of_some. now apply Hnil.
Qed.

Lemma readFieldName_later (name : gostring) :
  forall r ok err r1, readFieldName name r = (ok, err, r1) -> later r1 r.
Proof.
  induction name as [|c name IH]; intros r ok err r1; cbn [readFieldName].
  - destruct (ReadByte r) as [[b e0] r0] eqn:E0.
    destruct (ReadByte_later r _ _ _ E0) as [H0 _].
    destruct e0; [intros H; injection H as _ _ <-; exact H0|].
    destruct (negb (Byte.eqb b COLON)).
    { intros H. injection H as _ _ <-.
      eapply later_trans; [apply UnreadByte_later | exact H0]. }
    destruct (ReadByte r0) as [[b2 e2] r2] eqn:E2.
    destruct (ReadByte_later r0 _ _ _ E2) as [H2 _].
    assert (H02 : later r2 r) by (eapply later_trans; eassumption).
    destruct e2; [intros H; injection H as _ _ <-; exact H02|].
    destruct (negb (Byte.eqb b2 SP)); intros H; injection H as _ _ <-; [|exact H02].
    eapply later_trans; [apply UnreadByte_later | exact H02].
  - destruct (ReadByte r) as [[b e0] r0] eqn:E0.
    destruct (ReadByte_later r _ _ _ E0) as [H0 _].
    destruct e0; [intros H; injection H as _ _ <-; exact H0|].
    destruct (negb (Byte.eqb b c)); [intros H; injection H as _ _ <-; exact H0|].
    destruct (Byte.eqb b LF).
    { intros H. injection H as _ _ <-.
      eapply later_trans; [apply UnreadByte_later | exact H0]. }
    intros H. eapply later_trans; [eapply IH; exact H | exact H0].
Qed.

Lemma readValue_later (c : ClientConn) (ev : Event) (name : gostring)
    (k : ClientConn -> Event -> gostring -> flow) :
  sound (br c) ->
  (forall c' ev' v, exists c2 ev2, k c' ev' v = Break c2 ev2 /\ br c2 = br c') ->
  flow_later (br c) (readValue c ev name k).
Proof.
  intros Hs Hk. unfold readValue.
  destruct (readFieldName name (br c)) as [[ok err] r1] eqn:E1.
  pose proof (readFieldName_later name _ _ _ _ E1) as H1.
  destruct err as [e|]; [exact I|].
  destruct ok; cbn [negb]; [|exact H1].
  unfold ReadString.
  destruct (collectFragments_returns (S (length (pending r1))) r1 []
              (later_sound _ _ H1 Hs) (Nat.lt_succ_diag_r _))
    as (s & err & r2 & H2 & Hl2 & _).
  rewrite H2. destruct err as [e|]; [exact I|].
  destruct (Hk (with_br c (UnreadByte r2)) ev (TrimSuffixLF s)) as (c2 & ev2 & -> & Hbr).
  cbn [flow_later]. rewrite Hbr. cbn [with_br br].
  eapply later_trans; [apply UnreadByte_later|]. eapply later_trans; eassumption.
Qed.

Lemma dispatch_later (b : byte) (c : ClientConn) (ev : Event) :
  sound (br c) -> lastByte (br c) <> None ->
  flow_later (br c) (dispatch b c ev).
Proof.
  intros Hs Hlb. unfold dispatch.
  destruct (Byte.eqb b LF).
  { destruct (slen (Data ev) =? 0)%Z; [split; [apply later_refl | exact Hlb]|].
    destruct (Data ev) as [d|]; [destruct (Byte.eqb (last d x00) LF)|]; exact I. }
  destruct (Byte.eqb b x65).
  { apply readValue_later; [exact Hs | intros; eauto]. }
  destruct (Byte.eqb b x64).
  { destruct (readFieldName (bytes "ata") (br c)) as [[ok err] r1] eqn:E1.
    pose proof (readFieldName_later _ _ _ _ _ E1) as H1.
    destruct err as [e|]; [exact I|].
    destruct ok; cbn [negb]; [|exact H1].
    destruct (readData_returns (loop_fuel r1) r1 (Data ev)
                (later_sound _ _ H1 Hs) (Nat.lt_succ_diag_r _))
      as (data & err & r2 & H2 & Hl2).
    rewrite H2. destruct err as [e|]; [exact I|].
    cbn [flow_later with_br br].
    eapply later_trans; [apply UnreadByte_later|]. eapply later_trans; eassumption. }
  destruct (Byte.eqb b x69).
  { apply readValue_later; [exact Hs | intros; eauto]. }
  destruct (Byte.eqb b x72).
  { apply readValue_later; [exact Hs|].
    intros c' ev' v. destruct (ParseInt v); eauto. }
  destruct (Byte.eqb b xef); [|apply later_refl].
  destruct (ReadByte (br c)) as [[b1 e1] r1] eqn:E1.
  destruct (ReadByte_later _ _ _ _ E1) as [H1 _].
  destruct e1 as [e|]; [exact I|].
  destruct (negb (Byte.eqb b1 xbb)); [exact H1|].
  destruct (ReadByte r1) as [[b2 e2] r2] eqn:E2.
  destruct (ReadByte_later _ _ _ _ E2) as [H2 Hb2].
  destruct e2 as [e|]; [exact I|].
  assert (H12 : later r2 (br c)) by (eapply later_trans; eassumption).
  destruct (negb (Byte.eqb b2 xbf)); [exact H12|].
  split; [exact H12 | now apply Hb2].
Qed.

(** An iteration of the loop either returns or goes on with a shorter
    stream; it neither stops in the middle nor runs out of fuel. *)
Lemma iteration_progress (c : ClientConn) (ev : Event) :
  sound (br c) ->
  match iteration c ev with
  | Continue c1 _ =>
      sound (br c1) /\ (length (pending (br c1)) < length (pending (br c)))%nat
  | Return _ _ _ => True
  | Break _ _ | OutOfFuel => False
  end.
Proof.
  intros Hs. unfold iteration.
  destruct (ReadByte (br c)) as [[b err] r1] eqn:E1.
  destruct (ReadByte_later _ _ _ _ E1) as [H1 Hb1].
  destruct err as [e|]; [exact I|].
  destruct (Hb1 eq_refl) as [Hpot Hlb].
  pose proof (dispatch_later b (with_br c r1) ev) as Hd. cbn [with_br br] in Hd.
  specialize (Hd (later_sound _ _ H1 Hs) Hlb).
  assert (Hshort : forall r2, later r2 r1 -> lastByte r2 <> None ->
                     sound r2 /\ (length (pending r2) < length (pending (br c)))%nat).
  { intros r2 Hl2 Hlb2. split; [eapply later_sound; [eapply later_trans; eassumption | exact Hs]|].
    destruct Hl2 as (_ & _ & Hp). unfold potential in Hp, Hpot.
    destruct (lastByte r2); [|contradiction]. destruct (lastByte r1); [|contradiction]. lia. }
  destruct (dispatch b _ ev) as [c1 ev1|c1 ev1|c1 ev1 err|]; cbn [flow_later] in Hd.
  - destruct (eatLine_returns (loop_fuel (br c1)) (br c1)
                (later_sound _ _ Hd (later_sound _ _ H1 Hs)) (Nat.lt_succ_diag_r _))
      as (err & r2 & H2 & Hl2 & Hlb2).
    rewrite H2. destruct err as [e|]; [exact I|]. cbn [with_br br].
    apply Hshort; [eapply later_trans; eassumption | now apply Hlb2].
  - destruct Hd as [Hd Hlb1]. now apply Hshort.
  - exact I.
  - exact Hd.
Qed.

Lemma Receive_loop_returns (fuel : nat) :
  forall c ev, sound (br c) -> (length (pending (br c)) < fuel)%nat ->
    exists ev1 err c1, Receive_loop fuel c ev = Some (ev1, err, c1).
Proof.
  induction fuel as [|fuel IH]; intros c ev Hs Hf; [lia|].
  cbn [Receive_loop]. pose proof (iteration_progress c ev Hs) as Hp.
  destruct (iteration c ev) as [c1 ev1|c1 ev1|c1 ev1 err|]; try contradiction.
  - destruct Hp as [Hs1 Hlt]. apply IH; [exact Hs1 | lia].
  - eauto.
Qed.

(** [Receive] always returns: the fuel of the loops is never used up. *)
Theorem Receive_returns (c : ClientConn) (buf : option (list byte)) :
  sound (br c) -> exists ev err c1, Receive c buf = Some (ev, err, c1).
Proof.
  intros Hs. unfold Receive. apply Receive_loop_returns; [exact Hs|].
  unfold loop_fuel. lia.
Qed.

Lemma NewReaderSize_sound (s : list byte) (size : nat) : sound (NewReaderSize s io_EOF size).
Proof. split; [apply NewReaderSize_ge | discriminate]. Qed.

(** [Send] always returns, too. *)
Lemma sendLines_returns (fuel : nat) :
  forall s data, (length data <= fuel)%nat -> sendLines fuel s data <> None.
Proof.
  induction fuel as [|fuel IH]; intros s data Hf.
  - destruct data; [discriminate | simpl in Hf; lia].
  - destruct data as [|c data]; [discriminate|]. cbn [sendLines].
    destruct (IndexByte (c :: data) LF) as [i|] eqn:Ei.
    + destruct (Fprintf s (bytes "data: " ++ _)) as [s1 oe].
      destruct oe as [e|]; [discriminate|].
      apply IH. rewrite length_skipn. simpl in *. lia.
    + destruct (Fprintf s (bytes "data: " ++ _)) as [s1 oe].
      destruct oe as [e|]; [discriminate|].
      apply IH. simpl. lia.
Qed.

Theorem Send_returns (s : ServerConn) (ev : Event) : Send s ev <> None.
Proof.
  unfold Send, Send_body. destruct (IsZero ev); [destruct (Fprintf s _); discriminate|].
  destruct (if negb (is_empty (Event_ ev)) then _ else _) as [s1 [e|]]; [discriminate|].
  destruct (if negb (is_empty (ID ev)) then _ else _) as [s2 [e|]]; [discriminate|].
  destruct (if negb (Retry ev =? 0)%Z then _ else _) as [s3 [e|]]; [discriminate|].
  set (data := match Data ev with Some d => d | None => [] end).
  set (data' := if negb (is_empty data) && Byte.eqb (last data x00) LF
                then removelast data else data).
  pose proof (sendLines_returns (length data') s3 data' (le_n _)) as H.
  destruct (sendLines (length data') s3 data') as [[s4 [e|]]|]; [discriminate | | contradiction].
  destruct (if negb (is_empty data) && Byte.eqb (last data x00) LF
            then Fprintf s4 _ else _) as [s5 [e|]]; [discriminate|].
  destruct (Fprintf s5 [LF]); discriminate.
Qed.

(** ** More fuel changes nothing *)

Lemma Receive_loop_mono (f : nat) :
  forall c ev r, Receive_loop f c ev = Some r ->
    forall k, Receive_loop (f + k) c ev = Some r.
Proof.
  induction f as [|f IH]; intros c ev r H k; [discriminate|].
  change (S f + k)%nat with (S (f + k)). cbn [Receive_loop] in *.
  destruct (iteration c ev) as [c1 ev1|c1 ev1|c1 ev1 err|]; try discriminate.
  - now apply IH.
  - exact H.
Qed.

Lemma Receive_loop_enough (f f' : nat) (c : ClientConn) (ev : Event) :
  sound (br c) -> (length (pending (br c)) < f)%nat -> (length (pending (br c)) < f')%nat ->
  Receive_loop f c ev = Receive_loop f' c ev.
Proof.
  intros Hs Hf Hf'.
  destruct (Receive_loop_returns (S (length (pending (br c)))) c ev Hs (Nat.lt_succ_diag_r _))
    as (ev1 & err & c1 & H).
  pose proof (Receive_loop_mono _ _ _ _ H (f - S (length (pending (br c))))) as H1.
  pose proof (Receive_loop_mono _ _ _ _ H (f' - S (length (pending (br c))))) as H2.
  replace (S (length (pending (br c))) + (f - S (length (pending (br c)))))%nat with f in H1 by lia.
  replace (S (length (pending (br c))) + (f' - S (length (pending (br c)))))%nat with f' in H2 by lia.
  congruence.
Qed.

(** One iteration that goes on, seen from [Receive]. *)
Lemma Receive_skip (c c1 : ClientConn) (buf : option (list byte)) :
  sound (br c) ->
  iteration c (match buf with Some _ => set_Data zeroEvent (Some []) | None => zeroEvent end)
  = Continue c1 (match buf with Some _ => set_Data zeroEvent (Some []) | None => zeroEvent end) ->
  Receive c buf = Receive c1 buf.
Proof.
  intros Hs Hit. unfold Receive.
  set (ev0 := match buf with Some _ => set_Data zeroEvent (Some []) | None => zeroEvent end) in *.
  pose proof (iteration_progress c ev0 Hs) as Hp. rewrite Hit in Hp. destruct Hp as [Hs1 Hlt].
  unfold loop_fuel at 1. rewrite (Receive_loop_continue _ _ _ _ _ Hit).
  apply Receive_loop_enough; [exact Hs1 | lia | unfold loop_fuel; lia].
Qed.

(** ** Dispatch at a blank line *)

Lemma atBlankLine_pending (c : ClientConn) :
  atBlankLine c = true ->
  exists rest,
    pending (br c) = LF :: rest
    /\ ReadByte (br c) = (LF, None, set_pending (br c) rest (Some LF))
    /\ afterByte c = with_br c (set_pending (br c) rest (Some LF)).
Proof.
  unfold atBlankLine, afterByte, ReadByte.
  destruct (pending (br c)) as [|b rest]; [discriminate|].
  cbn [is_nil andb]. intros Hb. apply eqb_true in Hb. subst b.
  exists rest. repeat split.
Qed.

(** A blank line when no data is held: the loop goes on, the event in
    progress as it was. *)
Lemma blank_line_continue (c : ClientConn) (ev : Event) :
  atBlankLine c = true -> slen (Data ev) = 0%Z ->
  iteration c ev = Continue (afterByte c) ev.
Proof.
  intros Hb Hd. destruct (atBlankLine_pending c Hb) as (rest & _ & Hr & ->).
  unfold iteration. rewrite Hr. unfold dispatch. rewrite eqb_same.
  rewrite Hd. reflexivity.
Qed.

(** A blank line when data is held: the call returns the event in
    progress, less the line feed that ends its data. *)
Lemma blank_line_return (c : ClientConn) (ev : Event) (d : list byte) :
  atBlankLine c = true -> Data ev = Some (d ++ [LF]) ->
  iteration c ev = Return (afterByte c) (set_Data ev (Some d)) None.
Proof.
  intros Hb Hd. destruct (atBlankLine_pending c Hb) as (rest & _ & Hr & ->).
  unfold iteration. rewrite Hr. unfold dispatch. rewrite eqb_same.
  rewrite Hd. cbn [slen]. unfold len. rewrite length_app, Nat.add_comm.
  cbn [length Nat.add]. change (Z.of_nat (S (length d)) =? 0)%Z with false.
  cbv beta iota. rewrite last_snoc, eqb_same, removelast_snoc. reflexivity.
Qed.

Lemma data_line_flow (c c1 : ClientConn) (ev ev1 : Event) :
  atBlankLine c = false -> accumulatesData c ev = true ->
  iteration c ev = Continue c1 ev1 -> exists d, Data ev1 = Some (d ++ [LF]).
Proof.
  unfold atBlankLine, accumulatesData, iteration.
  destruct (ReadByte (br c)) as [[b err] r1].
  destruct err as [e|]; [discriminate|]. cbn [is_nil andb].
  intros Hb Ha. unfold dispatch. rewrite Hb.
  destruct (Byte.eqb b x64) eqn:Ed; [|discriminate].
  assert (He : Byte.eqb b x65 = false).
  { apply eqb_true in Ed. subst b. reflexivity. }
  rewrite He. cbn [with_br br] in *. cbn [andb] in Ha.
  destruct (readFieldName (bytes "ata") r1) as [[ok err1] r2].
  destruct err1 as [e|]; [discriminate|]. destruct ok; [|discriminate].
  cbn [is_nil andb negb] in *.
  destruct (readData (loop_fuel r2) r2 (Data ev)) as [[[data [e|]] r3]|]; try discriminate.
  cbn [br]. intros H.
  destruct (eatLine _ _) as [[[e|] r4]|]; try discriminate.
  injection H as _ <-. cbn [Data set_Data].
  destruct data as [d|]; [exists d | exists []]; reflexivity.
Qed.

Lemma readValue_flow (c : ClientConn) (ev : Event) (name : gostring)
    (k : ClientConn -> Event -> gostring -> flow) :
  (forall c' v, exists c2 ev2, k c' ev v = Break c2 ev2 /\ Data ev2 = Data ev) ->
  match readValue c ev name k with
  | Break _ ev1 => Data ev1 = Data ev
  | Continue _ _ => False
  | Return _ _ err => err <> None
  | OutOfFuel => True
  end.
Proof.
  intros Hk. unfold readValue.
  destruct (readFieldName name (br c)) as [[ok err] r1].
  destruct err as [e|]; [discriminate|].
  destruct ok; cbn [negb]; [|reflexivity].
  destruct (ReadString r1 LF) as [[[s [e|]] r2]|]; [discriminate | | exact I].
  destruct (Hk (with_br c (UnreadByte r2)) (TrimSuffixLF s)) as (c2 & ev2 & -> & H).
  exact H.
Qed.

(** What the cases of the [switch] other than the blank line do: they
    leave the data alone, unless they take a data line, and they return
    only with an error. *)
Lemma field_line_flow (b : byte) (c : ClientConn) (ev : Event) :
  Byte.eqb b LF = false ->
  match dispatch b c ev with
  | Break _ ev1 | Continue _ ev1 =>
      Data ev1 = Data ev
      \/ (Byte.eqb b x64 = true
          /\ exists r1 r2 data,
               readFieldName (bytes "ata") (br c) = (true, None, r1)
               /\ readData (loop_fuel r1) r1 (Data ev) = Some (data, None, r2))
  | Return _ _ err => err <> None
  | OutOfFuel => True
  end.
Proof.
  intros Hb. unfold dispatch. rewrite Hb.
  destruct (Byte.eqb b x65).
  { pose proof (readValue_flow c ev (bytes "vent")
                  (fun c1 ev v => Break c1 (set_Event ev v))) as H.
    destruct (readValue _ _ _ _); try exact I;
      [left; apply H | exfalso; apply H | apply H]; intros; eauto. }
  destruct (Byte.eqb b x64).
  { destruct (readFieldName (bytes "ata") (br c)) as [[ok err1] r2].
    destruct err1 as [e|]; [discriminate|]. destruct ok; cbn [negb]; [|now left].
    destruct (readData (loop_fuel r2) r2 (Data ev)) as [[[data [e|]] r3]|] eqn:E;
      [discriminate | | exact I].
    right. split; [reflexivity|]. eauto. }
  destruct (Byte.eqb b x69).
  { pose proof (readValue_flow c ev (bytes "d")
                  (fun c1 ev id => Break (mkClientConn id (br c1)) (set_ID ev id))) as H.
    destruct (readValue _ _ _ _); try exact I;
      [left; apply H | exfalso; apply H | apply H]; intros; eauto. }
  destruct (Byte.eqb b x72).
  { pose proof (readValue_flow c ev (bytes "etry")
                  (fun c1 ev retryStr =>
                     match ParseInt retryStr with
                     | None => Break c1 ev
                     | Some retry64 => Break c1 (set_Retry ev retry64)
                     end)) as H.
    destruct (readValue _ _ _ _); try exact I;
      [left; apply H | exfalso; apply H | apply H];
      intros c' v; destruct (ParseInt v); eauto. }
  destruct (Byte.eqb b xef); [|now left].
  destruct (ReadByte (br c)) as [[b1 [e|]] r2]; [discriminate|].
  destruct (Byte.eqb b1 xbb); cbn [negb]; [|now left].
  destruct (ReadByte r2) as [[b2 [e|]] r3]; [discriminate|].
  destruct (Byte.eqb b2 xbf); now left.
Qed.

Lemma other_line_flow (c c1 : ClientConn) (ev ev1 : Event) :
  atBlankLine c = false -> accumulatesData c ev = false ->
  iteration c ev = Continue c1 ev1 -> Data ev1 = Data ev.
Proof.
  unfold atBlankLine, accumulatesData, iteration.
  destruct (ReadByte (br c)) as [[b err] r1].
  destruct err as [e|]; [discriminate|]. cbn [is_nil andb].
  intros Hb Ha. pose proof (field_line_flow b (with_br c r1) ev Hb) as H.
  cbn [with_br br] in H.
  assert (Hd : forall ev2,
             Data ev2 = Data ev
             \/ (Byte.eqb b x64 = true
                 /\ exists r2 r3 data,
                      readFieldName (bytes "ata") r1 = (true, None, r2)
                      /\ readData (loop_fuel r2) r2 (Data ev) = Some (data, None, r3)) ->
             Data ev2 = Data ev).
  { intros ev2 [E|(Ed & r2 & r3 & data & E1 & E2)]; [exact E|].
    rewrite Ed, E1 in Ha. cbn [is_nil andb] in Ha. rewrite E2 in Ha. discriminate. }
  destruct (dispatch b _ ev) as [c2 ev2|c2 ev2|c2 ev2 err|]; try discriminate.
  - destruct (eatLine _ _) as [[[e|] r2]|]; try discriminate.
    intros E. injection E as _ <-. now apply Hd.
  - intros E. injection E as _ <-. now apply Hd.
Qed.

(** The call returns a record only at a blank line. *)
Lemma record_at_blank_line (c c1 : ClientConn) (ev ev1 : Event) :
  iteration c ev = Return c1 ev1 None -> atBlankLine c = true /\ c1 = afterByte c.
Proof.
  unfold atBlankLine, afterByte, iteration.
  destruct (ReadByte (br c)) as [[b err] r1].
  destruct err as [e|]; [discriminate|]. cbn [is_nil andb].
  destruct (Byte.eqb b LF) eqn:Hb.
  - unfold dispatch. rewrite Hb. intros H. split; [reflexivity|].
    destruct (slen (Data ev) =? 0)%Z; [discriminate|].
    destruct (Data ev) as [d|]; [destruct (Byte.eqb (last d x00) LF)|];
      now injection H as <- _.
  - pose proof (field_line_flow b (with_br c r1) ev Hb) as H.
    destruct (dispatch b _ ev) as [c2 ev2|c2 ev2|c2 ev2 err|]; try discriminate.
    + destruct (eatLine _ _) as [[[e|] r2]|]; discriminate.
    + intros E. injection E as _ _ ->. contradiction.
Qed.

(** In every state at the top of the loop, the data of the event in
    progress is empty when no data line was accumulated in the current
    group, and ends in the line feed of its last line when one was. *)
Lemma atLoopTop_data (c0 : ClientConn) (buf : option (list byte))
    (c : ClientConn) (ev : Event) (k : nat) :
  atLoopTop c0 buf c ev k ->
  (k = 0%nat -> slen (Data ev) = 0%Z)
  /\ ((0 < k)%nat -> exists d, Data ev = Some (d ++ [LF])).
Proof.
  induction 1 as [|c ev k c1 ev1 Htop [IH0 IH1] Hit].
  - split; [intros _; destruct buf; reflexivity | lia].
  - destruct (atBlankLine c) eqn:Eb.
    + split; [intros _|lia].
      destruct k as [|k].
      * rewrite (blank_line_continue c ev Eb (IH0 eq_refl)) in Hit.
        injection Hit as _ <-. now apply IH0.
      * destruct (IH1 (Nat.lt_0_succ k)) as (d & Hd).
        rewrite (blank_line_return c ev d Eb Hd) in Hit. discriminate.
    + destruct (accumulatesData c ev) eqn:Ea.
      * split; [lia|intros _]. eapply data_line_flow; eassumption.
      * rewrite (other_line_flow c c1 ev ev1 Eb Ea Hit). now split.
Qed.

(** Every state at the top of the loop is one the call passes through:
    what the call returns is what the loop returns from there. *)
Lemma atLoopTop_Receive (c0 : ClientConn) (buf : option (list byte))
    (c : ClientConn) (ev : Event) (k : nat) :
  sound (br c0) -> atLoopTop c0 buf c ev k ->
  sound (br c) /\ Receive c0 buf = Receive_loop (loop_fuel (br c)) c ev.
Proof.
  intros Hs. induction 1 as [|c ev k c1 ev1 Htop [IHs IH] Hit].
  - split; [exact Hs | reflexivity].
  - pose proof (iteration_progress c ev IHs) as Hp. rewrite Hit in Hp.
    destruct Hp as [Hs1 Hlt]. split; [exact Hs1|].
    rewrite IH. unfold loop_fuel at 1.
    rewrite (Receive_loop_continue _ _ _ _ _ Hit).
    apply Receive_loop_enough; [exact Hs1 | lia | unfold loop_fuel; lia].
Qed.

(** A record comes out of the loop only from a blank line reached with
    data lines accumulated in the group it ends. *)
Lemma Receive_loop_record (c0 : ClientConn) (buf : option (list byte)) (fuel : nat) :
  forall c ev k ev1 c1,
    atLoopTop c0 buf c ev k ->
    Receive_loop fuel c ev = Some (ev1, None, c1) ->
    exists c' ev' k' d,
      atLoopTop c0 buf c' ev' k' /\ atBlankLine c' = true /\ (0 < k')%nat
      /\ c1 = afterByte c' /\ Data ev' = Some (d ++ [LF]) /\ ev1 = set_Data ev' (Some d).
Proof.
  induction fuel as [|fuel IH]; intros c ev k ev1 c1 Htop; [discriminate|].
  cbn [Receive_loop].
  destruct (iteration c ev) as [c2 ev2|c2 ev2|c2 ev2 err2|] eqn:Hit; try discriminate.
  - apply IH with (k := if atBlankLine c then 0%nat
                        else if accumulatesData c ev then S k else k).
    exact (top_next c0 buf c ev k c2 ev2 Htop Hit).
  - intros H. injection H as -> -> ->.
    destruct (record_at_blank_line c c1 ev ev1 Hit) as [Hb ->].
    destruct (atLoopTop_data c0 buf c ev k Htop) as [H0 H1].
    destruct k as [|k].
    + rewrite (blank_line_continue c ev Hb (H0 eq_refl)) in Hit. discriminate.
    + destruct (H1 (Nat.lt_0_succ k)) as (d & Hd).
      rewrite (blank_line_return c ev d Hb Hd) in Hit. injection Hit as <-.
      exists c, ev, (S k), d. repeat split; try assumption. lia.
Qed.

(** The call that returns a record has read on, past a blank line. *)
Lemma Receive_loop_shorter (fuel : nat) :
  forall c ev ev1 c1,
    sound (br c) -> Receive_loop fuel c ev = Some (ev1, None, c1) ->
    (length (pending (br c1)) < length (pending (br c)))%nat.
Proof.
  induction fuel as [|fuel IH]; intros c ev ev1 c1 Hs; [discriminate|].
  cbn [Receive_loop]. pose proof (iteration_progress c ev Hs) as Hp.
  destruct (iteration c ev) as [c2 ev2|c2 ev2|c2 ev2 err2|] eqn:Hit; try discriminate.
  - destruct Hp as [Hs2 Hlt]. intros H. specialize (IH c2 ev2 ev1 c1 Hs2 H). lia.
  - intros H. injection H as -> -> ->.
    destruct (record_at_blank_line c c1 ev ev1 Hit) as [Hb ->].
    destruct (atBlankLine_pending c Hb) as (rest & Hp1 & _ & ->).
    rewrite Hp1. cbn. lia.
Qed.

(** C4: in a call of [Receive], at every blank line the loop reaches,
    the call returns a record there if and only if at least one data
    line was accumulated in the field group the blank line ends.  When
    one was, the call returns the event in progress, less the line feed
    that ends its data.  When none was, the blank line is a no-op: the
    loop goes on behind it with the event in progress unchanged, and the
    call returns what the loop returns from there.  A group without data
    is never surfaced: every record the call returns is returned at a
    blank line that ends a group with at least one data line. *)
Theorem C4_dispatch_iff_data (c0 : ClientConn) (buf : option (list byte)) :
  sound (br c0) ->
  (forall c ev k,
     atLoopTop c0 buf c ev k ->
     Receive c0 buf = Receive_loop (loop_fuel (br c)) c ev
     /\ (atBlankLine c = true ->
         ((exists ev1, Receive c0 buf = Some (ev1, None, afterByte c)) <-> (0 < k)%nat)
         /\ ((0 < k)%nat ->
             exists d, Data ev = Some (d ++ [LF])
                       /\ Receive c0 buf = Some (set_Data ev (Some d), None, afterByte c))
         /\ (k = 0%nat ->
             iteration c ev = Continue (afterByte c) ev
             /\ atLoopTop c0 buf (afterByte c) ev 0
             /\ Receive c0 buf
                = Receive_loop (loop_fuel (br (afterByte c))) (afterByte c) ev)))
  /\ (forall ev1 c1,
        Receive c0 buf = Some (ev1, None, c1) ->
        exists c ev k d,
          atLoopTop c0 buf c ev k /\ atBlankLine c = true /\ (0 < k)%nat
          /\ c1 = afterByte c /\ Data ev = Some (d ++ [LF]) /\ ev1 = set_Data ev (Some d)).
Proof.
  intros Hs. split.
  - intros c ev k Htop.
    destruct (atLoopTop_Receive c0 buf c ev k Hs Htop) as [Hsc HR].
    split; [exact HR|]. intros Hb.
    destruct (atLoopTop_data c0 buf c ev k Htop) as [H0 H1].
    assert (Hpos : (0 < k)%nat ->
                   exists d, Data ev = Some (d ++ [LF])
                             /\ Receive c0 buf = Some (set_Data ev (Some d), None, afterByte c)).
    { intros Hk. destruct (H1 Hk) as (d & Hd). exists d. split; [exact Hd|].
      rewrite HR. unfold loop_fuel. cbn [Receive_loop].
      now rewrite (blank_line_return c ev d Hb Hd). }
    assert (Hzero : k = 0%nat ->
                    iteration c ev = Continue (afterByte c) ev
                    /\ atLoopTop c0 buf (afterByte c) ev 0
                    /\ Receive c0 buf
                       = Receive_loop (loop_fuel (br (afterByte c))) (afterByte c) ev).
    { intros Hk. pose proof (blank_line_continue c ev Hb (H0 Hk)) as Hit.
      assert (Hnext : atLoopTop c0 buf (afterByte c) ev 0).
      { pose proof (top_next c0 buf c ev k (afterByte c) ev Htop Hit) as Hn.
        rewrite Hb in Hn. exact Hn. }
      split; [exact Hit|]. split; [exact Hnext|].
      exact (proj2 (atLoopTop_Receive c0 buf (afterByte c) ev 0 Hs Hnext)). }
    split; [|split; [exact Hpos | exact Hzero]]. split.
    + intros (ev1 & H1'). destruct k as [|k]; [|lia]. exfalso.
      destruct (Hzero eq_refl) as (Hit & Hnext & HR').
      rewrite HR' in H1'.
      pose proof (Receive_loop_shorter _ _ _ _ _
                    (proj1 (atLoopTop_Receive c0 buf (afterByte c) ev 0 Hs Hnext)) H1') as Hlt.
      lia.
    + intros Hk. destruct (Hpos Hk) as (d & _ & Hd). eauto.
  - intros ev1 c1 H. unfold Receive in H.
    exact (Receive_loop_record c0 buf _ c0 _ 0%nat ev1 c1 (top_first c0 buf) H).
Qed.

Lemma C4_dispatch_iff_data_witness :
  let c0 := NewClientConn
              (NewReader (bytes "id: 7" ++ [LF; LF] ++ bytes "data: x" ++ [LF; LF])) in
  let ca := mkClientConn (bytes "7")
              (mkReader 4096 (LF :: bytes "data: x" ++ [LF; LF]) (Some LF) io_EOF) in
  let eva := mkEvent [] None (bytes "7") 0 in
  let cb := mkClientConn (bytes "7") (mkReader 4096 [LF] (Some LF) io_EOF) in
  let evb := mkEvent [] (Some (bytes "x" ++ [LF])) (bytes "7") 0 in
  sound (br c0)
  /\ (atLoopTop c0 None ca eva 0 /\ atBlankLine ca = true
      /\ iteration ca eva = Continue (afterByte ca) eva)
  /\ (atLoopTop c0 None cb evb 1 /\ atBlankLine cb = true
      /\ Receive c0 None
         = Some (mkEvent [] (Some (bytes "x")) (bytes "7") 0, None, afterByte cb)).
Proof.
  intros c0 ca eva cb evb.
  assert (Hs : sound (br c0)) by (split; [vm_compute; lia | discriminate]).
  assert (Ha : atLoopTop c0 None ca eva 0).
  { exact (top_next c0 None c0 zeroEvent 0 ca eva (top_first c0 None) eq_refl). }
  assert (Hb : atLoopTop c0 None cb evb 1).
  { exact (top_next c0 None (afterByte ca) eva 0 cb evb
             (top_next c0 None ca eva 0 (afterByte ca) eva Ha eq_refl) eq_refl). }
  destruct (C4_dispatch_iff_data c0 None Hs) as [Hstate _].
  split; [exact Hs|]. split.
  - split; [exact Ha|]. split; [reflexivity|].
    destruct (Hstate ca eva 0%nat Ha) as [_ H].
    destruct (H eq_refl) as (_ & _ & H0). exact (proj1 (H0 eq_refl)).
  - split; [exact Hb|]. split; [reflexivity|].
    destruct (Hstate cb evb 1%nat Hb) as [_ H].
    destruct (H eq_refl) as (_ & H1 & _).
    destruct (H1 (le_n 1)) as (d & Hd & HR).
    injection Hd as Hd. apply (app_inj_tail (bytes "x") d LF LF) in Hd.
    destruct Hd as [<- _]. exact HR.
Defined.

(** ** Lines that carry nothing *)

Lemma iteration_unknown (n : nat) (e : error) (lid v rest : list byte) (b : byte)
    (lb : option byte) (ev : Event) :
  (2 <= n)%nat -> ~ In LF v ->
  ~ In b [LF; x65; x64; x69; x72; xef] ->
  iteration (mkClientConn lid (mkReader n (b :: v ++ LF :: rest) lb e)) ev
  = Continue (mkClientConn lid (mkReader n rest (Some LF) e)) ev.
Proof.
  intros Hn Hv Hb. unfold iteration.
  cbn [ReadByte pending br set_pending buf_size rd_err with_br LastEventID]. cbn match.
  unfold dispatch.
  rewrite !eqb_diff by (intros ->; apply Hb; simpl; tauto).
  cbn [br]. now rewrite eatLine_rest.
Qed.

(** [readFieldName] on a line that neither carries the field nor ends
    inside its name: no match, and the line feed of the line is still to
    be read. *)
Lemma readFieldName_nomatch (n : nat) (e : error) (rest : list byte) (name : gostring) :
  ~ In LF name ->
  forall (t : list byte) (lb : option byte),
    ~ In LF t -> cutShort name t = false -> hasPrefix (name ++ [COLON]) t = false ->
    exists t' lb',
      ~ In LF t'
      /\ readFieldName name (mkReader n (t ++ LF :: rest) lb e)
         = (false, None, mkReader n (t' ++ LF :: rest) lb' e).
Proof.
  induction name as [|c name IH]; intros Hname t lb Ht Hcut Hpre.
  - destruct t as [|b t].
    + exists [], None. split; [tauto | reflexivity].
    + cbn in Hpre. rewrite andb_true_r in Hpre.
      exists (b :: t), None. split; [exact Ht|]. cbn. now rewrite Hpre.
  - destruct t as [|b t]; [discriminate|].
    cbn [cutShort] in Hcut. cbn [app hasPrefix] in Hpre.
    cbn [app readFieldName ReadByte pending]. cbn match.
    destruct (Byte.eqb b c) eqn:Ebc; cbn [negb andb] in *.
    + apply eqb_true in Ebc. subst b.
      rewrite eqb_diff by (intros ->; apply Hname; now left).
      cbn [set_pending buf_size rd_err].
      apply IH; try assumption; intros H; [apply Hname | apply Ht]; now right.
    + exists t, (Some b). split; [intros H; apply Ht; now right | reflexivity].
Qed.

Lemma iteration_nomatch (n : nat) (e : error) (lid t rest : list byte) (first : byte)
    (name : gostring) (lb : option byte) (ev : Event) :
  (2 <= n)%nat -> In (first, name) fieldNames ->
  ~ In LF t -> cutShort name t = false -> hasPrefix (name ++ [COLON]) t = false ->
  iteration (mkClientConn lid (mkReader n (first :: t ++ LF :: rest) lb e)) ev
  = Continue (mkClientConn lid (mkReader n rest (Some LF) e)) ev.
Proof.
  intros Hn Hin Ht Hcut Hpre.
  assert (Hname : ~ In LF name).
  { destruct Hin as [H|[H|[H|[H|[]]]]]; injection H as <- <-;
      cbn; intuition discriminate. }
  destruct (readFieldName_nomatch n e rest name Hname t (Some first) Ht Hcut Hpre)
    as (t' & lb' & Ht' & Hr).
  unfold iteration.
  cbn [ReadByte pending br set_pending buf_size rd_err with_br LastEventID]. cbn match.
  destruct Hin as [H|[H|[H|[H|[]]]]]; injection H as <- <-;
    unfold dispatch; cbn [Byte.eqb];
    repeat match goal with
           | |- context [Byte.eqb ?a ?b] =>
               let v := eval vm_compute in (Byte.eqb a b) in
               change (Byte.eqb a b) with v
           end;
    cbn match; unfold readValue; cbn [br]; rewrite Hr;
    cbn [negb br with_br LastEventID]; now rewrite eatLine_rest.
Qed.

(** X6: The [default] and [':'] cases of the [switch]: a line that starts
    with a byte other than a line feed, ['e'], ['d'], ['i'], ['r'] and
    [0xEF] is dropped whole, whatever it holds and however long it is;
    event and last event id stay as they are, the next line is not
    touched, and a call that starts on such a line returns what it
    would return without it. *)
Theorem unknown_line_ignored (n : nat) (e : error) (lid v rest : list byte) (b : byte)
    (lb : option byte) (ev : Event) (buf : option (list byte)) :
  (2 <= n)%nat -> e <> bufio_ErrBufferFull -> ~ In LF v ->
  ~ In b [LF; x65; x64; x69; x72; xef] ->
  iteration (mkClientConn lid (mkReader n (b :: v ++ LF :: rest) lb e)) ev
  = Continue (mkClientConn lid (mkReader n rest (Some LF) e)) ev
  /\ Receive (mkClientConn lid (mkReader n (b :: v ++ LF :: rest) lb e)) buf
     = Receive (mkClientConn lid (mkReader n rest (Some LF) e)) buf.
Proof.
  intros Hn He Hv Hb. split; [now apply iteration_unknown|].
  apply Receive_skip; [split; assumption | now apply iteration_unknown].
Qed.

Lemma unknown_line_ignored_witness :
  iteration (mkClientConn [] (mkReader 16 (bytes ": a comment" ++ LF :: bytes "id: 1") None io_EOF))
    (dataEvent "x")
  = Continue (mkClientConn [] (mkReader 16 (bytes "id: 1") (Some LF) io_EOF)) (dataEvent "x")
  /\ Receive (mkClientConn [] (mkReader 16 (bytes ": a comment" ++ LF :: bytes "id: 1") None io_EOF)) None
     = Receive (mkClientConn [] (mkReader 16 (bytes "id: 1") (Some LF) io_EOF)) None.
Proof.
  apply (unknown_line_ignored 16 io_EOF [] (bytes " a comment") (bytes "id: 1") COLON None
           (dataEvent "x") None).
  - lia.
  - discriminate.
  - vm_compute. intuition discriminate.
  - vm_compute. intuition discriminate.
Defined.

(** X7: A line that starts with the first letter of a field but does not
    go on with the rest of the name and a colon, and does not end inside
    the name either, is dropped whole: event and last event id stay as
    they are and the next line is not touched. *)
Theorem mismatched_field_line_ignored (n : nat) (e : error) (lid t rest : list byte)
    (first : byte) (name : gostring) (lb : option byte) (ev : Event) :
  (2 <= n)%nat -> In (first, name) fieldNames ->
  ~ In LF t -> cutShort name t = false -> hasPrefix (name ++ [COLON]) t = false ->
  iteration (mkClientConn lid (mkReader n (first :: t ++ LF :: rest) lb e)) ev
  = Continue (mkClientConn lid (mkReader n rest (Some LF) e)) ev.
Proof. apply iteration_nomatch. Qed.

Lemma mismatched_field_line_ignored_witness :
  iteration (mkClientConn [] (mkReader 16 (bytes "events: 1" ++ LF :: bytes "id: 1") None io_EOF))
    (dataEvent "x")
  = Continue (mkClientConn [] (mkReader 16 (bytes "id: 1") (Some LF) io_EOF)) (dataEvent "x").
Proof.
  apply (mismatched_field_line_ignored 16 io_EOF [] (bytes "vents: 1") (bytes "id: 1")
           x65 (bytes "vent") None (dataEvent "x")).
  - lia.
  - left. reflexivity.
  - vm_compute. intuition discriminate.
  - reflexivity.
  - reflexivity.
Defined.

(** ** The value of a field line *)

Lemma readValue_line (n : nat) (e : error) (name lid s rest : list byte)
    (lb : option byte) (ev : Event) (k : ClientConn -> Event -> gostring -> flow) :
  (2 <= n)%nat -> ~ In LF name -> ~ In LF s ->
  readValue (mkClientConn lid (mkReader n (name ++ COLON :: s ++ LF :: rest) lb e)) ev name k
  = k (mkClientConn lid (mkReader n (LF :: rest) None e)) ev (fieldValue s).
Proof.
  intros Hn Hname Hs. unfold readValue. cbn [br].
  rewrite readFieldName_colon; [| exact Hname | destruct s; discriminate].
  destruct s as [|b s'].
  - cbn -[ReadString]. rewrite ReadString_LF by exact Hn. reflexivity.
  - cbn [app fieldValue]. destruct (Byte.eqb b SP) eqn:E.
    + cbn -[ReadString].
      rewrite (ReadString_rest n e Hn s' rest (Some SP)) by (intros H; apply Hs; now right).
      cbn -[TrimSuffixLF]. now rewrite TrimSuffixLF_snoc.
    + cbn -[ReadString].
      change (b :: s' ++ LF :: rest) with ((b :: s') ++ LF :: rest).
      rewrite (ReadString_rest n e Hn (b :: s') rest None) by exact Hs.
      cbn -[TrimSuffixLF app]. now rewrite TrimSuffixLF_snoc.
Qed.

Ltac enter_case :=
  unfold iteration;
  cbn [ReadByte pending br set_pending buf_size rd_err with_br LastEventID app];
  cbn match; unfold dispatch;
  repeat match goal with
         | |- context [Byte.eqb ?a ?b] =>
             let v := eval vm_compute in (Byte.eqb a b) in
             change (Byte.eqb a b) with v
         end;
  cbn match.

Lemma iteration_event_line (n : nat) (e : error) (lid s rest : list byte)
    (lb : option byte) (ev : Event) :
  (2 <= n)%nat -> ~ In LF s ->
  iteration (mkClientConn lid (mkReader n (bytes "event:" ++ s ++ LF :: rest) lb e)) ev
  = Continue (mkClientConn lid (mkReader n rest (Some LF) e)) (set_Event ev (fieldValue s)).
Proof.
  intros Hn Hs.
  change (bytes "event:" ++ s ++ LF :: rest)
    with (x65 :: bytes "vent" ++ COLON :: s ++ LF :: rest).
  enter_case.
  rewrite readValue_line; [| exact Hn | cbn; intuition discriminate | exact Hs].
  cbn [br]. now rewrite eatLine_LF.
Qed.

Lemma iteration_retry_line (n : nat) (e : error) (lid s rest : list byte)
    (lb : option byte) (ev : Event) :
  (2 <= n)%nat -> ~ In LF s ->
  iteration (mkClientConn lid (mkReader n (bytes "retry:" ++ s ++ LF :: rest) lb e)) ev
  = Continue (mkClientConn lid (mkReader n rest (Some LF) e))
      (match ParseInt (fieldValue s) with Some k => set_Retry ev k | None => ev end).
Proof.
  intros Hn Hs.
  change (bytes "retry:" ++ s ++ LF :: rest)
    with (x72 :: bytes "etry" ++ COLON :: s ++ LF :: rest).
  enter_case.
  rewrite readValue_line; [| exact Hn | cbn; intuition discriminate | exact Hs].
  destruct (ParseInt (fieldValue s)); cbn [br]; now rewrite eatLine_LF.
Qed.

Lemma iteration_data_line (n : nat) (e : error) (lid s rest : list byte)
    (lb : option byte) (ev : Event) :
  (2 <= n)%nat -> ~ In LF s ->
  (slen (Data ev) + len (fieldValue s) + Z.of_nat (Nat.min n (length (fieldValue s)))
   < MaxEventDataSize)%Z ->
  iteration (mkClientConn lid (mkReader n (bytes "data:" ++ s ++ LF :: rest) lb e)) ev
  = Continue (mkClientConn lid (mkReader n rest (Some LF) e))
      (set_Data ev (append (Data ev) (dropCR (fieldValue s) ++ [LF]))).
Proof.
  intros Hn Hs Hsz.
  change (bytes "data:" ++ s ++ LF :: rest)
    with (x64 :: bytes "ata" ++ COLON :: s ++ LF :: rest).
  enter_case. cbn [br].
  rewrite readFieldName_colon; [| cbn; intuition discriminate | destruct s; discriminate].
  assert (Hgo : forall lb',
             match readData (loop_fuel (mkReader n (fieldValue s ++ LF :: rest) lb' e))
                     (mkReader n (fieldValue s ++ LF :: rest) lb' e) (Data ev) with
             | Some (data, Some e0, r2) =>
                 Return (mkClientConn lid r2) (set_Data ev data) (Some e0)
             | Some (data, None, r2) =>
                 Break (mkClientConn lid (UnreadByte r2)) (set_Data ev (append data [LF]))
             | None => OutOfFuel
             end
             = Break (mkClientConn lid (mkReader n (LF :: rest) None e))
                 (set_Data ev (append (Data ev) (dropCR (fieldValue s) ++ [LF])))).
  { intros lb'. rewrite readData_rest;
      [| exact Hn | now apply fieldValue_not_in | exact Hsz].
    cbn [UnreadByte lastByte set_pending pending buf_size rd_err].
    now rewrite append_assoc. }
  destruct s as [|b s'].
  - cbn [app negb]. change (Byte.eqb LF SP) with false. cbv iota.
    cbn [with_br LastEventID]. pose proof (Hgo None) as H. cbn [fieldValue app] in H.
    rewrite H. cbn [br]. now rewrite eatLine_LF.
  - cbn [app fieldValue] in *. destruct (Byte.eqb b SP) eqn:E; cbn [negb with_br LastEventID].
    + rewrite (Hgo (Some SP)). cbn [br]. now rewrite eatLine_LF.
    + pose proof (Hgo None) as H. cbn [app] in H.
      rewrite H. cbn [br]. now rewrite eatLine_LF.
Qed.

(** X8: An [event] line: the event type becomes the rest of the line after
    the colon and one optional space, verbatim (further spaces and a
    carriage return at the end are kept) and however long the line is;
    nothing else changes. *)
Theorem event_line_sets_type (n : nat) (e : error) (lid s rest : list byte)
    (lb : option byte) (ev : Event) :
  (2 <= n)%nat -> ~ In LF s ->
  iteration (mkClientConn lid (mkReader n (bytes "event:" ++ s ++ LF :: rest) lb e)) ev
  = Continue (mkClientConn lid (mkReader n rest (Some LF) e))
      (mkEvent (fieldValue s) (Data ev) (ID ev) (Retry ev)).
Proof. apply iteration_event_line. Qed.

Lemma event_line_sets_type_witness :
  iteration (mkClientConn [] (mkReader 16
               (bytes "event:  a long event type with a return" ++ [CR] ++ LF :: bytes "x")
               None io_EOF)) (dataEvent "d")
  = Continue (mkClientConn [] (mkReader 16 (bytes "x") (Some LF) io_EOF))
      (mkEvent (bytes " a long event type with a return" ++ [CR]) (Some (bytes "d")) [] 0).
Proof.
  apply (event_line_sets_type 16 io_EOF []
           (bytes "  a long event type with a return" ++ [CR]) (bytes "x") None (dataEvent "d")).
  - lia.
  - vm_compute. intuition discriminate.
Defined.

(** X9: A [data] line: the rest of the line after the colon and one optional
    space, less a carriage return at its end, is appended to the data
    of the event in progress, followed by a line feed; the other fields
    and the last event id stay as they are.  The line may be longer than
    the buffer of the reader; it has to pass the size check. *)
Theorem data_line_appends (n : nat) (e : error) (lid s rest : list byte)
    (lb : option byte) (ev : Event) :
  (2 <= n)%nat -> ~ In LF s ->
  (slen (Data ev) + len (fieldValue s) + Z.of_nat (Nat.min n (length (fieldValue s)))
   < MaxEventDataSize)%Z ->
  iteration (mkClientConn lid (mkReader n (bytes "data:" ++ s ++ LF :: rest) lb e)) ev
  = Continue (mkClientConn lid (mkReader n rest (Some LF) e))
      (mkEvent (Event_ ev) (append (Data ev) (dropCR (fieldValue s) ++ [LF])) (ID ev) (Retry ev)).
Proof. apply iteration_data_line. Qed.

Lemma data_line_appends_witness :
  iteration (mkClientConn [] (mkReader 16
               (bytes "data: a second line, longer than the buffer" ++ [CR] ++ LF :: bytes "x")
               None io_EOF)) (mkEvent [] (Some (bytes "first" ++ [LF])) [] 0)
  = Continue (mkClientConn [] (mkReader 16 (bytes "x") (Some LF) io_EOF))
      (mkEvent [] (Some (bytes "first" ++ [LF]
                         ++ bytes "a second line, longer than the buffer" ++ [LF])) [] 0).
Proof.
  apply (data_line_appends 16 io_EOF []
           (bytes " a second line, longer than the buffer" ++ [CR]) (bytes "x") None
           (mkEvent [] (Some (bytes "first" ++ [LF])) [] 0)).
  - lia.
  - vm_compute. intuition discriminate.
  - vm_compute. reflexivity.
Defined.

(** ** The [retry] field *)

Lemma parseDigits_bad (s : gostring) (b : byte) :
  In b s -> digit_val b = None -> forall acc, parseDigits acc s = None.
Proof.
  induction s as [|c s IH]; intros Hin Hb acc; [contradiction|].
  cbn [parseDigits]. destruct Hin as [->|Hin]; [now rewrite Hb|].
  destruct (digit_val c); [now apply IH | reflexivity].
Qed.

Lemma ParseInt_bad (c : byte) (s : gostring) (b : byte) :
  In b s -> digit_val b = None -> ParseInt (c :: s) = None.
Proof.
  intros Hin Hb. unfold ParseInt.
  assert (H : forall s1, In b s1 -> ParseUint s1 = None).
  { intros s1 H1. unfold ParseUint. destruct s1; [reflexivity|].
    now apply (parseDigits_bad _ b). }
  destruct (Byte.eqb c x2b); [now rewrite H|].
  destruct (Byte.eqb c x2d); [now rewrite H|].
  rewrite H; [reflexivity | now right].
Qed.

(** X10: A [retry] line sets the retry value when [strconv.ParseInt] accepts
    the rest of the line, and changes nothing when it does not: the line
    [Send] writes for a retry value is read back as that value, and a
    line with a byte that is no digit after its first byte is ignored. *)
Theorem retry_line_parsed_or_ignored (n : nat) (e : error) (lid s rest : list byte)
    (lb : option byte) (ev : Event) :
  (2 <= n)%nat -> ~ In LF s ->
  iteration (mkClientConn lid (mkReader n (bytes "retry:" ++ s ++ LF :: rest) lb e)) ev
  = Continue (mkClientConn lid (mkReader n rest (Some LF) e))
      (match ParseInt (fieldValue s) with
       | Some k => mkEvent (Event_ ev) (Data ev) (ID ev) k
       | None => ev
       end)
  /\ (forall R, (- 2 ^ 63 <= R < 2 ^ 63)%Z -> s = SP :: FormatInt R ->
        ParseInt (fieldValue s) = Some R)
  /\ (forall c s' b, fieldValue s = c :: s' -> In b s' -> digit_val b = None ->
        ParseInt (fieldValue s) = None)
  /\ (fieldValue s = [] -> ParseInt (fieldValue s) = None).
Proof.
  intros Hn Hs. split; [now apply iteration_retry_line|]. split; [|split].
  - intros R HR ->. cbn [fieldValue]. change (Byte.eqb SP SP) with true. cbv iota.
    now apply ParseInt_FormatInt.
  - intros c s' b -> Hin Hb. now apply (ParseInt_bad c s' b).
  - intros ->. reflexivity.
Qed.

Lemma retry_line_parsed_or_ignored_witness :
  iteration (mkClientConn [] (mkReader 16 (bytes "retry: -250" ++ LF :: bytes "x") None io_EOF))
    zeroEvent
  = Continue (mkClientConn [] (mkReader 16 (bytes "x") (Some LF) io_EOF))
      (mkEvent [] None [] (-250)).
Proof.
  apply (proj1 (retry_line_parsed_or_ignored 16 io_EOF [] (bytes " -250") (bytes "x") None
                  zeroEvent ltac:(lia) ltac:(vm_compute; intuition discriminate))).
Defined.

(** ** What [Receive] returns *)

Lemma ReadByte_err (r : Reader) (b : byte) (e : error) (r1 : Reader) :
  ReadByte r = (b, Some e, r1) -> e = rd_err r.
Proof.
  unfold ReadByte. destruct (pending r); intros H; [|discriminate].
  now injection H as _ <- _.
Qed.

Lemma ReadSlice_err (r : Reader) (d : byte) (l : list byte) (e : error) (r1 : Reader) :
  ReadSlice r d = (l, Some e, r1) -> e = bufio_ErrBufferFull \/ e = rd_err r.
Proof.
  unfold ReadSlice. destruct (IndexByte _ d); [discriminate|].
  destruct (_ <=? _)%nat; intros H; injection H as _ <- _; auto.
Qed.

Lemma ReadLine_err (r : Reader) (l : list byte) (p : bool) (e : error) (r1 : Reader) :
  ReadLine r = (l, p, Some e, r1) -> e = rd_err r.
Proof.
  unfold ReadLine. destruct (ReadSlice r LF) as [[l0 e0] r0] eqn:E.
  assert (Hother :
            match l0 with
            | [] => ([], false, e0, r0)
            | _ :: _ =>
                if Byte.eqb (last l0 x00) LF
                then
                  let l1 := removelast l0 in
                  match l1 with
                  | _ :: _ =>
                      if Byte.eqb (last l1 x00) CR
                      then (removelast l1, false, None, r0)
                      else (l1, false, None, r0)
                  | [] => (l1, false, None, r0)
                  end
                else (l0, false, None, r0)
            end = (l, p, Some e, r1) -> e0 = Some e).
  { destruct l0 as [|c l0]; [intros H; now injection H as _ _ <- _|].
    destruct (Byte.eqb (last (c :: l0) x00) LF); cbv zeta;
      [destruct (removelast (c :: l0)) as [|c' l'];
       [|destruct (Byte.eqb (last (c' :: l') x00) CR)]|]; discriminate. }
  destruct e0 as [e1|]; [|intros H; apply Hother in H; discriminate].
  destruct e1;
    try (intros H; apply Hother in H; injection H as <-;
         destruct (ReadSlice_err _ _ _ _ _ E) as [H|H]; [discriminate | exact H]).
  destruct l0 as [|c l0]; [discriminate|].
  destruct (Byte.eqb (last (c :: l0) x00) CR); discriminate.
Qed.

Lemma eatLine_err (fuel : nat) :
  forall r e r1, sound r -> eatLine fuel r = Some (Some e, r1) -> e = rd_err r.
Proof.
  induction fuel as [|fuel IH]; intros r e r1 Hs; [discriminate|].
  cbn [eatLine]. destruct (ReadLine r) as [[[line isPrefix] err] r0] eqn:E.
  destruct (ReadLine_later r Hs _ _ _ _ E) as (Hl & _ & _).
  destruct err as [e0|].
  - intros H. injection H as <- _. now apply ReadLine_err in E.
  - destruct isPrefix; [|discriminate]. intros H.
    apply IH in H; [|exact (later_sound _ _ Hl Hs)].
    destruct Hl as (_ & Hl & _). congruence.
Qed.

Lemma append_LF (data : option (list byte)) :
  exists x, append data [LF] = Some (x ++ [LF]) /\ len x = slen data.
Proof.
  destruct data as [d|]; [exists d | exists []]; split; reflexivity.
Qed.

Lemma readData_facts (fuel : nat) :
  forall r data data1 err r1, sound r ->
    readData fuel r data = Some (data1, err, r1) ->
    match err with
    | None => (slen data1 < MaxEventDataSize)%Z
    | Some e => e = rd_err r \/ e = errEventDataTooBig
    end.
Proof.
  induction fuel as [|fuel IH]; intros r data data1 err r1 Hs; [discriminate|].
  cbn [readData]. destruct (ReadLine r) as [[[piece isPrefix] err0] r0] eqn:E.
  destruct (ReadLine_later r Hs _ _ _ _ E) as (Hl & _ & _).
  destruct err0 as [e0|].
  - intros H. injection H as _ <- _. left. now apply ReadLine_err in E.
  - destruct (MaxEventDataSize <=? _)%Z eqn:Ez.
    + intros H. injection H as _ <- _. now right.
    + apply Z.leb_gt in Ez. destruct isPrefix.
      * intros H. apply IH in H; [|exact (later_sound _ _ Hl Hs)].
        destruct err; [|exact H]. destruct Hl as (_ & Hl & _). rewrite <- Hl. exact H.
      * intros H. injection H as <- <- _. unfold len in Ez. lia.
Qed.

Lemma collectFragments_err (fuel : nat) :
  forall r full s e r1, sound r ->
    collectFragments fuel r LF full = Some (s, Some e, r1) -> e = rd_err r.
Proof.
  induction fuel as [|fuel IH]; intros r full s e r1 Hs; [discriminate|].
  cbn [collectFragments]. destruct (ReadSlice r LF) as [[frag e0] r0] eqn:E.
  destruct (ReadSlice_cases r LF Hs _ _ _ E) as (Hl & _).
  destruct e0 as [e1|]; [|discriminate].
  destruct (ReadSlice_err _ _ _ _ _ E) as [->| ->].
  - intros H. apply IH in H; [|exact (later_sound _ _ Hl Hs)].
    destruct Hl as (_ & Hl & _). congruence.
  - destruct Hs as [_ Hne]. destruct (rd_err r); try contradiction;
      intros H; now injection H as _ <- _.
Qed.

Lemma readFieldName_err (name : gostring) :
  forall r ok e r1, readFieldName name r = (ok, Some e, r1) -> e = rd_err r.
Proof.
  induction name as [|c name IH]; intros r ok e r1; cbn [readFieldName].
  - destruct (ReadByte r) as [[b e0] r0] eqn:E0.
    destruct (ReadByte_later r _ _ _ E0) as [(_ & H0 & _) _].
    destruct e0; [intros H; injection H as _ <- _; now apply ReadByte_err in E0|].
    destruct (negb (Byte.eqb b COLON)); [discriminate|].
    destruct (ReadByte r0) as [[b2 e2] r2] eqn:E2.
    destruct e2; [|destruct (negb (Byte.eqb b2 SP)); discriminate].
    intros H. injection H as _ <- _. apply ReadByte_err in E2. congruence.
  - destruct (ReadByte r) as [[b e0] r0] eqn:E0.
    destruct (ReadByte_later r _ _ _ E0) as [(_ & H0 & _) _].
    destruct e0; [intros H; injection H as _ <- _; now apply ReadByte_err in E0|].
    destruct (negb (Byte.eqb b c)); [discriminate|].
    destruct (Byte.eqb b LF); [discriminate|].
    intros H. apply IH in H. congruence.
Qed.

Lemma readValue_shape (c : ClientConn) (ev : Event) (name : gostring)
    (k : ClientConn -> Event -> gostring -> flow) :
  sound (br c) ->
  (forall c' v, exists c2 ev2,
      k c' ev v = Break c2 ev2
      /\ ((LastEventID c2 = LastEventID c' /\ ID ev2 = ID ev) \/ LastEventID c2 = ID ev2)
      /\ Data ev2 = Data ev) ->
  shape c ev (readValue c ev name k).
Proof.
  intros Hs Hk. unfold readValue.
  destruct (readFieldName name (br c)) as [[ok err] r1] eqn:E1.
  pose proof (readFieldName_later name _ _ _ _ E1) as H1.
  destruct err as [e|].
  { cbn. split; [now left|]. left. now apply readFieldName_err in E1. }
  destruct ok; cbn [negb]; [|cbn; auto].
  destruct (ReadString r1 LF) as [[[s [e|]] r2]|] eqn:E2; [| |exact I].
  - cbn. split; [now left|]. left.
    apply collectFragments_err in E2; [|exact (later_sound _ _ H1 Hs)].
    destruct H1 as (_ & H1 & _). congruence.
  - destruct (Hk (with_br c (UnreadByte r2)) (TrimSuffixLF s)) as (c2 & ev2 & -> & Hid & Hd).
    cbn in *. split; [exact Hid | now left].
Qed.

Lemma dispatch_shape (b : byte) (c : ClientConn) (ev : Event) :
  sound (br c) -> shape c ev (dispatch b c ev).
Proof.
  intros Hs. unfold dispatch.
  destruct (Byte.eqb b LF).
  { destruct (slen (Data ev) =? 0)%Z eqn:Ez; [cbn; auto|].
    apply Z.eqb_neq in Ez.
    destruct (Data ev) as [d|] eqn:Ed; [|contradiction].
    destruct (Byte.eqb (last d x00) LF) eqn:El; cbn; rewrite Ed.
    - split; [now left|]. split; [exact Ez|].
      intros x Hx. injection Hx as ->. now rewrite removelast_snoc.
    - split; [now left|]. split; [exact Ez|].
      intros x Hx. injection Hx as ->. rewrite last_snoc in El. discriminate. }
  destruct (Byte.eqb b x65).
  { apply readValue_shape; [exact Hs|]. intros c' v. eexists _, _.
    split; [reflexivity|]. cbn. auto. }
  destruct (Byte.eqb b x64).
  { destruct (readFieldName (bytes "ata") (br c)) as [[ok err] r1] eqn:E1.
    pose proof (readFieldName_later _ _ _ _ _ E1) as H1.
    destruct err as [e|].
    { cbn. split; [now left|]. left. now apply readFieldName_err in E1. }
    destruct ok; cbn [negb]; [|cbn; auto].
    destruct (readData (loop_fuel r1) r1 (Data ev)) as [[[data err] r2]|] eqn:E2; [|exact I].
    pose proof (readData_facts _ _ _ _ _ _ (later_sound _ _ H1 Hs) E2) as Hf.
    destruct err as [e|].
    - cbn. split; [now left|]. destruct H1 as (_ & H1 & _). rewrite <- H1. exact Hf.
    - cbn. split; [now left|]. right.
      destruct (append_LF data) as (x & Hx & Hl). exists x. split; [exact Hx|].
      cbv beta iota in Hf. rewrite Hl. exact Hf. }
  destruct (Byte.eqb b x69).
  { apply readValue_shape; [exact Hs|]. intros c' v. eexists _, _.
    split; [reflexivity|]. cbn. auto. }
  destruct (Byte.eqb b x72).
  { apply readValue_shape; [exact Hs|]. intros c' v.
    destruct (ParseInt v); eexists _, _; (split; [reflexivity|]); cbn; auto. }
  destruct (Byte.eqb b xef); [|cbn; auto].
  destruct (ReadByte (br c)) as [[b1 e1] r1] eqn:E1.
  destruct (ReadByte_later _ _ _ _ E1) as [(_ & H1 & _) _].
  destruct e1 as [e|].
  { cbn. split; [now left|]. left. now apply ReadByte_err in E1. }
  destruct (negb (Byte.eqb b1 xbb)); [cbn; auto|].
  destruct (ReadByte r1) as [[b2 e2] r2] eqn:E2.
  destruct e2 as [e|].
  { cbn. split; [now left|]. left. apply ReadByte_err in E2. congruence. }
  destruct (negb (Byte.eqb b2 xbf)); cbn; auto.
Qed.

Lemma iteration_shape (c : ClientConn) (ev : Event) :
  sound (br c) ->
  shape c ev (iteration c ev)
  /\ match iteration c ev with
     | Continue c1 _ => rd_err (br c1) = rd_err (br c)
     | _ => True
     end.
Proof.
  intros Hs. unfold iteration.
  destruct (ReadByte (br c)) as [[b err] r1] eqn:E1.
  destruct (ReadByte_later _ _ _ _ E1) as [H1 Hb1].
  destruct err as [e|].
  { split; [|exact I]. cbn. split; [now left|]. left. now apply ReadByte_err in E1. }
  destruct (Hb1 eq_refl) as [_ Hlb].
  pose proof (later_sound _ _ H1 Hs) as Hs1.
  pose proof (dispatch_shape b (with_br c r1) ev Hs1) as Hsh.
  pose proof (dispatch_later b (with_br c r1) ev Hs1 Hlb) as Hl.
  cbn [with_br br LastEventID] in *.
  destruct H1 as (_ & Hr1 & _).
  destruct (dispatch b _ ev) as [c1 ev1|c1 ev1|c1 ev1 err|]; cbn [shape flow_later] in *.
  - destruct (eatLine (loop_fuel (br c1)) (br c1)) as [[[e|] r2]|] eqn:E2.
    + split; [|exact I]. cbn. split; [tauto|]. left.
      apply eatLine_err in E2; [|exact (later_sound _ _ Hl Hs1)].
      destruct Hl as (_ & Hl & _). congruence.
    + destruct (eatLine_returns (loop_fuel (br c1)) (br c1)
                  (later_sound _ _ Hl Hs1) (Nat.lt_succ_diag_r _))
        as (err' & r2' & H2 & (_ & Hl2 & _) & _).
      rewrite E2 in H2. injection H2 as <- <-.
      split; [exact Hsh|]. cbn. destruct Hl as (_ & Hl & _). congruence.
    + split; exact I.
  - split; [exact Hsh|]. destruct Hl as [(_ & Hl & _) _]. cbn in *. congruence.
  - split; [|exact I]. destruct Hsh as [Hid Herr]. split; [exact Hid|].
    destruct err as [e|]; [|exact Herr]. now rewrite <- Hr1.
  - split; exact I.
Qed.

Lemma loopInvariant_first (c : ClientConn) (buf : option (list byte)) :
  sound (br c) ->
  loopInvariant c c (match buf with Some _ => set_Data zeroEvent (Some []) | None => zeroEvent end).
Proof.
  intros Hs. split; [exact Hs|]. split; [reflexivity|].
  split; [left; split; [reflexivity | destruct buf; reflexivity] | left; destruct buf; reflexivity].
Qed.

Lemma loopInvariant_next (c0 c c1 : ClientConn) (ev ev1 : Event) :
  loopInvariant c0 c ev -> iteration c ev = Continue c1 ev1 -> loopInvariant c0 c1 ev1.
Proof.
  intros (Hs & Hr & Hid & Hd) Hit.
  pose proof (iteration_progress c ev Hs) as Hp.
  destruct (iteration_shape c ev Hs) as [Hsh Hre].
  rewrite Hit in Hp, Hsh, Hre. cbn [shape] in Hsh. destruct Hp as [Hs1 _].
  destruct Hsh as [Hid1 Hd1].
  split; [exact Hs1|]. split; [congruence|]. split.
  - destruct Hid1 as [[A B]|A]; [|now right].
    destruct Hid as [[C D]|C]; [left | right]; split || idtac; congruence.
  - destruct Hd1 as [A|A]; [rewrite A; exact Hd | now right].
Qed.

(** What a call of [Receive] returns, in terms of the connection it
    started on. *)
Lemma Receive_loop_result (c0 : ClientConn) (fuel : nat) :
  forall c ev ev1 err c1,
    loopInvariant c0 c ev ->
    Receive_loop fuel c ev = Some (ev1, err, c1) ->
    ((LastEventID c1 = LastEventID c0 /\ ID ev1 = []) \/ LastEventID c1 = ID ev1)
    /\ match err with
       | None => exists d, Data ev1 = Some d /\ (len d < MaxEventDataSize)%Z
       | Some e => e = rd_err (br c0) \/ e = errEventDataTooBig
       end.
Proof.
  induction fuel as [|fuel IH]; intros c ev ev1 err c1 Hinv; [discriminate|].
  cbn [Receive_loop]. destruct (iteration c ev) as [c2 ev2|c2 ev2|c2 ev2 err2|] eqn:Hit;
    try discriminate.
  - apply IH. eapply loopInvariant_next; eassumption.
  - intros H. injection H as <- <- <-.
    destruct Hinv as (Hs & Hr & Hid & Hd).
    destruct (iteration_shape c ev Hs) as [Hsh _]. rewrite Hit in Hsh. cbn [shape] in Hsh.
    destruct Hsh as [Hid1 Herr]. split.
    + destruct Hid1 as [[A B]|A]; [|now right].
      destruct Hid as [[C D]|C]; [left | right]; split || idtac; congruence.
    + destruct err2 as [e|]; [now rewrite <- Hr|].
      destruct Herr as [Hne Hx]. destruct Hd as [Hz|(x & Hx1 & Hx2)]; [contradiction|].
      exists x. split; [now apply Hx | exact Hx2].
Qed.

Lemma Receive_result (c : ClientConn) (buf : option (list byte))
    (ev : Event) (err : option error) (c1 : ClientConn) :
  sound (br c) -> Receive c buf = Some (ev, err, c1) ->
  ((LastEventID c1 = LastEventID c /\ ID ev = []) \/ LastEventID c1 = ID ev)
  /\ match err with
     | None => exists d, Data ev = Some d /\ (len d < MaxEventDataSize)%Z
     | Some e => e = rd_err (br c) \/ e = errEventDataTooBig
     end.
Proof.
  intros Hs H. unfold Receive in H.
  eapply Receive_loop_result; [apply loopInvariant_first; exact Hs | exact H].
Qed.

(** X2: A record [Receive] returns without error always has data: the data
    field is present (possibly empty, never absent) and shorter than
    [MaxEventDataSize]. *)
Theorem returned_record_has_data (c : ClientConn) (buf : option (list byte))
    (ev : Event) (c1 : ClientConn) :
  sound (br c) -> Receive c buf = Some (ev, None, c1) ->
  exists d, Data ev = Some d /\ (len d < MaxEventDataSize)%Z.
Proof. intros Hs H. exact (proj2 (Receive_result c buf ev None c1 Hs H)). Qed.

Lemma returned_record_has_data_witness :
  exists d, Data (mkEvent [] (Some []) [] 0) = Some d /\ (len d < MaxEventDataSize)%Z.
Proof.
  apply (returned_record_has_data (NewClientConn (NewReader (bytes "data:" ++ [LF; LF]))) None
           (mkEvent [] (Some []) [] 0)
           (mkClientConn [] (mkReader 4096 [] (Some LF) io_EOF))).
  - split; [vm_compute; lia | discriminate].
  - reflexivity.
Defined.

(** X3: The error [Receive] returns is either the error of the underlying
    source (the end of the stream, for a finite one) or the size error;
    the [ErrBufferFull] of the reader never comes out. *)
Theorem receive_error_kinds (c : ClientConn) (buf : option (list byte))
    (ev : Event) (e : error) (c1 : ClientConn) :
  sound (br c) -> Receive c buf = Some (ev, Some e, c1) ->
  (e = rd_err (br c) \/ e = errEventDataTooBig) /\ e <> bufio_ErrBufferFull.
Proof.
  intros Hs H. pose proof (proj2 (Receive_result c buf ev (Some e) c1 Hs H)) as He.
  split; [exact He|]. destruct Hs as [_ Hne]. destruct He as [->| ->]; [exact Hne | discriminate].
Qed.

Lemma receive_error_kinds_witness :
  (io_Failure = io_Failure \/ io_Failure = errEventDataTooBig)
  /\ io_Failure <> bufio_ErrBufferFull.
Proof.
  apply (receive_error_kinds
           (NewClientConn (NewReaderSize (bytes "data: cut off") io_Failure 16)) None
           (mkEvent [] (Some (bytes "cut off" ++ [LF])) [] 0) io_Failure
           (mkClientConn [] (mkReader 16 [] (Some x66) io_Failure))).
  - split; [vm_compute; lia | discriminate].
  - reflexivity.
Defined.

(** X4: After a call of [Receive], whatever it returns, either no [id] line
    was taken (the event returned has no id and [LastEventID] is what it
    was before the call) or [LastEventID] is the id of the event
    returned. *)
Theorem last_event_id_follows_id (c : ClientConn) (buf : option (list byte))
    (ev : Event) (err : option error) (c1 : ClientConn) :
  sound (br c) -> Receive c buf = Some (ev, err, c1) ->
  (LastEventID c1 = LastEventID c /\ ID ev = []) \/ LastEventID c1 = ID ev.
Proof. intros Hs H. exact (proj1 (Receive_result c buf ev err c1 Hs H)). Qed.

Lemma last_event_id_follows_id_witness :
  (bytes "8" = bytes "7" /\ bytes "8" = []) \/ bytes "8" = bytes "8".
Proof.
  apply (last_event_id_follows_id
           (mkClientConn (bytes "7")
              (NewReader (bytes "id: 8" ++ [LF] ++ bytes "data: x" ++ [LF; LF])))
           None (mkEvent [] (Some (bytes "x")) (bytes "8") 0) None
           (mkClientConn (bytes "8") (mkReader 4096 [] (Some LF) io_EOF))).
  - split; [vm_compute; lia | discriminate].
  - reflexivity.
Defined.

(** X1: [Receive] returns on every stream: each iteration of its loop reads
    at least one byte, and the loops over [ReadLine] and [ReadString]
    end with the line. *)
Theorem Receive_terminates (c : ClientConn) (buf : option (list byte)) :
  sound (br c) -> exists ev err c1, Receive c buf = Some (ev, err, c1).
Proof. apply Receive_returns. Qed.

Lemma Receive_terminates_witness :
  exists ev err c1,
    Receive (NewClientConn (NewReader (bytes "e" ++ [LF] ++ bytes "data"))) None
    = Some (ev, err, c1).
Proof.
  apply (Receive_terminates (NewClientConn (NewReader (bytes "e" ++ [LF] ++ bytes "data"))) None).
  split; [vm_compute; lia | discriminate].
Defined.

(** ** What [Send] writes, line by line *)

Lemma writeAll_app (a b : list (list byte)) :
  forall s,
    writeAll s (a ++ b)
    = let '(s1, err) := writeAll s a in
      match err with
      | Some e => (s1, Some e)
      | None => writeAll s1 b
      end.
Proof.
  induction a as [|t a IH]; intros s; [reflexivity|].
  cbn [app writeAll]. destruct (Fprintf s t) as [s1 [e|]]; [reflexivity | apply IH].
Qed.

Lemma sendLines_writeAll (fuel : nat) :
  forall s data, (length data <= fuel)%nat ->
    sendLines fuel s data = Some (writeAll s (lineWrites fuel data)).
Proof.
  induction fuel as [|fuel IH]; intros s data Hf.
  - destruct data; [reflexivity | simpl in Hf; lia].
  - destruct data as [|c data]; [reflexivity|]. cbn [sendLines lineWrites].
    destruct (IndexByte (c :: data) LF) as [i|] eqn:Ei; cbn [writeAll].
    + destruct (Fprintf s _) as [s1 [e|]]; [reflexivity|].
      apply IH. rewrite length_skipn. simpl in *. lia.
    + destruct (Fprintf s _) as [s1 [e|]]; [reflexivity|]. now destruct fuel.
Qed.

Lemma Send_body_writeAll (s : ServerConn) (ev : Event) :
  Send_body s ev = Some (writeAll s (writes ev)).
Proof.
  unfold Send_body, writes. destruct (IsZero ev).
  { cbn [writeAll]. now destruct (Fprintf s _) as [s1 [e|]]. }
  set (d := match Data ev with Some d => d | None => [] end).
  fold (endsInLF d). fold (stripLF d).
  destruct (is_empty (Event_ ev)); cbn [negb app writeAll];
    [|destruct (Fprintf s _) as [s1 [e1|]]; [reflexivity|]];
    (destruct (is_empty (ID ev)); cbn [negb app writeAll];
     [|destruct (Fprintf _ (bytes "id: " ++ _)) as [s2 [e2|]]; [reflexivity|]]);
    (destruct (Retry ev =? 0)%Z; cbn [negb app writeAll];
     [|destruct (Fprintf _ (bytes "retry: " ++ _)) as [s3 [e3|]]; [reflexivity|]]);
    rewrite sendLines_writeAll by apply le_n;
    rewrite <- app_assoc, writeAll_app;
    (destruct (writeAll _ (lineWrites _ _)) as [s4 [e4|]]; [reflexivity|]);
    (destruct (endsInLF d); cbn [app writeAll];
     [destruct (Fprintf s4 _) as [s5 [e5|]]; [reflexivity|]|]);
    now destruct (Fprintf _ [LF]) as [s6 [e6|]].
Qed.

Lemma writeAll_budget (texts : list (list byte)) :
  forall (b : list byte) (fl isf : bool) (budget : option nat),
    writeAll (mkServerConn (mkWriter b fl isf budget)) texts
    = (mkServerConn
         (mkWriter (b ++ concat (firstn (allowed budget (length texts)) texts)) fl isf
            (option_map (fun m => m - allowed budget (length texts))%nat budget)),
       if (allowed budget (length texts) <? length texts)%nat then Some io_Failure else None).
Proof.
  induction texts as [|t texts IH]; intros b fl isf budget.
  - destruct budget as [m|]; cbn; rewrite ?Nat.min_0_r, ?Nat.sub_0_r, app_nil_r; reflexivity.
  - cbn [writeAll]. destruct budget as [[|m]|].
    + cbn. now rewrite app_nil_r.
    + unfold Fprintf. cbn [w writesLeft Body Flushed isFlusher]. rewrite IH.
      cbn [allowed length option_map]. rewrite <- Nat.succ_min_distr.
      cbn [firstn concat Nat.sub]. rewrite <- app_assoc.
      change (S (Nat.min m (length texts)) <? S (length texts))%nat
        with (Nat.min m (length texts) <? length texts)%nat.
      reflexivity.
    + unfold Fprintf. cbn [w writesLeft Body Flushed isFlusher]. rewrite IH.
      cbn [allowed length option_map firstn concat]. rewrite <- app_assoc.
      rewrite !Nat.ltb_irrefl. reflexivity.
Qed.

Lemma concat_lineWrites (fuel : nat) :
  forall data, concat (lineWrites fuel data) = dataLines fuel data.
Proof.
  induction fuel as [|fuel IH]; intros data; destruct data as [|c data]; try reflexivity.
  cbn [lineWrites dataLines]. destruct (IndexByte (c :: data) LF) as [i|].
  - cbn [concat]. now rewrite IH.
  - cbn [concat]. now rewrite app_nil_r.
Qed.

Lemma concat_writes (ev : Event) : concat (writes ev) = message ev.
Proof.
  unfold writes, message, wire. destruct (IsZero ev); [reflexivity|].
  rewrite !concat_app, concat_lineWrites.
  destruct (is_empty (Event_ ev)), (is_empty (ID ev)), (Retry ev =? 0)%Z,
    (endsInLF (match Data ev with Some d => d | None => [] end));
    cbn [concat]; rewrite ?app_nil_r; reflexivity.
Qed.

(** X11: [Send] writes the message of the record to the writer line by line,
    one write per line, and stops at the first write that fails: a
    writer that lets [k] more writes through receives the first [k]
    lines and nothing else, and [Send] returns an error exactly when
    lines are left over; when it returns none, the body has grown by the
    whole message. *)
Theorem Send_writes_whole_lines (s : ServerConn) (ev : Event) :
  let k := allowed (writesLeft (w s)) (length (writes ev)) in
  exists s' err,
    Send s ev = Some (s', err)
    /\ Body (w s') = Body (w s) ++ concat (firstn k (writes ev))
    /\ err = (if (k <? length (writes ev))%nat then Some io_Failure else None)
    /\ concat (writes ev) = message ev
    /\ (err = None -> Body (w s') = Body (w s) ++ message ev).
Proof.
  intros k. unfold Send. rewrite Send_body_writeAll.
  destruct s as [[b fl isf budget]]. rewrite writeAll_budget.
  cbn [w writesLeft] in k. fold k.
  eexists _, _. split; [reflexivity|].
  split; [unfold flush; cbn [w isFlusher Body]; now destruct isf|].
  split; [reflexivity|]. split; [apply concat_writes|].
  destruct (k <? length (writes ev))%nat eqn:E; [discriminate|]. intros _.
  apply Nat.ltb_ge in E.
  unfold flush; cbn [w isFlusher Body]. rewrite firstn_all2 by exact E.
  rewrite concat_writes. now destruct isf.
Qed.

(** X12: [Send] always asks the writer to flush, whether the writes went
    through or not, when the writer can flush; it leaves the flag alone
    when the writer cannot. *)
Theorem Send_always_flushes (s : ServerConn) (ev : Event) :
  exists s' err,
    Send s ev = Some (s', err)
    /\ Flushed (w s') = (isFlusher (w s) || Flushed (w s))%bool
    /\ isFlusher (w s') = isFlusher (w s).
Proof.
  unfold Send. rewrite Send_body_writeAll.
  destruct s as [[b fl isf budget]]. rewrite writeAll_budget.
  eexists _, _. split; [reflexivity|].
  unfold flush. cbn [w isFlusher Flushed]. destruct isf; split; reflexivity.
Qed.

(** ** A stream of events *)

Lemma Send_recorder (b : list byte) (fl : bool) (ev : Event) :
  Send (mkServerConn (mkWriter b fl true None)) ev
  = Some (mkServerConn (mkWriter (b ++ message ev) true true None), None).
Proof.
  unfold Send. rewrite Send_body_writeAll, writeAll_budget.
  cbn [allowed option_map]. rewrite Nat.ltb_irrefl, firstn_all, concat_writes.
  reflexivity.
Qed.

Lemma sendAll_recorder (evs : list Event) :
  forall (b : list byte) (fl : bool),
  exists fl',
    sendAll (mkServerConn (mkWriter b fl true None)) evs
    = Some (mkServerConn (mkWriter (b ++ concat (map message evs)) fl' true None), None).
Proof.
  induction evs as [|ev evs IH]; intros b fl.
  - exists fl. cbn. now rewrite app_nil_r.
  - cbn [sendAll]. rewrite Send_recorder.
    destruct (IH (b ++ message ev) true) as [fl' H]. exists fl'. rewrite H.
    cbn [map concat]. now rewrite app_assoc.
Qed.

Lemma message_length (ev : Event) : (1 <= length (message ev))%nat.
Proof.
  unfold message, wire. destruct (IsZero ev); [simpl; lia|].
  rewrite !length_app. simpl. lia.
Qed.

Lemma stream_length (evs : list Event) :
  (length evs <= length (concat (map message evs)))%nat.
Proof.
  induction evs as [|ev evs IH]; [simpl; lia|].
  cbn [map concat length]. rewrite length_app. pose proof (message_length ev). lia.
Qed.

Lemma Receive_keepalive (n : nat) (e : error) (lid rest : list byte)
    (lb : option byte) (buf : option (list byte)) :
  (2 <= n)%nat -> e <> bufio_ErrBufferFull ->
  Receive (mkClientConn lid (mkReader n (keepalive ++ rest) lb e)) buf
  = Receive (mkClientConn lid (mkReader n rest (Some LF) e)) buf.
Proof.
  intros Hn He.
  rewrite (Receive_skip _ (mkClientConn lid (mkReader n (LF :: rest) (Some LF) e)));
    [| split; assumption | apply (iteration_comment n e Hn lid [] (LF :: rest)); tauto].
  apply Receive_skip; [split; assumption|].
  apply iteration_blank. destruct buf; reflexivity.
Qed.

Lemma receiveAll_stream (n : nat) (e : error) :
  (2 <= n)%nat -> e <> bufio_ErrBufferFull ->
  forall evs, Forall (sendable n) evs ->
    forall (fuel : nat) (lid : gostring) (lb : option byte) (buf : option (list byte)),
      (length (filter (fun ev => negb (IsZero ev)) evs) < fuel)%nat ->
      exists c',
        receiveAll fuel (mkClientConn lid (mkReader n (concat (map message evs)) lb e)) buf
        = Some (filter (fun ev => negb (IsZero ev)) evs, e, c').
Proof.
  intros Hn He evs Hall. induction Hall as [|ev evs Hev _ IH]; intros fuel lid lb buf Hf.
  - destruct fuel as [|fuel]; [lia|]. cbn [map concat filter receiveAll].
    unfold Receive, loop_fuel. cbn [br pending length].
    rewrite (Receive_loop_return _ _ _ _ _ _ (iteration_end _ _ _ _ _)). eauto.
  - cbn [map concat filter] in *. destruct Hev as [Hz|Hrt].
    + rewrite Hz in *. cbn [negb] in *. unfold message at 1. rewrite Hz.
      destruct (IH fuel lid (Some LF) buf Hf) as [c' H]. exists c'.
      destruct fuel as [|fuel]; [discriminate|]. cbn [receiveAll] in *.
      now rewrite Receive_keepalive.
    + pose proof (roundTrippable_not_zero _ _ Hrt) as Hz. rewrite Hz in *. cbn [negb length] in *.
      unfold message at 1. rewrite Hz.
      destruct fuel as [|fuel]; [lia|]. cbn [receiveAll].
      rewrite (Receive_wire n e ev lid _ lb buf Hn Hrt).
      destruct (IH fuel (if is_empty (ID ev) then lid else ID ev) (Some LF) (Data ev))
        as [c' H]; [lia|].
      rewrite H. eauto.
Qed.

(** X13: Any sequence of records, each either the zero record or one that
    comes back as it was sent, written by [Send] one after the other and
    read back by the receiving loop: the records that are not zero come
    out, equal to those sent and in the same order; the zero records,
    sent as keepalives, are skipped; the loop ends with the end of the
    stream. *)
Theorem event_stream_round_trip (size : nat) (evs : list Event) :
  Forall (sendable (Nat.max size minReadBufferSize)) evs ->
  encodeAll evs = Some (concat (map message evs))
  /\ decodeAll size (concat (map message evs))
     = Some (filter (fun ev => negb (IsZero ev)) evs, io_EOF).
Proof.
  intros Hall. split.
  - unfold encodeAll, NewRecorder. destruct (sendAll_recorder evs [] false) as [fl' H].
    now rewrite H.
  - unfold decodeAll, NewClientConn, NewReaderSize.
    destruct (receiveAll_stream _ io_EOF (NewReaderSize_ge size) ltac:(discriminate) evs Hall
                (S (length (concat (map message evs)))) [] None None) as [c' H].
    + pose proof (stream_length evs).
      pose proof (filter_length_le (fun ev => negb (IsZero ev)) evs). lia.
    + now rewrite H.
Qed.

Lemma hello_roundTrippable :
  roundTrippable (Nat.max defaultBufSize minReadBufferSize) (dataEvent "hello").
Proof.
  unfold roundTrippable, dataEvent. cbn [Event_ ID Retry Data].
  split; [tauto|]. split; [tauto|]. split; [lia|].
  eexists. split; [reflexivity|].
  split; [vm_compute; discriminate|].
  split; [vm_compute; discriminate|].
  split; reflexivity.
Defined.

Lemma event_stream_round_trip_witness :
  encodeAll [dataEvent "hello"; zeroEvent; zeroEvent; weirdEvent]
  = Some (concat (map message [dataEvent "hello"; zeroEvent; zeroEvent; weirdEvent]))
  /\ decodeAll defaultBufSize
       (concat (map message [dataEvent "hello"; zeroEvent; zeroEvent; weirdEvent]))
     = Some ([dataEvent "hello"; weirdEvent], io_EOF).
Proof.
  apply (event_stream_round_trip defaultBufSize
           [dataEvent "hello"; zeroEvent; zeroEvent; weirdEvent]).
  apply Forall_cons; [right; exact hello_roundTrippable|].
  apply Forall_cons; [left; reflexivity|].
  apply Forall_cons; [left; reflexivity|].
  apply Forall_cons; [right; exact weirdEvent_roundTrippable|].
  apply Forall_nil.
Defined.

(** ** The reuse buffer *)

Lemma sameButNil_refl (ev : Event) : sameButNil ev ev.
Proof. unfold sameButNil. auto. Qed.

Lemma sameFlow_refl (x : flow) : sameFlow x x.
Proof. destruct x; cbn; auto using sameButNil_refl. Qed.

Lemma sameButNil_eq (ev1 ev2 : Event) :
  sameButNil ev1 ev2 -> Data ev1 = Data ev2 -> ev1 = ev2.
Proof.
  destruct ev1, ev2. unfold sameButNil. cbn. intros (-> & -> & -> & _) ->. reflexivity.
Qed.

Lemma readData_same (fuel : nat) :
  forall r d1 d2, sameDataButNil d1 d2 ->
    match readData fuel r d1, readData fuel r d2 with
    | Some (x1, err1, r1), Some (x2, err2, r2) =>
        sameDataButNil x1 x2 /\ err1 = err2 /\ r1 = r2
    | None, None => True
    | _, _ => False
    end.
Proof.
  induction fuel as [|fuel IH]; intros r d1 d2 Hd; [exact I|].
  cbn [readData]. destruct (ReadLine r) as [[[piece isPrefix] err] r1].
  destruct err as [e|]; [auto|].
  assert (Ha : sameDataButNil (append d1 piece) (append d2 piece)).
  { destruct Hd as [->|[-> ->]]; [now left|]. destruct piece; [now right | now left]. }
  assert (Hl : slen (append d1 piece) = slen (append d2 piece)).
  { destruct Ha as [->|[-> ->]]; reflexivity. }
  rewrite Hl. destruct (MaxEventDataSize <=? _)%Z; [auto|].
  destruct isPrefix; [now apply IH | auto].
Qed.

Lemma readValue_same (c : ClientConn) (ev1 ev2 : Event) (name : gostring)
    (k : ClientConn -> Event -> gostring -> flow) :
  sameButNil ev1 ev2 ->
  (forall c' v, sameFlow (k c' ev1 v) (k c' ev2 v)) ->
  sameFlow (readValue c ev1 name k) (readValue c ev2 name k).
Proof.
  intros Hev Hk. unfold readValue.
  destruct (readFieldName name (br c)) as [[ok err] r1].
  destruct err as [e|]; [cbn; intuition discriminate|].
  destruct ok; cbn [negb]; [|cbn; auto].
  destruct (ReadString r1 LF) as [[[s [e|]] r2]|]; [cbn; intuition discriminate | apply Hk | exact I].
Qed.

Lemma set_same (ev1 ev2 : Event) :
  sameButNil ev1 ev2 ->
  (forall v, sameButNil (set_Event ev1 v) (set_Event ev2 v))
  /\ (forall v, sameButNil (set_ID ev1 v) (set_ID ev2 v))
  /\ (forall v, sameButNil (set_Retry ev1 v) (set_Retry ev2 v))
  /\ (forall d1 d2, sameDataButNil d1 d2 -> sameButNil (set_Data ev1 d1) (set_Data ev2 d2)).
Proof.
  unfold sameButNil, sameDataButNil. intros (A & B & C & D). cbn. intuition.
Qed.

Lemma dispatch_same (b : byte) (c : ClientConn) (ev1 ev2 : Event) :
  sameButNil ev1 ev2 -> sameFlow (dispatch b c ev1) (dispatch b c ev2).
Proof.
  intros Hev. destruct (set_same _ _ Hev) as (HE & HI & HR & HD).
  pose proof Hev as (_ & _ & _ & Hd).
  destruct Hd as [Hd|[Hd1 Hd2]].
  { rewrite (sameButNil_eq _ _ Hev Hd). apply sameFlow_refl. }
  unfold dispatch.
  destruct (Byte.eqb b LF).
  { rewrite Hd1, Hd2. cbn. auto. }
  destruct (Byte.eqb b x65).
  { apply readValue_same; [exact Hev|]. intros c' v. cbn. auto. }
  destruct (Byte.eqb b x64).
  { destruct (readFieldName (bytes "ata") (br c)) as [[ok err] r1].
    destruct err as [e|]; [cbn; intuition discriminate|].
    destruct ok; cbn [negb]; [|cbn; auto].
    pose proof (readData_same (loop_fuel r1) r1 (Data ev1) (Data ev2)
                  (or_intror (conj Hd1 Hd2))) as Hs.
    destruct (readData (loop_fuel r1) r1 (Data ev1)) as [[[x1 err1] r2]|],
             (readData (loop_fuel r1) r1 (Data ev2)) as [[[x2 err2] r3]|]; try contradiction;
      [|exact I].
    destruct Hs as (Hx & <- & <-).
    destruct err1 as [e|]; cbn.
    - split; [reflexivity|]. split; [reflexivity|]. split; [now apply HD | discriminate].
    - split; [reflexivity|]. apply HD. left.
      destruct Hx as [->|[-> ->]]; reflexivity. }
  destruct (Byte.eqb b x69).
  { apply readValue_same; [exact Hev|]. intros c' v. cbn. auto. }
  destruct (Byte.eqb b x72).
  { apply readValue_same; [exact Hev|]. intros c' v. destruct (ParseInt v); cbn; auto. }
  destruct (Byte.eqb b xef); [|cbn; auto].
  destruct (ReadByte (br c)) as [[b1 [e|]] r1]; [cbn; intuition discriminate|].
  destruct (negb (Byte.eqb b1 xbb)); [cbn; auto|].
  destruct (ReadByte r1) as [[b2 [e|]] r2]; [cbn; intuition discriminate|].
  destruct (negb (Byte.eqb b2 xbf)); cbn; auto.
Qed.

Lemma iteration_same (c : ClientConn) (ev1 ev2 : Event) :
  sameButNil ev1 ev2 -> sameFlow (iteration c ev1) (iteration c ev2).
Proof.
  intros Hev. unfold iteration.
  destruct (ReadByte (br c)) as [[b [e|]] r1]; [cbn; intuition discriminate|].
  pose proof (dispatch_same b (with_br c r1) ev1 ev2 Hev) as Hs.
  destruct (dispatch b _ ev1) as [c1 x1|c1 x1|c1 x1 err1|],
           (dispatch b _ ev2) as [c2 x2|c2 x2|c2 x2 err2|]; try contradiction; try exact Hs.
  destruct Hs as [<- Hx].
  destruct (eatLine (loop_fuel (br c1)) (br c1)) as [[[e|] r2]|]; cbn; auto.
  intuition discriminate.
Qed.

Lemma Receive_loop_same (fuel : nat) :
  forall c ev1 ev2, sameButNil ev1 ev2 ->
    match Receive_loop fuel c ev1, Receive_loop fuel c ev2 with
    | Some (x1, err1, c1), Some (x2, err2, c2) =>
        c1 = c2 /\ err1 = err2 /\ sameButNil x1 x2 /\ (err1 = None -> x1 = x2)
    | None, None => True
    | _, _ => False
    end.
Proof.
  induction fuel as [|fuel IH]; intros c ev1 ev2 Hev; [exact I|].
  cbn [Receive_loop]. pose proof (iteration_same c ev1 ev2 Hev) as Hs.
  destruct (iteration c ev1) as [c1 x1|c1 x1|c1 x1 err1|],
           (iteration c ev2) as [c2 x2|c2 x2|c2 x2 err2|]; try contradiction; try exact I.
  - destruct Hs as [<- Hx]. now apply IH.
  - exact Hs.
Qed.

(** X5: The buffer passed to [Receive] changes nothing but the storage: a
    call with a buffer, whatever it holds, returns the same error and
    leaves the connection in the same state as a call without one, and
    the same record when there is no error; with an error, the events
    returned are the same but for data that is absent without a buffer
    and empty with one. *)
Theorem reuse_buffer_is_transparent (c : ClientConn) (b : list byte) :
  match Receive c None, Receive c (Some b) with
  | Some (ev1, err1, c1), Some (ev2, err2, c2) =>
      c1 = c2 /\ err1 = err2 /\ sameButNil ev1 ev2 /\ (err1 = None -> ev1 = ev2)
  | None, None => True
  | _, _ => False
  end.
Proof.
  unfold Receive. apply Receive_loop_same.
  unfold sameButNil. cbn. repeat split. right. split; reflexivity.
Qed.

(** ** [readFieldName] *)

Lemma readFieldName_ok (name : gostring) :
  forall r err r1, readFieldName name r = (true, err, r1) ->
    exists b s,
      pending r = name ++ COLON :: b :: s /\ err = None
      /\ pending r1 = (if Byte.eqb b SP then s else b :: s).
Proof.
  induction name as [|c name IH]; intros r err r1; cbn [readFieldName]; unfold ReadByte at 1.
  - destruct (pending r) as [|b0 s0] eqn:Ep; [discriminate|].
    destruct (Byte.eqb b0 COLON) eqn:E0; cbn [negb]; [|discriminate].
    apply eqb_true in E0. subst b0. unfold ReadByte. cbn [pending set_pending].
    destruct s0 as [|b s]; [discriminate|].
    exists b, s. split; [reflexivity|].
    destruct (Byte.eqb b SP); cbn [negb] in *; injection H as <- <-; split; reflexivity.
  - destruct (pending r) as [|b0 s0] eqn:Ep; [discriminate|].
    destruct (Byte.eqb b0 c) eqn:E0; cbn [negb]; [|discriminate].
    apply eqb_true in E0. subst b0.
    destruct (Byte.eqb c LF); [discriminate|].
    intros H. destruct (IH _ _ _ H) as (b & s & Hp & He & Hr).
    cbn [pending set_pending] in Hp. subst s0. exists b, s. auto.
Qed.

(** X14: [readFieldName] reports a match exactly when the stream goes on with
    the rest of the name, a colon and at least one more byte; it then
    does so without error and leaves the reader after the colon and one
    optional space.  A name and colon at the very end of the stream are
    no match. *)
Theorem readFieldName_matches_iff (name : gostring) (r : Reader) :
  ~ In LF name ->
  ((exists err r1, readFieldName name r = (true, err, r1))
   <-> exists b s, pending r = name ++ COLON :: b :: s)
  /\ forall err r1, readFieldName name r = (true, err, r1) ->
       err = None
       /\ exists b s, pending r = name ++ COLON :: b :: s
                      /\ pending r1 = (if Byte.eqb b SP then s else b :: s).
Proof.
  intros Hname. split; [split|].
  - intros (err & r1 & H). destruct (readFieldName_ok _ _ _ _ H) as (b & s & Hp & _). eauto.
  - intros (b & s & Hp). destruct r as [n p lb e]. cbn [pending] in Hp. subst p.
    rewrite readFieldName_colon by (exact Hname || discriminate). eauto.
  - intros err r1 H. destruct (readFieldName_ok _ _ _ _ H) as (b & s & Hp & He & Hr).
    split; [exact He|]. eauto.
Qed.

Lemma readFieldName_matches_iff_witness :
  (exists err r1, readFieldName (bytes "ata") (NewReader (bytes "ata: x")) = (true, err, r1))
  <-> exists b s, pending (NewReader (bytes "ata: x")) = bytes "ata" ++ COLON :: b :: s.
Proof.
  apply (proj1 (readFieldName_matches_iff (bytes "ata") (NewReader (bytes "ata: x"))
                  ltac:(vm_compute; intuition discriminate))).
Defined.

(** ** The lines of a payload *)

Lemma last_in (d : list byte) : d <> [] -> In (last d x00) d.
Proof.
  intros Hd. destruct (@exists_last _ d Hd) as (p & z & ->).
  rewrite last_snoc. apply in_or_app. right. now left.
Qed.

Lemma lineWrites_segments (fuel : nat) :
  forall d, d <> [] -> (length d <= fuel)%nat ->
    exists segs,
      lineWrites fuel d = map (fun seg => bytes "data: " ++ seg ++ [LF]) segs
      /\ Forall (fun seg => ~ In LF seg) segs
      /\ concat (map (fun seg => seg ++ [LF]) segs)
         = (if Byte.eqb (last d x00) LF then d else d ++ [LF]).
Proof.
  induction fuel as [|fuel IH]; intros d Hd Hf.
  - destruct d; [contradiction | simpl in Hf; lia].
  - destruct d as [|c0 d0]; [contradiction|].
    remember (c0 :: d0) as d eqn:Ed.
    assert (Hlw : lineWrites (S fuel) d
                  = match IndexByte d LF with
                    | None => [bytes "data: " ++ d ++ [LF]]
                    | Some i => (bytes "data: " ++ firstn i d ++ [LF])
                                  :: lineWrites fuel (skipn (S i) d)
                    end) by (subst d; reflexivity).
    rewrite Hlw. clear Hlw.
    destruct (IndexByte d LF) as [i|] eqn:Ei.
    + destruct (IndexByte_Some_split d LF i Ei) as (Hsplit & Hseg & Hlen).
      set (seg := firstn i d) in *. set (d1 := skipn (S i) d) in *.
      destruct d1 as [|c1 d1'] eqn:E1.
      * exists [seg]. split; [now destruct fuel|]. split; [now constructor|].
        cbn [map concat]. rewrite app_nil_r, Hsplit, last_snoc.
        change (Byte.eqb LF LF) with true. reflexivity.
      * destruct (IH (c1 :: d1')) as (segs & Hl & Hall & Hc); [discriminate | |].
        { rewrite <- E1. unfold d1. rewrite length_skipn. lia. }
        exists (seg :: segs). split; [cbn [map]; now rewrite Hl|].
        split; [now constructor|].
        cbn [map concat]. rewrite Hc.
        assert (Hlast : last d x00 = last (c1 :: d1') x00).
        { rewrite Hsplit. change (seg ++ LF :: c1 :: d1') with (seg ++ [LF] ++ c1 :: d1').
          rewrite app_assoc. apply last_app_r. discriminate. }
        rewrite Hlast. clear Hlast Hlen Hseg Hall. clearbody seg.
        destruct (Byte.eqb (last (c1 :: d1') x00) LF); rewrite Hsplit;
          now rewrite <- !app_assoc.
    + exists [d]. split; [reflexivity|].
      pose proof (IndexByte_None_absent d LF Ei) as Hno.
      split; [now constructor|]. cbn [map concat]. rewrite app_nil_r.
      rewrite eqb_diff; [reflexivity|].
      intros E. apply Hno. rewrite <- E. apply last_in. subst d. discriminate.
Qed.

(** X15: The loop of [Send] over the payload writes one line per segment
    between line feeds: no line written holds a line feed inside, and
    the segments, each followed by a line feed, make up the payload,
    with one line feed added at the end unless the payload already ends
    in one. *)
Theorem data_lines_are_segments (s : ServerConn) (d : list byte) :
  d <> [] ->
  exists segs,
    sendLines (length d) s d
    = Some (writeAll s (map (fun seg => bytes "data: " ++ seg ++ [LF]) segs))
    /\ Forall (fun seg => ~ In LF seg) segs
    /\ concat (map (fun seg => seg ++ [LF]) segs)
       = (if Byte.eqb (last d x00) LF then d else d ++ [LF]).
Proof.
  intros Hd. destruct (lineWrites_segments (length d) d Hd (le_n _)) as (segs & Hl & Hall & Hc).
  exists segs. split; [|split; assumption].
  rewrite sendLines_writeAll by apply le_n. now rewrite Hl.
Qed.

Lemma data_lines_are_segments_witness :
  exists segs,
    sendLines (length (bytes "a" ++ [LF; LF] ++ bytes "b"))
      (mkServerConn NewRecorder) (bytes "a" ++ [LF; LF] ++ bytes "b")
    = Some (writeAll (mkServerConn NewRecorder)
              (map (fun seg => bytes "data: " ++ seg ++ [LF]) segs))
    /\ Forall (fun seg => ~ In LF seg) segs
    /\ concat (map (fun seg => seg ++ [LF]) segs)
       = (if Byte.eqb (last (bytes "a" ++ [LF; LF] ++ bytes "b") x00) LF
          then bytes "a" ++ [LF; LF] ++ bytes "b"
          else (bytes "a" ++ [LF; LF] ++ bytes "b") ++ [LF]).
Proof.
  apply (data_lines_are_segments (mkServerConn NewRecorder) (bytes "a" ++ [LF; LF] ++ bytes "b")).
  discriminate.
Defined.

(** ** The client tests of the repository *)

Example TestClientConnBasic :
  testClientConnConsumption (bytes "data:Hello, world!" ++ [LF; LF])
    [dataEvent "Hello, world!"] = true.
Proof. vm_compute. reflexivity. Qed.

Example TestClientConnMultiple :
  testClientConnConsumption (bytes "data:1" ++ [LF; LF] ++ bytes "data:2" ++ [LF; LF])
    [dataEvent "1"; dataEvent "2"] = true.
Proof. vm_compute. reflexivity. Qed.

Example TestClientConnEventName :
  testClientConnConsumption (bytes "event:a" ++ [LF] ++ bytes "data:b" ++ [LF; LF])
    [mkEvent (bytes "a") (Some (bytes "b")) [] 0] = true.
Proof. vm_compute. reflexivity. Qed.

Example TestClientConnLeadingSpaces :
  testClientConnConsumption
    (bytes "data: one space" ++ [LF; LF] ++ bytes "data:  two spaces" ++ [LF; LF])
    [dataEvent "one space"; dataEvent " two spaces"] = true.
Proof. vm_compute. reflexivity. Qed.

Example TestClientConnDataConcat :
  testClientConnConsumption (bytes "data:1" ++ [LF] ++ bytes "data:2" ++ [LF; LF])
    [mkEvent [] (Some (bytes "1" ++ [LF] ++ bytes "2")) [] 0] = true.
Proof. vm_compute. reflexivity. Qed.

Example TestClientConnID :
  testClientConnConsumption (bytes "id: zzz" ++ [LF] ++ bytes "data: 4" ++ [LF; LF])
    [mkEvent [] (Some (bytes "4")) (bytes "zzz") 0] = true.
Proof. vm_compute. reflexivity. Qed.

Example TestClientConnRetry :
  testClientConnConsumption (bytes "retry:4" ++ [LF] ++ bytes "data:a" ++ [LF; LF])
    [mkEvent [] (Some (bytes "a")) [] 4] = true.
Proof. vm_compute. reflexivity. Qed.

Example TestClientConnAttributesInMiddle :
  testClientConnConsumption
    (bytes "data:before" ++ [LF] ++ bytes "retry:1" ++ [LF] ++ bytes "event:name" ++ [LF]
     ++ bytes "id:foo" ++ [LF] ++ bytes "data:after" ++ [LF; LF])
    [mkEvent (bytes "name") (Some (bytes "before" ++ [LF] ++ bytes "after")) (bytes "foo") 1]
  = true.
Proof. vm_compute. reflexivity. Qed.

Example TestClientConnDropsNoDataMessages :
  testClientConnConsumption (bytes "event:a" ++ [LF; LF]) [] = true.
Proof. vm_compute. reflexivity. Qed.

Example TestClientConnReturnsEmptyData :
  testClientConnConsumption (bytes "event:b" ++ [LF] ++ bytes "data:" ++ [LF; LF])
    [mkEvent (bytes "b") (Some []) [] 0] = true.
Proof. vm_compute. reflexivity. Qed.

Example TestClientConnWeirdEvent :
  testClientConnConsumption
    (bytes "event:  also leading space" ++ [LF] ++ bytes "id:  4" ++ [LF]
     ++ bytes "retry: 1000" ++ [LF] ++ bytes "data:   leading spaces" ++ [LF]
     ++ bytes "data: multiline" ++ [LF] ++ bytes "data: and ends with a newline" ++ [LF]
     ++ bytes "data:" ++ [LF; LF])
    [weirdEvent] = true.
Proof. vm_compute. reflexivity. Qed.

Example TestClientConnKeepaliveData :
  testClientConnConsumption (bytes ":" ++ [LF; LF] ++ bytes "data: stuff" ++ [LF; LF])
    [dataEvent "stuff"] = true.
Proof. vm_compute. reflexivity. Qed.

Example TestClientConnBOM :
  testClientConnConsumption (BOM ++ bytes "data: stuff" ++ [LF; LF]) [dataEvent "stuff"] = true.
Proof. vm_compute. reflexivity. Qed.

Example TestClientConnStreams :
  testClientConnConsumption (concat (repeat (bytes "data:message" ++ [LF; LF]) 100))
    (repeat (dataEvent "message") 100) = true.
Proof. vm_compute. reflexivity. Qed.
